(** * NgsJsonUtilsService: a shallow embedding and its verification

    The service of [ngs-json-utils.service.ts] is a set of stateless methods
    over JavaScript values drawn from the JSON domain.  This development
    embeds the methods as Rocq functions and proves the properties of the
    specification about them.

    Modelling conventions.
    - A JavaScript value is a tree ([value]).  [undefined] is not a member of
      the JSON domain; a method result that may be [undefined] has type
      [option value], [None] standing for [undefined].
    - Numbers are the integer-valued ones, as [Z] (faithful in the safe-integer
      range, where [Number::toString] is the plain decimal numeral).
    - Strings are [string]; a character is a code unit in the range 0..255.
    - An object is its list of own enumerable members in the order
      [OrdinaryOwnPropertyKeys] reports them: array-index keys in ascending
      numeric order, then the other keys in creation order.  [obj_set] is
      [CreateDataProperty]/[Set] on such a list.
    - A value is described by its own members.  A read [v\[k\]] and the test
      [k in v] go on, past the own members, to the prototype chain: the
      members of the built-in prototypes are a parameter ([prototypes]) of
      the methods that read through the chain.  Such a member is a function
      or a prototype object, not a JSON value: a result that is one, holds
      one or was computed from one is [Beyond], and the development says no
      more of it.
    - The prototype of a result is not part of its description: results are
      compared by their own members. *)

From Stdlib Require Import List String Ascii ZArith NArith Arith Lia Bool.
From Stdlib Require Import Permutation.
From Stdlib Require Import DecimalString DecimalN DecimalFacts.
Import ListNotations.

Local Open Scope list_scope.
Local Open Scope string_scope.

Notation "a +++ b" := (String.append a b) (at level 60, right associativity).

(** ** Numerals *)

(** [Number::toString] on a non-negative integer. *)
Definition print_N (n : N) : string := NilEmpty.string_of_uint (N.to_uint n).

(** [Number::toString] on an integer. *)
Definition print_Z (z : Z) : string :=
  match z with
  | Z0 => "0"
  | Zpos p => print_N (Npos p)
  | Zneg p => String "-" (print_N (Npos p))
  end.

Definition is_digit (c : ascii) : bool :=
  match c with
  | "0" | "1" | "2" | "3" | "4" | "5" | "6" | "7" | "8" | "9" => true
  | _ => false
  end%char.

(** A decimal numeral without a superfluous leading zero. *)
Definition canonical_uint (d : Decimal.uint) : bool :=
  match d with
  | Decimal.Nil => false
  | Decimal.D0 Decimal.Nil => true
  | Decimal.D0 _ => false
  | _ => true
  end.

(** [CanonicalNumericIndexString] restricted to non-negative integers: the
    key is the decimal numeral of the number it denotes. *)
Definition canonical_index (k : string) : option N :=
  match NilEmpty.uint_of_string k with
  | Some d => if canonical_uint d then Some (N.of_uint d) else None
  | None => None
  end.

(** An array index is a canonical index below 2^32 - 1. *)
Definition array_index (k : string) : option N :=
  match canonical_index k with
  | Some n => if (n <? 4294967295)%N then Some n else None
  | None => None
  end.

(** ** Property lists *)

Section Members.
Context {A : Type}.

Fixpoint lookup (k : string) (o : list (string * A)) : option A :=
  match o with
  | [] => None
  | (k', v) :: o' => if k' =? k then Some v else lookup k o'
  end.

Definition has_key (k : string) (o : list (string * A)) : bool :=
  match lookup k o with Some _ => true | None => false end.

Fixpoint replace_member (k : string) (v : A) (o : list (string * A))
  : list (string * A) :=
  match o with
  | [] => []
  | (k', v') :: o' =>
      if k' =? k then (k', v) :: o' else (k', v') :: replace_member k v o'
  end.

(** Position of a new array-index key [k] (numeric value [n]): after the
    array-index keys that are smaller, before everything else. *)
Fixpoint insert_index (n : N) (k : string) (v : A) (o : list (string * A))
  : list (string * A) :=
  match o with
  | [] => [(k, v)]
  | (k', v') :: o' =>
      match array_index k' with
      | Some m =>
          if (m <? n)%N then (k', v') :: insert_index n k v o'
          else (k, v) :: o
      | None => (k, v) :: o
      end
  end.

(** [o\[k\] = v] on an ordinary object: an existing member keeps its place,
    a new one is created at the place its key has in the key order. *)
Definition obj_set (k : string) (v : A) (o : list (string * A))
  : list (string * A) :=
  if has_key k o then replace_member k v o
  else match array_index k with
       | Some n => insert_index n k v o
       | None => o ++ [(k, v)]
       end.

(** Creating the members of a list one after the other on an object:
    [Object.fromEntries], [Object.assign], object spread, and what
    [JSON.parse] does with the members it reads. *)
Definition assign (acc : list (string * A)) (es : list (string * A))
  : list (string * A) :=
  fold_left (fun acc kv => obj_set (fst kv) (snd kv) acc) es acc.

Definition from_entries (es : list (string * A)) : list (string * A) :=
  assign [] es.

(** The own members of an array, keyed by index. *)
Fixpoint index_entries_from (i : N) (l : list A) : list (string * A) :=
  match l with
  | [] => []
  | v :: l' => (print_N i, v) :: index_entries_from (N.succ i) l'
  end.

Definition index_entries (l : list A) : list (string * A) :=
  index_entries_from 0%N l.
End Members.

(** The order of own property keys: [k1] may come before [k2]. *)
Definition key_before (k1 k2 : string) : bool :=
  match array_index k1, array_index k2 with
  | Some a, Some b => (a <? b)%N
  | Some _, None => true
  | None, Some _ => false
  | None, None => negb (k1 =? k2)
  end.

Fixpoint keys_ordered (ks : list string) : bool :=
  match ks with
  | [] => true
  | k :: ks' => forallb (key_before k) ks' && keys_ordered ks'
  end.

(** ** JSON values *)

Unset Elimination Schemes.
Inductive value : Type :=
| VNull
| VBool (b : bool)
| VNum (n : Z)
| VStr (s : string)
| VArr (items : list value)
| VObj (members : list (string * value)).
Set Elimination Schemes.

(** Induction over the tree, with the hypothesis available for every element
    of an array and every member of an object. *)
Fixpoint value_ind (P : value -> Prop)
    (HNull : P VNull)
    (HBool : forall b, P (VBool b))
    (HNum : forall n, P (VNum n))
    (HStr : forall s, P (VStr s))
    (HArr : forall l, Forall P l -> P (VArr l))
    (HObj : forall o, Forall (fun kv => P (snd kv)) o -> P (VObj o))
    (v : value) {struct v} : P v :=
  let rec := value_ind P HNull HBool HNum HStr HArr HObj in
  match v with
  | VNull => HNull
  | VBool b => HBool b
  | VNum n => HNum n
  | VStr s => HStr s
  | VArr l =>
      HArr l ((fix items (l : list value) : Forall P l :=
                 match l with
                 | [] => Forall_nil _
                 | x :: l' => Forall_cons x (rec x) (items l')
                 end) l)
  | VObj o =>
      HObj o ((fix members (o : list (string * value))
                 : Forall (fun kv => P (snd kv)) o :=
                 match o with
                 | [] => Forall_nil _
                 | kv :: o' =>
                     Forall_cons (P := fun kv => P (snd kv)) kv
                       (rec (snd kv)) (members o')
                 end) o)
  end.

(** The values a JavaScript program can hold: within every object the keys
    are distinct and stand in own-property order. *)
Fixpoint wf_value (v : value) : bool :=
  match v with
  | VArr l => forallb wf_value l
  | VObj o =>
      keys_ordered (map fst o) && forallb (fun kv => wf_value (snd kv)) o
  | _ => true
  end.

Definition is_mapping (v : value) : bool :=
  match v with VObj _ => true | _ => false end.

(** [typeof v === 'object' && v !== null] *)
Definition is_object (v : value) : bool :=
  match v with VObj _ | VArr _ => true | _ => false end.

(** [Array.isArray(v)] *)
Definition is_array (v : value) : bool :=
  match v with VArr _ => true | _ => false end.

(** [ToBoolean] *)
Definition truthy (v : value) : bool :=
  match v with
  | VNull => false
  | VBool b => b
  | VNum n => negb (n =? 0)%Z
  | VStr s => negb (s =? "")
  | VArr _ | VObj _ => true
  end.

Definition chars_of (s : string) : list value :=
  map (fun c => VStr (String c "")) (list_ascii_of_string s).

(** The own enumerable string-keyed properties of a value, in key order:
    what [Object.keys], [Object.entries], [for-in] and object spread see. *)
Definition entries_of (v : value) : list (string * value) :=
  match v with
  | VObj o => o
  | VArr l => index_entries l
  | VStr s => index_entries (chars_of s)
  | _ => []
  end.

Definition indexed_get (l : list value) (k : string) : option value :=
  match canonical_index k with
  | Some i => nth_error l (N.to_nat i)
  | None =>
      if k =? "length" then Some (VNum (Z.of_nat (List.length l))) else None
  end.

(** The own property [k] of [v]; [None] when [v] has no own property of that
    name.  It is what [v\[k\]] reads whenever [k] is an own property, which
    shadows the prototype chain. *)
Definition get_prop (v : value) (k : string) : option value :=
  match v with
  | VObj o => lookup k o
  | VArr l => indexed_get l k
  | VStr s => indexed_get (chars_of s) k
  | _ => None
  end.

(** [k] is an own property of [v]: [Object.prototype.hasOwnProperty]. *)
Definition has_prop (v : value) (k : string) : bool :=
  match get_prop v k with Some _ => true | None => false end.

(** ** The built-in prototypes

    Past the own properties, [v\[k\]] and [k in v] look for [k] along the
    prototype chain of [v].  For a JSON value the chain is made of built-in
    prototypes ([Object.prototype], [Array.prototype], ...), whose members
    differ between engines and editions of the language. *)
Inductive kind : Type := KObject | KArray | KString | KNumber | KBoolean.

(** [inherits E kd k]: a value of kind [kd] finds the name [k] on its
    prototype chain.  What is found there is a function or a prototype
    object, held by a writable data property, so that an assignment of the
    name to an object creates an own member; the one exception is
    [__proto__], an accessor. *)
Record prototypes : Type := { inherits : kind -> string -> bool }.

(** The kind of a value other than [null], which has no properties. *)
Definition kind_of (v : value) : kind :=
  match v with
  | VArr _ => KArray
  | VStr _ => KString
  | VNum _ => KNumber
  | VBool _ => KBoolean
  | _ => KObject
  end.

(** A result within the JSON values, or beyond them: a member of a built-in
    prototype (a function, a prototype object), a value that holds one, or a
    value computed after an object under construction was given another
    prototype. *)
Inductive modelled (A : Type) : Type :=
| Within (x : A)
| Beyond.
Arguments Within {A} x.
Arguments Beyond {A}.

(** [k in v], for an object or array [v]. *)
Definition has_in (E : prototypes) (v : value) (k : string) : bool :=
  has_prop v k || inherits E (kind_of v) k.

(** [v\[k\]], for a [v] other than [null]: the own property, else the
    inherited member, else [undefined]. *)
Definition get (E : prototypes) (v : value) (k : string)
  : modelled (option value) :=
  match get_prop v k with
  | Some x => Within (Some x)
  | None => if inherits E (kind_of v) k then Beyond else Within None
  end.

(** [acc\[k\] = v], on an object that was created with [Object.prototype] as
    prototype, reaches the [__proto__] accessor that Annex B of ECMA-262 puts
    on [Object.prototype]: the key is [__proto__], the name is inherited, and
    no own member shadows it. *)
Definition reaches_accessor (E : prototypes) (k : string)
    (acc : list (string * value)) : bool :=
  (k =? "__proto__") && inherits E KObject "__proto__" && negb (has_key k acc).

(** The own members after [acc\[k\] = v].  The accessor creates no member: it
    ignores a [v] that is not an object, and makes an object or [null] the
    prototype of [acc]. *)
Definition set_member (E : prototypes) (k : string) (v : value)
    (acc : list (string * value)) : list (string * value) :=
  if reaches_accessor E k acc then acc else obj_set k v acc.

(** [Object.assign(acc, source)], as to the own members of [acc]: one
    assignment for each own member of [source]. *)
Definition assign_members (E : prototypes) (acc es : list (string * value))
  : list (string * value) :=
  fold_left (fun acc kv => set_member E (fst kv) (snd kv) acc) es acc.

(** No own member of the name [__proto__] along the mappings of a value: the
    keys that [deepUpdate] assigns. *)
Fixpoint proto_free (v : value) : bool :=
  match v with
  | VObj o =>
      forallb (fun kv => negb (fst kv =? "__proto__") && proto_free (snd kv)) o
  | _ => true
  end.

(** ** The built-in codec: [JSON.stringify] and [JSON.parse] *)

Definition dquote : ascii := "034"%char.
Definition backslash : ascii := "092"%char.

Definition hex_char (n : N) : ascii :=
  match n with
  | 0 => "0" | 1 => "1" | 2 => "2" | 3 => "3" | 4 => "4" | 5 => "5"
  | 6 => "6" | 7 => "7" | 8 => "8" | 9 => "9" | 10 => "a" | 11 => "b"
  | 12 => "c" | 13 => "d" | 14 => "e" | _ => "f"
  end%N%char.

(** [QuoteJSONString], one code unit: the short escapes, [\u00xx] for the
    other control characters, the character itself otherwise. *)
Definition escape_char (c : ascii) : string :=
  match c with
  | "008" => String backslash "b"
  | "009" => String backslash "t"
  | "010" => String backslash "n"
  | "012" => String backslash "f"
  | "013" => String backslash "r"
  | "034" => String backslash (String dquote "")
  | "092" => String backslash (String backslash "")
  | _ =>
      let n := N_of_ascii c in
      if (n <? 32)%N then
        String backslash
          (String "u" (String "0" (String "0"
             (String (hex_char (n / 16)) (String (hex_char (n mod 16)) "")))))
      else String c ""
  end%char.

Fixpoint escape (s : string) : string :=
  match s with
  | EmptyString => EmptyString
  | String c s' => escape_char c +++ escape s'
  end.

Definition quote (s : string) : string :=
  String dquote (escape s +++ String dquote "").

(** [JSON.stringify(v)] without [replacer] and [space]: the compact text. *)
Fixpoint JSON_stringify (v : value) : string :=
  match v with
  | VNull => "null"
  | VBool true => "true"
  | VBool false => "false"
  | VNum n => print_Z n
  | VStr s => quote s
  | VArr l =>
      let fix items (l : list value) : string :=
        match l with
        | [] => ""
        | [x] => JSON_stringify x
        | x :: l' => JSON_stringify x +++ String "," (items l')
        end in
      String "[" (items l +++ "]")
  | VObj o =>
      let fix members (o : list (string * value)) : string :=
        match o with
        | [] => ""
        | [(k, x)] => quote k +++ String ":" (JSON_stringify x)
        | (k, x) :: o' =>
            quote k +++ String ":" (JSON_stringify x +++ String "," (members o'))
        end in
      String "{" (members o +++ "}")
  end.

Definition is_ws (c : ascii) : bool :=
  match c with
  | "009" | "010" | "013" | " " => true
  | _ => false
  end%char.

Fixpoint skip_ws (s : string) : string :=
  match s with
  | String c s' => if is_ws c then skip_ws s' else s
  | EmptyString => EmptyString
  end.

Definition hex_val (c : ascii) : option N :=
  let n := N_of_ascii c in
  if ((48 <=? n) && (n <=? 57))%N then Some (n - 48)%N
  else if ((97 <=? n) && (n <=? 102))%N then Some (n - 87)%N
  else if ((65 <=? n) && (n <=? 70))%N then Some (n - 55)%N
  else None.

(** The code unit of [\uXXXX]; [None] outside the modelled range 0..255. *)
Definition unicode_escape (a b c d : ascii) : option ascii :=
  match hex_val a, hex_val b, hex_val c, hex_val d with
  | Some 0%N, Some 0%N, Some h, Some l => Some (ascii_of_N (16 * h + l))
  | _, _, _, _ => None
  end.

(** The character a two-character escape stands for. *)
Definition simple_escape (e : ascii) : option ascii :=
  match e with
  | "034" => Some "034"
  | "092" => Some "092"
  | "/" => Some "/"
  | "b" => Some "008"
  | "f" => Some "012"
  | "n" => Some "010"
  | "r" => Some "013"
  | "t" => Some "009"
  | _ => None
  end%char.

(** [x] in front of the string a parser returns. *)
Definition cons_char {R : Type} (x : ascii) (res : option (string * R))
  : option (string * R) :=
  match res with
  | Some (t, r) => Some (String x t, r)
  | None => None
  end.

(** The characters of a JSON string literal after its opening quote, up to
    and including the closing quote. *)
Fixpoint parse_string_body (s : string) : option (string * string) :=
  match s with
  | EmptyString => None
  | String c r =>
      if Ascii.eqb c dquote then Some ("", r)
      else if Ascii.eqb c backslash then
        match r with
        | String e r1 =>
            if Ascii.eqb e "u" then
              match r1 with
              | String h1 (String h2 (String h3 (String h4 r2))) =>
                  match unicode_escape h1 h2 h3 h4 with
                  | Some x => cons_char x (parse_string_body r2)
                  | None => None
                  end
              | _ => None
              end
            else
              match simple_escape e with
              | Some x => cons_char x (parse_string_body r1)
              | None => None
              end
        | EmptyString => None
        end
      else if (N_of_ascii c <? 32)%N then None
      else cons_char c (parse_string_body r)
  end.

(** The longest prefix of decimal digits. *)
Fixpoint scan_uint (s : string) : Decimal.uint * string :=
  match s with
  | String c r =>
      if is_digit c then
        let (d, r') := scan_uint r in
        (match uint_of_char c (Some d) with
         | Some d' => d'
         | None => Decimal.Nil
         end, r')
      else (Decimal.Nil, s)
  | EmptyString => (Decimal.Nil, EmptyString)
  end.

(** A JSON number literal denoting an integer: an optional minus sign and a
    canonical decimal numeral.  A fraction or an exponent is outside the
    integer model and is not accepted. *)
Definition parse_number (s : string) : option (Z * string) :=
  let (neg, s1) :=
    match s with
    | String c r => if Ascii.eqb c "-" then (true, r) else (false, s)
    | EmptyString => (false, s)
    end in
  let (d, r) := scan_uint s1 in
  if canonical_uint d then
    let n := Z.of_N (N.of_uint d) in
    let ok :=
      match r with
      | String c _ =>
          negb (Ascii.eqb c "." || Ascii.eqb c "e" || Ascii.eqb c "E")
      | EmptyString => true
      end in
    if ok then Some (if neg then Z.opp n else n, r) else None
  else None.

(** [s] without the prefix [p], when it has it. *)
Fixpoint strip_prefix (p s : string) : option string :=
  match p with
  | EmptyString => Some s
  | String a p' =>
      match s with
      | String b s' => if Ascii.eqb a b then strip_prefix p' s' else None
      | EmptyString => None
      end
  end.

(** The rest of a keyword, for its value. *)
Definition keyword (rest : string) (v : value) (s : string)
  : option (value * string) :=
  match strip_prefix rest s with
  | Some r => Some (v, r)
  | None => None
  end.

(** Recursive descent over the JSON grammar, dispatching on the first
    character that is not white space.  [fuel] bounds the nesting of calls;
    [JSON_parse] supplies enough of it for any text. *)
Fixpoint parse_value (fuel : nat) (s : string) : option (value * string) :=
  match fuel with
  | O => None
  | S fuel' =>
      match skip_ws s with
      | EmptyString => None
      | String c r =>
          if Ascii.eqb c "n" then keyword "ull" VNull r
          else if Ascii.eqb c "t" then keyword "rue" (VBool true) r
          else if Ascii.eqb c "f" then keyword "alse" (VBool false) r
          else if Ascii.eqb c dquote then
            match parse_string_body r with
            | Some (t, r') => Some (VStr t, r')
            | None => None
            end
          else if Ascii.eqb c "[" then
            match strip_prefix "]" (skip_ws r) with
            | Some r' => Some (VArr [], r')
            | None =>
                match parse_elements fuel' r with
                | Some (l, r') => Some (VArr l, r')
                | None => None
                end
            end
          else if Ascii.eqb c "{" then
            match strip_prefix "}" (skip_ws r) with
            | Some r' => Some (VObj [], r')
            | None =>
                match parse_members fuel' r with
                | Some (ms, r') => Some (VObj (from_entries ms), r')
                | None => None
                end
            end
          else if is_digit c || Ascii.eqb c "-" then
            match parse_number (String c r) with
            | Some (n, r') => Some (VNum n, r')
            | None => None
            end
          else None
      end
  end

(** One or more values separated by commas, then the closing bracket. *)
with parse_elements (fuel : nat) (s : string)
  : option (list value * string) :=
  match fuel with
  | O => None
  | S fuel' =>
      match parse_value fuel' s with
      | Some (v, r) =>
          match strip_prefix "," (skip_ws r) with
          | Some r' =>
              match parse_elements fuel' r' with
              | Some (l, r'') => Some (v :: l, r'')
              | None => None
              end
          | None =>
              match strip_prefix "]" (skip_ws r) with
              | Some r' => Some ([v], r')
              | None => None
              end
          end
      | None => None
      end
  end

(** One or more [key : value] members separated by commas, then the closing
    brace. *)
with parse_members (fuel : nat) (s : string)
  : option (list (string * value) * string) :=
  match fuel with
  | O => None
  | S fuel' =>
      match strip_prefix (String dquote "") (skip_ws s) with
      | Some r =>
          match parse_string_body r with
          | Some (k, r1) =>
              match strip_prefix ":" (skip_ws r1) with
              | Some r2 =>
                  match parse_value fuel' r2 with
                  | Some (v, r3) =>
                      match strip_prefix "," (skip_ws r3) with
                      | Some r4 =>
                          match parse_members fuel' r4 with
                          | Some (ms, r5) => Some ((k, v) :: ms, r5)
                          | None => None
                          end
                      | None =>
                          match strip_prefix "}" (skip_ws r3) with
                          | Some r4 => Some ([(k, v)], r4)
                          | None => None
                          end
                      end
                  | None => None
                  end
              | None => None
              end
          | None => None
          end
      | None => None
      end
  end.

(** [JSON.parse(text)]: one value surrounded by optional white space;
    [None] is the [SyntaxError].  The fuel is never what makes the parse
    fail ([JSON_parse_fuel]). *)
Definition JSON_parse (text : string) : option value :=
  match parse_value (2 * String.length text + 2) text with
  | Some (v, r) =>
      match skip_ws r with
      | EmptyString => Some v
      | _ => None
      end
  | None => None
  end.

(** ** The service methods *)

(** The outcome of a call that may raise. *)
Inductive outcome (A : Type) : Type :=
| Returned (x : A)
| Thrown.
Arguments Returned {A} x.
Arguments Thrown {A}.

(** [stringify(data)], the optional [replacer] and [space] left out.  On a
    JSON value [JSON.stringify] neither raises nor yields [undefined]. *)
Definition stringify (data : value) : option string :=
  Some (JSON_stringify data).

(** [parse(json, defaultValue)] *)
Definition parse (json : string) (defaultValue : value) : value :=
  match JSON_parse json with
  | Some v => v
  | None => defaultValue
  end.

(** [deepCopy(data)]; [None] is the [undefined] of the [catch] branch. *)
Definition deepCopy (data : value) : option value :=
  JSON_parse (JSON_stringify data).

(** [equalJSON(obj1, obj2)] *)
Definition equalJSON (obj1 obj2 : value) : bool :=
  JSON_stringify obj1 =? JSON_stringify obj2.

(** [a === b].  Scalars compare by value.  Two objects are identical only as
    one reference, which a tree does not record: operands given as trees are
    taken to be distinct references.  For one and the same reference
    [deepEqualHelper] returns [true] at once; compared member by member an
    object equals itself as well ([deepEqualHelper_refl]), so that the
    answer is the same. *)
Definition strict_equals (a b : value) : bool :=
  match a, b with
  | VNull, VNull => true
  | VBool x, VBool y => Bool.eqb x y
  | VNum x, VNum y => (x =? y)%Z
  | VStr x, VStr y => x =? y
  | _, _ => false
  end.

(** [deepEqualHelper] of [deepEqualJSON].  [isObject] holds of arrays too, so
    an array met with a mapping is compared member by member under its index
    keys.  [a\[key\]] for [key] drawn from [Object.keys(a)] is the value of
    that member. *)
Fixpoint deepEqualHelper (a b : value) {struct a} : bool :=
  strict_equals a b ||
  match a, b with
  | VArr la, VArr lb =>
      (List.length la =? List.length lb)%nat &&
      (fix every (la lb : list value) : bool :=
         match la with
         | [] => true
         | item :: la' =>
             match lb with
             | y :: lb' => deepEqualHelper item y && every la' lb'
             | [] => false
             end
         end) la lb
  | VArr la, VObj _ =>
      let keysB := map fst (entries_of b) in
      (List.length la =? List.length keysB)%nat &&
      (fix every (i : N) (la : list value) : bool :=
         match la with
         | [] => true
         | item :: la' =>
             (existsb (String.eqb (print_N i)) keysB &&
              match get_prop b (print_N i) with
              | Some y => deepEqualHelper item y
              | None => false
              end) && every (N.succ i) la'
         end) 0%N la
  | VObj oa, (VArr _ | VObj _) =>
      let keysB := map fst (entries_of b) in
      (List.length oa =? List.length keysB)%nat &&
      (fix every (oa : list (string * value)) : bool :=
         match oa with
         | [] => true
         | (key, x) :: oa' =>
             (existsb (String.eqb key) keysB &&
              match get_prop b key with
              | Some y => deepEqualHelper x y
              | None => false
              end) && every oa'
         end) oa
  | _, _ => false
  end.

(** [deepEqualJSON(obj1, obj2)] *)
Definition deepEqualJSON (obj1 obj2 : value) : bool :=
  deepEqualHelper obj1 obj2.

Fixpoint drop_last (s : string) : string :=
  match s with
  | EmptyString => EmptyString
  | String c EmptyString => EmptyString
  | String c s' => String c (drop_last s')
  end.

(** [s.slice(1, -1)] *)
Definition slice_1_m1 (s : string) : string :=
  match s with
  | EmptyString => EmptyString
  | String _ s' => drop_last s'
  end.

(** [deepMerge(target, source)]: the two serialized texts, stripped of their
    first and last character, are joined by a comma inside one pair of braces
    and parsed; [target] comes back when the parse raises. *)
Definition deepMerge (target source : value) : value :=
  let targetClone := JSON_stringify target in
  let sourceClone := JSON_stringify source in
  match JSON_parse (String "{" (slice_1_m1 targetClone +++
                      String "," (slice_1_m1 sourceClone +++ "}"))) with
  | Some merged => merged
  | None => target
  end.

(** [{...v}] *)
Definition spread (v : value) : list (string * value) :=
  from_entries (entries_of v).

(** [x || {}] for the read [x] of [acc\[key\]], as the target of the nested
    call.  The read is taken among the own members: a member that [acc]
    inherits from a built-in prototype is a function or a prototype object,
    which is truthy and has no enumerable own member, so that the nested
    call spreads it to [{}], as it does the [{}] that stands in for
    [undefined]. *)
Definition or_empty (x : option value) : value :=
  match x with
  | Some v => if truthy v then v else VObj []
  | None => VObj []
  end.

(** [acc\[key\] = v] in the reduction of [deepUpdate].  An object handed to
    the [__proto__] accessor becomes the prototype of [acc], and the reads
    [acc\[key\]] that follow find its members: the result is [Beyond].
    [null] and the values that are not objects leave the own members and
    those reads as they are. *)
Definition update_member (E : prototypes) (key : string) (v : value)
    (acc : list (string * value)) : modelled (list (string * value)) :=
  if reaches_accessor E key acc && is_object v then Beyond
  else Within (set_member E key v acc).

(** [deepUpdate(target, updates)] with the depth of the call stack bounded by
    [depth]; running out of stack raises, and the [catch] returns [target].
    The [replacer] passes every JSON value through unchanged.
    [Object.keys(null)] raises. *)
Fixpoint deepUpdate_at (E : prototypes) (depth : nat) (target updates : value)
  : modelled value :=
  match depth with
  | O => Within target
  | S depth' =>
      match JSON_parse (JSON_stringify updates) with
      | None | Some VNull => Within target
      | Some parsedUpdates =>
          match
            fold_left
              (fun acc kv =>
                 let key := fst kv in
                 let value := snd kv in
                 match acc with
                 | Within members =>
                     if truthy value && is_object value
                        && negb (is_array value)
                     then
                       match deepUpdate_at E depth'
                               (or_empty (lookup key members)) value with
                       | Within updated => update_member E key updated members
                       | Beyond => Beyond
                       end
                     else update_member E key value members
                 | Beyond => Beyond
                 end)
              (entries_of parsedUpdates) (Within (spread target))
          with
          | Within members => Within (VObj members)
          | Beyond => Beyond
          end
      end
  end.

Fixpoint depth_of (v : value) : nat :=
  match v with
  | VArr l => S (fold_right (fun x d => Nat.max (depth_of x) d) 0 l)
  | VObj o => S (fold_right (fun kv d => Nat.max (depth_of (snd kv)) d) 0 o)
  | _ => 1
  end.

(** [deepUpdate(target, updates)]: the stack is as deep as [updates] needs. *)
Definition deepUpdate (E : prototypes) (target updates : value)
  : modelled value :=
  deepUpdate_at E (depth_of updates) target updates.

(** [findValueByKey(obj, key)].  [key in obj] raises a [TypeError] on a
    primitive; the method's type asks for an object.  [for-in] over an array
    visits its indices; the built-in prototypes have no enumerable member. *)
Fixpoint findValueByKey (E : prototypes) (obj : value) (key : string)
    {struct obj} : outcome (modelled (option value)) :=
  match obj with
  | VObj o =>
      if has_in E obj key then Returned (get E obj key)
      else
        (fix loop (ms : list (string * value))
           : outcome (modelled (option value)) :=
           match ms with
           | [] => Returned (Within None)
           | (_, x) :: ms' =>
               if is_object x then
                 match findValueByKey E x key with
                 | Returned (Within None) => loop ms'
                 | Returned result => Returned result
                 | Thrown => Thrown
                 end
               else loop ms'
           end) o
  | VArr l =>
      if has_in E obj key then Returned (get E obj key)
      else
        (fix loop (items : list value) : outcome (modelled (option value)) :=
           match items with
           | [] => Returned (Within None)
           | x :: items' =>
               if is_object x then
                 match findValueByKey E x key with
                 | Returned (Within None) => loop items'
                 | Returned result => Returned result
                 | Thrown => Thrown
                 end
               else loop items'
           end) l
  | _ => Thrown
  end.

(** [safeFindValueByKey(obj, key)]: the same search inside [try]; whatever is
    raised becomes [undefined]. *)
Fixpoint safeFindValueByKey (E : prototypes) (obj : value) (key : string)
    {struct obj} : modelled (option value) :=
  match obj with
  | VObj o =>
      if has_in E obj key then get E obj key
      else
        (fix loop (ms : list (string * value)) : modelled (option value) :=
           match ms with
           | [] => Within None
           | (_, x) :: ms' =>
               if is_object x then
                 match safeFindValueByKey E x key with
                 | Within None => loop ms'
                 | result => result
                 end
               else loop ms'
           end) o
  | VArr l =>
      if has_in E obj key then get E obj key
      else
        (fix loop (items : list value) : modelled (option value) :=
           match items with
           | [] => Within None
           | x :: items' =>
               if is_object x then
                 match safeFindValueByKey E x key with
                 | Within None => loop items'
                 | result => result
                 end
               else loop items'
           end) l
  | _ => Within None
  end.

(** [v != null && v !== ''] *)
Definition non_empty_value (v : value) : bool :=
  match v with
  | VNull => false
  | VStr s => negb (s =? "")
  | _ => true
  end.

(** [removeEmptyValues(obj)] *)
Definition removeEmptyValues (obj : value) : value :=
  if negb (is_object obj) then VObj []
  else VObj (from_entries
               (filter (fun kv => non_empty_value (snd kv)) (entries_of obj))).

(** [getByPath(obj, path)].  From a member of a built-in prototype the walk
    goes on through the host's objects: [Beyond]. *)
Definition getByPath (E : prototypes) (obj : value) (path : list string)
  : modelled (option value) :=
  if negb (is_object obj) then Within None
  else
    fold_left
      (fun acc key =>
         match acc with
         | Within (Some a) => if truthy a then get E a key else Within None
         | Within None => Within None
         | Beyond => Beyond
         end)
      path (Within (Some obj)).

(** [prefix ? `${prefix}.${key}` : key] *)
Definition newKey_of (prefix key : string) : string :=
  if prefix =? "" then key else prefix +++ String "." key.

(** [flattenObject(obj, prefix)].  The accumulator gets the key [__proto__]
    at most once, from a member at the top level whose value is not an
    object: the accessor creates no member, and no later assignment meets
    what it has done to the prototype. *)
Fixpoint flattenObject (E : prototypes) (obj : value) (prefix : string)
    {struct obj} : value :=
  match obj with
  | VObj o =>
      VObj ((fix reduce (ms : list (string * value))
               (acc : list (string * value)) : list (string * value) :=
               match ms with
               | [] => acc
               | (key, value) :: ms' =>
                   let newKey := newKey_of prefix key in
                   reduce ms'
                     (if is_object value
                      then assign_members E acc
                             (entries_of (flattenObject E value newKey))
                      else set_member E newKey value acc)
               end) o [])
  | VArr l =>
      VObj ((fix reduce (i : N) (items : list value)
               (acc : list (string * value)) : list (string * value) :=
               match items with
               | [] => acc
               | value :: items' =>
                   let newKey := newKey_of prefix (print_N i) in
                   reduce (N.succ i) items'
                     (if is_object value
                      then assign_members E acc
                             (entries_of (flattenObject E value newKey))
                      else set_member E newKey value acc)
               end) 0%N l [])
  | _ => VObj []
  end.

(** ** Reference notions the properties are stated with *)

(** Walking a key path from the left, stopping at the first step that
    fails: a step needs a truthy current value that has the key. *)
Fixpoint walk (E : prototypes) (cur : value) (path : list string)
  : modelled (option value) :=
  match path with
  | [] => Within (Some cur)
  | key :: path' =>
      if truthy cur then
        match get E cur key with
        | Within (Some next) => walk E next path'
        | Within None => Within None
        | Beyond => Beyond
        end
      else Within None
  end.




(** The values of the own enumerable members, in key order. *)
Definition children (v : value) : list value := map snd (entries_of v).

(** [nested_in obj node]: [node] is [obj] or lies below it along members
    and elements that are objects or arrays. *)
Inductive nested_in : value -> value -> Prop :=
| nested_here obj : nested_in obj obj
| nested_below obj x node :
    In x (children obj) -> is_object x = true -> nested_in x node ->
    nested_in obj node.

(** The leaves of a tree of objects and arrays, each with the sequence of
    keys that leads to it, in traversal order.  A leaf is a member that is
    neither an object nor an array. *)
Fixpoint leaves (v : value) : list (list string * value) :=
  match v with
  | VObj o =>
      (fix members (ms : list (string * value)) : list (list string * value) :=
         match ms with
         | [] => []
         | (key, x) :: ms' =>
             ((if is_object x
               then map (fun px => (key :: fst px, snd px)) (leaves x)
               else [([key], x)]) ++ members ms')%list
         end) o
  | VArr l =>
      (fix items (i : N) (xs : list value) : list (list string * value) :=
         match xs with
         | [] => []
         | x :: xs' =>
             ((if is_object x
               then map (fun px => (print_N i :: fst px, snd px)) (leaves x)
               else [([print_N i], x)]) ++ items (N.succ i) xs')%list
         end) 0%N l
  | _ => []
  end.

(** The dotted key of a path. *)
Definition dotted (path : list string) : string := String.concat "." path.

(** ** The operations as the specification words them

    These follow the prose of the specification, where only a mapping is
    descended into or stepped through; they are what the methods above are
    compared with. *)

(** [getByPath]: every step needs a mapping that has the key; the empty
    path yields the value itself. *)
Fixpoint getByPath_spec (obj : value) (path : list string) : option value :=
  match path with
  | [] => Some obj
  | key :: path' =>
      match obj with
      | VObj o =>
          match lookup key o with
          | Some next => getByPath_spec next path'
          | None => None
          end
      | _ => None
      end
  end.

(** [findFirstByKey]: the own value, else the first match among the members
    that are mappings. *)
Fixpoint findFirstByKey_spec (obj : value) (key : string) : option value :=
  match obj with
  | VObj o =>
      match lookup key o with
      | Some v => Some v
      | None =>
          (fix loop (ms : list (string * value)) : option value :=
             match ms with
             | [] => None
             | (_, x) :: ms' =>
                 match (if is_mapping x then findFirstByKey_spec x key
                        else None) with
                 | Some r => Some r
                 | None => loop ms'
                 end
             end) o
      end
  | _ => None
  end.

(** [flatten]: the leaves are the members that are not mappings, an array
    among them. *)
Fixpoint leaves_spec (v : value) : list (list string * value) :=
  match v with
  | VObj o =>
      (fix members (ms : list (string * value)) : list (list string * value) :=
         match ms with
         | [] => []
         | (key, x) :: ms' =>
             ((if is_mapping x
               then map (fun px => (key :: fst px, snd px)) (leaves_spec x)
               else [([key], x)]) ++ members ms')%list
         end) o
  | _ => []
  end.

Definition flatten_spec (obj : value) : value :=
  VObj (from_entries
          (map (fun px => (dotted (fst px), snd px)) (leaves_spec obj))).

(** [removeEmptyValues]: the members of a mapping that are neither [null]
    nor the empty string; the empty mapping for anything else. *)
Definition removeEmptyValues_spec (obj : value) : value :=
  match obj with
  | VObj o => VObj (filter (fun kv => non_empty_value (snd kv)) o)
  | _ => VObj []
  end.

(** ** Notions used in the proofs about the codec *)

Definition starts_with_digit (s : string) : bool :=
  match s with
  | String c _ => is_digit c
  | EmptyString => false
  end.

(** What may follow a number literal for it to be read back as printed. *)
Definition number_follow (rest : string) : bool :=
  match rest with
  | String c _ =>
      negb (is_digit c)
      && negb (Ascii.eqb c "." || Ascii.eqb c "e" || Ascii.eqb c "E")
  | EmptyString => true
  end.

(** ** The loops of the two searches, over the list of children *)

Fixpoint first_found (E : prototypes) (key : string) (xs : list value)
  : outcome (modelled (option value)) :=
  match xs with
  | [] => Returned (Within None)
  | x :: xs' =>
      if is_object x then
        match findValueByKey E x key with
        | Returned (Within None) => first_found E key xs'
        | Returned result => Returned result
        | Thrown => Thrown
        end
      else first_found E key xs'
  end.

Fixpoint safe_first_found (E : prototypes) (key : string) (xs : list value)
  : modelled (option value) :=
  match xs with
  | [] => Within None
  | x :: xs' =>
      if is_object x then
        match safeFindValueByKey E x key with
        | Within None => safe_first_found E key xs'
        | result => result
        end
      else safe_first_found E key xs'
  end.

(** What the search for [key] establishes at an object or array: the two
    variants agree; the result is [undefined] when no node below has the
    key, own or inherited; a value is the own value of the key at a node
    below; and a result beyond the JSON values comes from a node below that
    inherits the key. *)
Definition search_spec (E : prototypes) (key : string) (obj : value) : Prop :=
  is_object obj = true ->
  findValueByKey E obj key = Returned (safeFindValueByKey E obj key)
  /\ (safeFindValueByKey E obj key = Within None <->
      forall node, nested_in obj node -> has_in E node key = false)
  /\ (forall r, safeFindValueByKey E obj key = Within (Some r) ->
        exists node, nested_in obj node /\ get_prop node key = Some r)
  /\ (safeFindValueByKey E obj key = Beyond ->
      exists node, nested_in obj node /\ get_prop node key = None
                   /\ inherits E (kind_of node) key = true).

(** A tree all of whose nodes are mappings and scalars. *)
Fixpoint no_array (v : value) : bool :=
  match v with
  | VArr _ => false
  | VObj o => forallb (fun kv => no_array (snd kv)) o
  | _ => true
  end.

(** ** The reduction of [flattenObject], over the list of entries *)

Fixpoint flatten_members (E : prototypes) (prefix : string)
    (ms : list (string * value)) (acc : list (string * value))
  : list (string * value) :=
  match ms with
  | [] => acc
  | (key, value) :: ms' =>
      flatten_members E prefix ms'
        (if is_object value
         then assign_members E acc
                (entries_of (flattenObject E value (newKey_of prefix key)))
         else set_member E (newKey_of prefix key) value acc)
  end.

Definition leaves_members (ms : list (string * value))
  : list (list string * value) :=
  flat_map
    (fun kv =>
       if is_object (snd kv)
       then map (fun px => (fst kv :: fst px, snd px)) (leaves (snd kv))
       else [([fst kv], snd kv)]) ms.

(** The key [flattenObject] gives a path below [prefix]. *)
Definition path_key (prefix : string) (path : list string) : string :=
  fold_left newKey_of path prefix.

Definition keyed (prefix : string) (ls : list (list string * value))
  : list (string * value) :=
  map (fun px => (path_key prefix (fst px), snd px)) ls.

(** No object or array sits at the top level under the empty key. *)
Definition top_branches_named (obj : value) : bool :=
  forallb (fun kv => negb (is_object (snd kv) && (fst kv =? "")))
    (entries_of obj).

(** ** The loops of [deepEqualHelper] *)

(** Both operands arrays of one length: element by element. *)
Fixpoint every_item (la lb : list value) : bool :=
  match la with
  | [] => true
  | item :: la' =>
      match lb with
      | y :: lb' => deepEqualHelper item y && every_item la' lb'
      | [] => false
      end
  end.

(** Both operands objects, not both arrays: every own member of the first
    is a key of [b] with an equal value. *)
Definition every_member (b : value) (ea : list (string * value)) : bool :=
  forallb
    (fun kx =>
       existsb (String.eqb (fst kx)) (map fst (entries_of b))
       && match get_prop b (fst kx) with
          | Some y => deepEqualHelper (snd kx) y
          | None => false
          end) ea.

(** ** The loops of [JSON_stringify], and what parsing its text takes *)

Fixpoint print_items (l : list value) : string :=
  match l with
  | [] => ""
  | [x] => JSON_stringify x
  | x :: l' => JSON_stringify x +++ String "," (print_items l')
  end.

Fixpoint print_members (o : list (string * value)) : string :=
  match o with
  | [] => ""
  | [(k, x)] => quote k +++ String ":" (JSON_stringify x)
  | (k, x) :: o' =>
      quote k +++ String ":" (JSON_stringify x +++ String "," (print_members o'))
  end.

(** Fuel that suffices to parse the text of a value back. *)
Fixpoint weight (v : value) : nat :=
  match v with
  | VArr l => S (fold_right (fun x n => S (weight x + n)) 0 l)
  | VObj o => S (fold_right (fun kv n => S (weight (snd kv) + n)) 0 o)
  | _ => 1
  end.

Definition items_weight (l : list value) : nat :=
  fold_right (fun x n => S (weight x + n)) 0 l.

Definition members_weight (o : list (string * value)) : nat :=
  fold_right (fun kv n => S (weight (snd kv) + n)) 0 o.

(** The first character of the text of a value. *)
Definition value_head (s : string) : bool :=
  match s with
  | String c _ =>
      is_digit c
      || existsb (Ascii.eqb c) ["034"; "-"; "["; "{"; "n"; "t"; "f"]%char
  | EmptyString => false
  end.

(** The text of [v], followed by anything a number may be followed by, is
    parsed back to [v] with fuel [weight v] or more. *)
Definition reads_back (v : value) : Prop :=
  wf_value v = true ->
  forall fuel rest,
    weight v <= fuel -> number_follow rest = true ->
    parse_value fuel (JSON_stringify v +++ rest) = Some (v, rest).

(** ** [deepUpdate] where every assignment creates or replaces a member

    What [deepUpdate] computes when no assignment meets the key
    [__proto__]: on [updates] that are free of it ([deepUpdate_proto_free]). *)
Fixpoint deepUpdate_own_at (depth : nat) (target updates : value) : value :=
  match depth with
  | O => target
  | S depth' =>
      match JSON_parse (JSON_stringify updates) with
      | None | Some VNull => target
      | Some parsedUpdates =>
          VObj (fold_left
                  (fun acc kv =>
                     let key := fst kv in
                     let value := snd kv in
                     if truthy value && is_object value
                        && negb (is_array value)
                     then obj_set key
                            (deepUpdate_own_at depth'
                               (or_empty (lookup key acc)) value) acc
                     else obj_set key value acc)
                  (entries_of parsedUpdates) (spread target))
      end
  end.

Definition deepUpdate_own (target updates : value) : value :=
  deepUpdate_own_at (depth_of updates) target updates.

(** The callback of the [reduce], at stack depth [depth]. *)
Definition update_step (depth : nat) (acc : list (string * value))
    (kv : string * value) : list (string * value) :=
  let key := fst kv in
  let value := snd kv in
  if truthy value && is_object value && negb (is_array value)
  then obj_set key (deepUpdate_own_at depth (or_empty (lookup key acc)) value)
         acc
  else obj_set key value acc.

(** The same callback of [deepUpdate] itself. *)
Definition update_step_in (E : prototypes) (depth : nat)
    (acc : modelled (list (string * value))) (kv : string * value)
  : modelled (list (string * value)) :=
  let key := fst kv in
  let value := snd kv in
  match acc with
  | Within members =>
      if truthy value && is_object value && negb (is_array value)
      then
        match deepUpdate_at E depth (or_empty (lookup key members)) value with
        | Within updated => update_member E key updated members
        | Beyond => Beyond
        end
      else update_member E key value members
  | Beyond => Beyond
  end.

(** A [__proto__] key is dropped by the assignments that build a result. *)
Definition dropped (E : prototypes) (k : string) : bool :=
  (k =? "__proto__") && inherits E KObject "__proto__".

(** ** An environment for the examples

    The members of [Object.prototype] that ECMA-262 lists, Annex B included,
    which every value inherits, and some of the methods of
    [Array.prototype] and [String.prototype]. *)
Definition Object_prototype_names : list string :=
  ["constructor"; "hasOwnProperty"; "isPrototypeOf"; "propertyIsEnumerable";
   "toLocaleString"; "toString"; "valueOf"; "__proto__"; "__defineGetter__";
   "__defineSetter__"; "__lookupGetter__"; "__lookupSetter__"].

Definition sample_prototypes : prototypes :=
  {| inherits := fun kd k =>
       existsb (String.eqb k) Object_prototype_names
       || match kd with
          | KArray => existsb (String.eqb k)
                        ["concat"; "filter"; "forEach"; "indexOf"; "join";
                         "map"; "pop"; "push"; "reduce"; "slice"]
          | KString => existsb (String.eqb k)
                         ["charAt"; "concat"; "indexOf"; "slice"; "split";
                          "trim"]
          | _ => false
          end |}.

(** ** Values with identity

    [mergeUniqueByKey] compares property values with [===], which tells two
    objects apart by reference.  Here a value is a scalar or a reference into
    a store of arrays and objects. *)

Module Refs.

Definition loc := nat.

Inductive rvalue : Type :=
| RNull
| RBool (b : bool)
| RNum (n : Z)
| RStr (s : string)
| RRef (l : loc).

Inductive cell : Type :=
| CArr (items : list rvalue)
| CObj (members : list (string * rvalue)).

Definition store := loc -> option cell.

(** [ToBoolean] *)
Definition truthy (v : rvalue) : bool :=
  match v with
  | RNull => false
  | RBool b => b
  | RNum n => negb (n =? 0)%Z
  | RStr s => negb (s =? "")
  | RRef _ => true
  end.

(** [a === b] *)
Definition strict_equals (a b : rvalue) : bool :=
  match a, b with
  | RNull, RNull => true
  | RBool x, RBool y => Bool.eqb x y
  | RNum x, RNum y => (x =? y)%Z
  | RStr x, RStr y => x =? y
  | RRef x, RRef y => (x =? y)%nat
  | _, _ => false
  end.

Definition indexed_get (l : list rvalue) (k : string) : option rvalue :=
  match canonical_index k with
  | Some i => nth_error l (N.to_nat i)
  | None =>
      if k =? "length" then Some (RNum (Z.of_nat (List.length l))) else None
  end.

Definition chars_of (s : string) : list rvalue :=
  map (fun c => RStr (String c "")) (list_ascii_of_string s).

(** [v\[k\]] on own properties; [None] is [undefined]. *)
Definition get_prop (h : store) (v : rvalue) (k : string) : option rvalue :=
  match v with
  | RRef l =>
      match h l with
      | Some (CObj ms) => lookup k ms
      | Some (CArr xs) => indexed_get xs k
      | None => None
      end
  | RStr s => indexed_get (chars_of s) k
  | _ => None
  end.

(** [k] is an own property of [v]. *)
Definition has_own (h : store) (v : rvalue) (k : string) : bool :=
  match get_prop h v k with Some _ => true | None => false end.

(** The object [v] has an own member named [hasOwnProperty], which shadows
    the method of [Object.prototype]. *)
Definition shadows_method (h : store) (v : rvalue) : bool :=
  match v with
  | RRef l =>
      match h l with
      | Some (CObj ms) => has_key "hasOwnProperty" ms
      | _ => false
      end
  | _ => false
  end.

(** [v.hasOwnProperty(k)], for a [v] other than [null].  The method is looked
    up on [v]; an own member of that name is a value of the store, none of
    which is a function: calling it raises a [TypeError]. *)
Definition hasOwnProperty (h : store) (v : rvalue) (k : string)
  : outcome bool :=
  if shadows_method h v then Thrown else Returned (has_own h v k).

(** [x === y] for two property reads. *)
Definition same_read (x y : option rvalue) : bool :=
  match x, y with
  | Some a, Some b => strict_equals a b
  | None, None => true
  | _, _ => false
  end.

(** [Array.prototype.flat()], depth 1. *)
Definition flat (h : store) (xs : list rvalue) : list rvalue :=
  flat_map
    (fun x =>
       match x with
       | RRef l =>
           match h l with
           | Some (CArr ys) => ys
           | _ => [x]
           end
       | _ => [x]
       end) xs.

(** The callback of the [reduce] in [mergeUniqueByKey]; nothing catches what
    it raises. *)
Definition step (h : store) (key : string) (acc : outcome (list rvalue))
    (obj : rvalue) : outcome (list rvalue) :=
  match acc with
  | Returned items =>
      if truthy obj then
        match hasOwnProperty h obj key with
        | Returned true =>
            if existsb
                 (fun item => same_read (get_prop h item key)
                                (get_prop h obj key)) items
            then Returned items
            else Returned (items ++ [obj])%list
        | Returned false => Returned items
        | Thrown => Thrown
        end
      else Returned items
  | Thrown => Thrown
  end.

(** [mergeUniqueByKey(arrays, key)]; the result is the content of the new
    array. *)
Definition mergeUniqueByKey (h : store) (arrays : rvalue) (key : string)
  : outcome (list rvalue) :=
  match arrays with
  | RRef l =>
      match h l with
      | Some (CArr xs) => fold_left (step h key) (flat h xs) (Returned [])
      | _ => Returned []
      end
  | _ => Returned []
  end.

(** What the callback does with [obj] when the call of [hasOwnProperty]
    returns. *)
Definition retain (h : store) (key : string) (acc : list rvalue) (obj : rvalue)
  : list rvalue :=
  if truthy obj && has_own h obj key
     && negb (existsb
                (fun item => same_read (get_prop h item key)
                               (get_prop h obj key)) acc)
  then (acc ++ [obj])%list
  else acc.

(** The tree a value of the store unfolds to, through at most [fuel]
    references. *)
Fixpoint reify (fuel : nat) (h : store) (v : rvalue) : option value :=
  match v with
  | RNull => Some VNull
  | RBool b => Some (VBool b)
  | RNum n => Some (VNum n)
  | RStr s => Some (VStr s)
  | RRef l =>
      match fuel with
      | O => None
      | S fuel' =>
          match h l with
          | Some (CArr xs) =>
              option_map VArr
                (fold_right
                   (fun x acc =>
                      match reify fuel' h x, acc with
                      | Some t, Some ts => Some (t :: ts)
                      | _, _ => None
                      end) (Some []) xs)
          | Some (CObj ms) =>
              option_map VObj
                (fold_right
                   (fun kx acc =>
                      match reify fuel' h (snd kx), acc with
                      | Some t, Some ts => Some ((fst kx, t) :: ts)
                      | _, _ => None
                      end) (Some []) ms)
          | None => None
          end
      end
  end.

(** An element that the reduction can retain. *)
Definition eligible (h : store) (key : string) (obj : rvalue) : bool :=
  truthy obj && has_own h obj key.

(** The elements that are the first, in encounter order, to carry their
    value of [key]: [x] is kept when no element before it, kept or not,
    is eligible with the same value. *)
Fixpoint first_occurrences (h : store) (key : string)
    (earlier rest : list rvalue) : list rvalue :=
  match rest with
  | [] => []
  | x :: rest' =>
      ((if eligible h key x
           && negb (existsb
                      (fun y => eligible h key y
                                && same_read (get_prop h y key)
                                     (get_prop h x key)) earlier)
        then [x] else [])
       ++ first_occurrences h key (earlier ++ [x]) rest')%list
  end.

(** The elements the reduction runs over: the flattened input, nothing when
    [arrays] is not an array. *)
Definition input_elements (h : store) (arrays : rvalue) : list rvalue :=
  match arrays with
  | RRef l =>
      match h l with
      | Some (CArr xs) => flat h xs
      | _ => []
      end
  | _ => []
  end.

(** A store for the example of the specification:
    [\[\[{id:1,n:"A"},{id:2,n:"B"}\],\[{id:2,n:"B2"},{id:3,n:"C"}\]\]]
    at location 0. *)
Definition records_store : store :=
  fun l =>
    match l with
    | 0 => Some (CArr [RRef 1; RRef 2])
    | 1 => Some (CArr [RRef 10; RRef 11])
    | 2 => Some (CArr [RRef 12; RRef 13])
    | 10 => Some (CObj [("id", RNum 1); ("n", RStr "A")])
    | 11 => Some (CObj [("id", RNum 2); ("n", RStr "B")])
    | 12 => Some (CObj [("id", RNum 2); ("n", RStr "B2")])
    | 13 => Some (CObj [("id", RNum 3); ("n", RStr "C")])
    | _ => None
    end.

(** A store with [\[\[{id:\[1,2\]},{id:\[1,2\]}\]\]] at location 0: the two
    arrays under [id] are equal in content and distinct as objects. *)
Definition compound_keys_store : store :=
  fun l =>
    match l with
    | 0 => Some (CArr [RRef 1])
    | 1 => Some (CArr [RRef 10; RRef 11])
    | 10 => Some (CObj [("id", RRef 20)])
    | 11 => Some (CObj [("id", RRef 21)])
    | 20 => Some (CArr [RNum 1; RNum 2])
    | 21 => Some (CArr [RNum 1; RNum 2])
    | _ => None
    end.

End Refs.

(** ** The other methods of the service *)

(** [isValidJSON(jsonString)]: the empty string is falsy and is refused
    before any parsing. *)
Definition isValidJSON (jsonString : string) : bool :=
  if jsonString =? "" then false
  else
    match JSON_parse jsonString with
    | Some _ => true
    | None => false
    end.

(** What the [__proto__] accessor does with the value that [parsedObj] has
    under [__proto__]: [null], or an object with an own member [__proto__],
    becomes a prototype through which the key [__proto__] no longer reaches
    the accessor; with any other value, and with the prototype that the
    accessor reads when [parsedObj] has no own member of the name, the key
    goes on reaching it. *)
Definition keeps_accessor (parsedObj : value) : bool :=
  match get_prop parsedObj "__proto__" with
  | Some VNull => false
  | Some (VObj p) => negb (has_key "__proto__" p)
  | _ => true
  end.

(** The callback of the [reduce] in [filterKeys].  The accumulator is [{}]
    at first; with its own members goes [live]: the key [__proto__] still
    reaches the accessor.  The accessor creates no member.  Once the key no
    longer reaches it, another assignment of the key is [Beyond].  A member
    inherited from a built-in prototype, other than through the accessor, is
    a function: an accumulator that holds one is [Beyond]. *)
Definition filter_step (E : prototypes) (parsedObj : value)
    (acc : modelled (bool * list (string * value))) (key : string)
  : modelled (bool * list (string * value)) :=
  match acc with
  | Within (live, members) =>
      if has_in E parsedObj key then
        if reaches_accessor E key members then
          if live then Within (keeps_accessor parsedObj, members) else Beyond
        else
          match get E parsedObj key with
          | Within (Some x) => Within (live, obj_set key x members)
          | _ => Beyond
          end
      else acc
  | Beyond => Beyond
  end.

(** [filterKeys(obj, allowedKeys)].  The [replacer] drops functions only and
    passes every JSON value through.  [key in parsedObj] raises on a
    primitive, and with no key to look at the initial [{}] is the result:
    the [catch] and the empty [reduce] both give [{}]. *)
Definition filterKeys (E : prototypes) (obj : value)
    (allowedKeys : list string) : modelled value :=
  match JSON_parse (JSON_stringify obj) with
  | None => Within (VObj [])
  | Some parsedObj =>
      if is_object parsedObj then
        match fold_left (filter_step E parsedObj) allowedKeys
                (Within (true, [])) with
        | Within (_, members) => Within (VObj members)
        | Beyond => Beyond
        end
      else Within (VObj [])
  end.

(** *** Maps

    A [Map] is the list of its entries in insertion order, the keys pairwise
    distinct.  The keys taken here are the scalars, which [SameValueZero]
    compares by value. *)
Inductive scalar : Type :=
| SNull
| SBool (b : bool)
| SNum (n : Z)
| SStr (s : string).

Definition scalar_eqb (a b : scalar) : bool :=
  match a, b with
  | SNull, SNull => true
  | SBool x, SBool y => Bool.eqb x y
  | SNum x, SNum y => (x =? y)%Z
  | SStr x, SStr y => x =? y
  | _, _ => false
  end.

(** [String(key)] *)
Definition String_of (key : scalar) : string :=
  match key with
  | SNull => "null"
  | SBool true => "true"
  | SBool false => "false"
  | SNum n => print_Z n
  | SStr s => s
  end.

Definition js_map : Type := list (scalar * value).

(** [map.get(key)] *)
Fixpoint map_get (key : scalar) (m : js_map) : option value :=
  match m with
  | [] => None
  | (k, v) :: m' => if scalar_eqb k key then Some v else map_get key m'
  end.

(** [map.set(key, value)]: an existing entry keeps its place. *)
Fixpoint map_set (key : scalar) (v : value) (m : js_map) : js_map :=
  match m with
  | [] => [(key, v)]
  | (k, v') :: m' =>
      if scalar_eqb k key then (k, v) :: m' else (k, v') :: map_set key v m'
  end.


(** [mapToJSON(map)].  The keys of a [Map] are distinct and [__proto__] is
    the string of one key only, the string itself: the assignments reach
    the accessor at most once, and it creates no member. *)
Definition mapToJSON (E : prototypes) (map : js_map) : value :=
  VObj (fold_left
          (fun obj kv => set_member E (String_of (fst kv)) (snd kv) obj)
          map []).

(** [jsonToMap(json)]: [new Map(Object.entries(json))] for a mapping, the
    empty [Map] for anything else. *)
Definition jsonToMap (json : value) : js_map :=
  if truthy json && is_object json && negb (is_array json) then
    fold_left (fun m kv => map_set (SStr (fst kv)) (snd kv) m)
      (entries_of json) []
  else [].

(** *** Values with [undefined]

    [removeUndefined] is about values that hold [undefined], which the JSON
    domain lacks. *)
Unset Elimination Schemes.
Inductive jsvalue : Type :=
| JUndefined
| JNull
| JBool (b : bool)
| JNum (n : Z)
| JStr (s : string)
| JArr (items : list jsvalue)
| JObj (members : list (string * jsvalue)).
Set Elimination Schemes.

Fixpoint jsvalue_ind (P : jsvalue -> Prop)
    (HUndefined : P JUndefined)
    (HNull : P JNull)
    (HBool : forall b, P (JBool b))
    (HNum : forall n, P (JNum n))
    (HStr : forall s, P (JStr s))
    (HArr : forall l, Forall P l -> P (JArr l))
    (HObj : forall o, Forall (fun kv => P (snd kv)) o -> P (JObj o))
    (v : jsvalue) {struct v} : P v :=
  let rec := jsvalue_ind P HUndefined HNull HBool HNum HStr HArr HObj in
  match v with
  | JUndefined => HUndefined
  | JNull => HNull
  | JBool b => HBool b
  | JNum n => HNum n
  | JStr s => HStr s
  | JArr l =>
      HArr l ((fix items (l : list jsvalue) : Forall P l :=
                 match l with
                 | [] => Forall_nil _
                 | x :: l' => Forall_cons x (rec x) (items l')
                 end) l)
  | JObj o =>
      HObj o ((fix members (o : list (string * jsvalue))
                 : Forall (fun kv => P (snd kv)) o :=
                 match o with
                 | [] => Forall_nil _
                 | kv :: o' =>
                     Forall_cons (P := fun kv => P (snd kv)) kv
                       (rec (snd kv)) (members o')
                 end) o)
  end.

(** A JSON value as a value of the larger domain. *)
Fixpoint inject (v : value) : jsvalue :=
  match v with
  | VNull => JNull
  | VBool b => JBool b
  | VNum n => JNum n
  | VStr s => JStr s
  | VArr l => JArr (map inject l)
  | VObj o => JObj (map (fun kv => (fst kv, inject (snd kv))) o)
  end.

(** What [JSON.stringify] serializes of a value: nothing for [undefined]
    itself, [null] in place of an [undefined] element of an array, and no
    member for an [undefined] member of an object. *)
Fixpoint serialized (v : jsvalue) : option value :=
  match v with
  | JUndefined => None
  | JNull => Some VNull
  | JBool b => Some (VBool b)
  | JNum n => Some (VNum n)
  | JStr s => Some (VStr s)
  | JArr l =>
      Some (VArr (map (fun x =>
                         match serialized x with
                         | Some y => y
                         | None => VNull
                         end) l))
  | JObj o =>
      Some (VObj ((fix members (o : list (string * jsvalue))
                     : list (string * value) :=
                     match o with
                     | [] => []
                     | (k, x) :: o' =>
                         match serialized x with
                         | Some y => (k, y) :: members o'
                         | None => members o'
                         end
                     end) o))
  end.

(** [removeUndefined(obj)].  The [replacer] returns every value as it is.
    [JSON.stringify(undefined)] is [undefined], on which [JSON.parse]
    raises; the [catch] returns [obj]. *)
Definition removeUndefined (obj : jsvalue) : jsvalue :=
  match serialized obj with
  | Some v =>
      match JSON_parse (JSON_stringify v) with
      | Some parsed => inject parsed
      | None => obj
      end
  | None => obj
  end.

(** [undefined] occurs in the value. *)
Fixpoint holds_undefined (v : jsvalue) : bool :=
  match v with
  | JUndefined => true
  | JArr l => existsb holds_undefined l
  | JObj o => existsb (fun kv => holds_undefined (snd kv)) o
  | _ => false
  end.

(** The values of the larger domain a program can hold. *)
Fixpoint wf_jsvalue (v : jsvalue) : bool :=
  match v with
  | JArr l => forallb wf_jsvalue l
  | JObj o =>
      keys_ordered (map fst o) && forallb (fun kv => wf_jsvalue (snd kv)) o
  | _ => true
  end.

(** The members a [Map] gives to [mapToJSON], and the entries a mapping
    gives to [new Map]. *)
Definition keyed_by_string (m : js_map) : list (string * value) :=
  map (fun kv => (String_of (fst kv), snd kv)) m.

Definition string_keyed (o : list (string * value)) : js_map :=
  map (fun kv => (SStr (fst kv), snd kv)) o.

(** The members of an object that [JSON.stringify] serializes. *)
Definition kept_members (o : list (string * jsvalue)) : list (string * value) :=
  flat_map
    (fun kv =>
       match serialized (snd kv) with
       | Some y => [(fst kv, y)]
       | None => []
       end) o.

Definition is_undefined (v : jsvalue) : bool :=
  match v with JUndefined => true | _ => false end.

(** The members that [filterKeys] takes from [obj] for the allowed keys, in
    the order of the keys. *)
Definition picked (E : prototypes) (obj : value) (ks : list string)
  : list (string * value) :=
  flat_map
    (fun k =>
       match get_prop obj k with
       | Some x => if dropped E k then [] else [(k, x)]
       | None => []
       end) ks.

(** The key [__proto__] does no harm in a reduction of [filterKeys] over
    [ks]: it creates members like any key, or the accessor goes on being
    reached, or the key comes once. *)
Definition accessor_in_reach (E : prototypes) (obj : value) (live : bool)
    (ks : list string) : Prop :=
  (forall k, In k ks -> dropped E k = false)
  \/ (keeps_accessor obj = true /\ live = true)
  \/ (NoDup ks /\ live = true).

(** ** [uniqueValuesByKey], over values with identity *)

Module Unique.
Import Refs.

(** [key in item], past the own properties of the object [item]. *)
Definition inherited_by (E : prototypes) (h : store) (item : rvalue)
    (key : string) : bool :=
  match item with
  | RRef l =>
      match h l with
      | Some (CObj _) => inherits E KObject key
      | Some (CArr _) => inherits E KArray key
      | None => false
      end
  | _ => false
  end.

(** [item && key in item ? item\[key\] : undefined].  [key in item] raises a
    [TypeError] when [item] is a truthy primitive. *)
Definition read_key (E : prototypes) (h : store) (key : string) (item : rvalue)
  : outcome (modelled (option rvalue)) :=
  if truthy item then
    match item with
    | RRef _ =>
        match get_prop h item key with
        | Some x => Returned (Within (Some x))
        | None =>
            if inherited_by E h item key then Returned Beyond
            else Returned (Within None)
        end
    | _ => Thrown
    end
  else Returned (Within None).

(** [arr.map(f)] for a callback that may raise. *)
Fixpoint map_raising {A B : Type} (f : A -> outcome B) (xs : list A)
  : outcome (list B) :=
  match xs with
  | [] => Returned []
  | x :: xs' =>
      match f x with
      | Returned y =>
          match map_raising f xs' with
          | Returned ys => Returned (y :: ys)
          | Thrown => Thrown
          end
      | Thrown => Thrown
      end
  end.

(** [Array.from(new Set(values))]: each value is added unless the set has
    it already; the set keeps insertion order. *)
Definition set_add (seen : list (option rvalue)) (x : option rvalue)
  : list (option rvalue) :=
  if existsb (same_read x) seen then seen else (seen ++ [x])%list.

Definition set_of (values : list (option rvalue)) : list (option rvalue) :=
  fold_left set_add values [].

(** The values of a list of reads, when all are within the JSON values. *)
Fixpoint all_within {A : Type} (reads : list (modelled A)) : modelled (list A) :=
  match reads with
  | [] => Within []
  | Within x :: reads' =>
      match all_within reads' with
      | Within xs => Within (x :: xs)
      | Beyond => Beyond
      end
  | Beyond :: _ => Beyond
  end.

(** [uniqueValuesByKey(arr, key)]; [None] in the result is [undefined]. *)
Definition uniqueValuesByKey (E : prototypes) (h : store) (arr : rvalue)
    (key : string) : outcome (modelled (list (option rvalue))) :=
  match arr with
  | RRef l =>
      match h l with
      | Some (CArr xs) =>
          match map_raising (read_key E h key) xs with
          | Returned reads =>
              match all_within reads with
              | Within values => Returned (Within (set_of values))
              | Beyond => Returned Beyond
              end
          | Thrown => Thrown
          end
      | _ => Returned (Within [])
      end
  | _ => Returned (Within [])
  end.

(** The elements of [arr] when it is an array. *)
Definition array_items (h : store) (arr : rvalue) : list rvalue :=
  match arr with
  | RRef l =>
      match h l with
      | Some (CArr xs) => xs
      | _ => []
      end
  | _ => []
  end.

(** A truthy primitive, on which [key in item] raises. *)
Definition raises (item : rvalue) : bool :=
  truthy item && match item with RRef _ => false | _ => true end.

(** An element that is an object (not an array), or falsy. *)
Definition record_or_falsy (h : store) (x : rvalue) : bool :=
  match x with
  | RRef l =>
      match h l with
      | Some (CObj _) => true
      | _ => false
      end
  | _ => negb (truthy x)
  end.

End Unique.

(** * Verification *)

Local Open Scope list_scope.

(** ** Strings *)

Lemma append_nil_r (s : string) : s +++ "" = s.
Proof. induction s; simpl; congruence. Qed.

Lemma append_assoc (a b c : string) : (a +++ b) +++ c = a +++ (b +++ c).
Proof. induction a; simpl; congruence. Qed.

Lemma length_append (a b : string) :
  String.length (a +++ b) = String.length a + String.length b.
Proof. induction a; simpl; congruence. Qed.


(** ** Numerals and index keys *)

Lemma scan_uint_printed (d : Decimal.uint) (rest : string) :
  starts_with_digit rest = false ->
  scan_uint (NilEmpty.string_of_uint d +++ rest) = (d, rest).
Proof.
  intros Hrest. induction d; simpl;
    try (rewrite IHd; reflexivity).
  destruct rest as [|c rest]; [reflexivity|].
  simpl in Hrest. simpl. now rewrite Hrest.
Qed.

Lemma canonical_unorm (d : Decimal.uint) : canonical_uint (Decimal.unorm d) = true.
Proof.
  unfold Decimal.unorm.
  pose proof (nzhead_nonzero d) as Hnz.
  destruct (Decimal.nzhead d) eqn:E; try reflexivity.
  exfalso. eapply Hnz. reflexivity.
Qed.

Lemma to_uint_normal (n : N) : Decimal.unorm (N.to_uint n) = N.to_uint n.
Proof.
  rewrite <- DecimalN.Unsigned.to_of. now rewrite DecimalN.Unsigned.of_to.
Qed.

Lemma canonical_to_uint (n : N) : canonical_uint (N.to_uint n) = true.
Proof. rewrite <- to_uint_normal. apply canonical_unorm. Qed.

Lemma canonical_is_normal (d : Decimal.uint) :
  canonical_uint d = true -> Decimal.unorm d = d.
Proof.
  destruct d; simpl; try reflexivity; try discriminate.
  destruct d; simpl; try reflexivity; discriminate.
Qed.

Lemma canonical_index_print (i : N) : canonical_index (print_N i) = Some i.
Proof.
  unfold canonical_index, print_N.
  rewrite NilEmpty.usu, canonical_to_uint.
  now rewrite DecimalN.Unsigned.of_to.
Qed.

Lemma canonical_index_inv (k : string) (n : N) :
  canonical_index k = Some n -> k = print_N n.
Proof.
  unfold canonical_index, print_N.
  destruct (NilEmpty.uint_of_string k) as [d|] eqn:E; [|discriminate].
  destruct (canonical_uint d) eqn:C; [|discriminate].
  intros [= <-]. rewrite DecimalN.Unsigned.to_of, (canonical_is_normal _ C).
  symmetry. now apply NilEmpty.sus.
Qed.

Lemma print_N_inj (a b : N) : print_N a = print_N b -> a = b.
Proof.
  intros H. pose proof (canonical_index_print a) as Ha.
  rewrite H, canonical_index_print in Ha. congruence.
Qed.

Lemma array_index_inv (k : string) (n : N) :
  array_index k = Some n -> k = print_N n.
Proof.
  unfold array_index.
  destruct (canonical_index k) as [m|] eqn:E; [|discriminate].
  destruct (m <? 4294967295)%N; [|discriminate].
  intros [= <-]. now apply canonical_index_inv.
Qed.

Lemma array_index_print (i : N) :
  array_index (print_N i) = if (i <? 4294967295)%N then Some i else None.
Proof. unfold array_index. now rewrite canonical_index_print. Qed.

Lemma print_N_nonempty (i : N) : print_N i <> "".
Proof.
  intros H. pose proof (canonical_index_print i) as Hi.
  rewrite H in Hi. discriminate.
Qed.

Lemma print_N_starts_with_digit (n : N) (rest : string) :
  starts_with_digit (print_N n +++ rest) = true.
Proof.
  unfold print_N. pose proof (canonical_to_uint n) as C.
  destruct (N.to_uint n); simpl in *; try reflexivity; discriminate.
Qed.

Lemma parse_number_printed (z : Z) (rest : string) :
  number_follow rest = true ->
  parse_number (print_Z z +++ rest) = Some (z, rest).
Proof.
  intros Hrest.
  assert (Hd : starts_with_digit rest = false).
  { destruct rest as [|c rest]; [reflexivity|]. simpl in *.
    destruct (is_digit c); [discriminate|reflexivity]. }
  assert (Hok : match rest with
                | String c _ =>
                    negb (Ascii.eqb c "." || Ascii.eqb c "e" || Ascii.eqb c "E")
                | EmptyString => true
                end = true).
  { destruct rest as [|c rest]; [reflexivity|]. simpl in Hrest.
    now apply andb_prop in Hrest. }
  assert (Hpos : forall n,
             parse_number (print_N n +++ rest) = Some (Z.of_N n, rest)).
  { intros n. unfold parse_number.
    assert (Hhead : match print_N n +++ rest with
                    | String c r =>
                        if Ascii.eqb c "-" then (true, r)
                        else (false, print_N n +++ rest)
                    | EmptyString => (false, print_N n +++ rest)
                    end = (false, print_N n +++ rest)).
    { pose proof (print_N_starts_with_digit n rest) as Hs.
      destruct (print_N n +++ rest) as [|c r]; [reflexivity|].
      simpl in Hs. destruct (Ascii.eqb c "-") eqn:E; [|reflexivity].
      apply Ascii.eqb_eq in E. subst c. discriminate. }
    rewrite Hhead. unfold print_N at 1.
    rewrite (scan_uint_printed _ _ Hd), canonical_to_uint.
    rewrite DecimalN.Unsigned.of_to, Hok. reflexivity. }
  destruct z as [|p|p].
  - change (print_Z 0) with (print_N 0). apply (Hpos 0%N).
  - apply (Hpos (Npos p)).
  - unfold print_Z, parse_number.
    cbn [String.append Ascii.eqb Bool.eqb andb]. unfold print_N.
    rewrite (scan_uint_printed _ _ Hd), canonical_to_uint.
    rewrite DecimalN.Unsigned.of_to, Hok. reflexivity.
Qed.

(** ** Property lists *)

Section MemberFacts.
Context {A : Type}.
Implicit Types (o acc es : list (string * A)) (k : string) (v : A).

Lemma lookup_replace_same k v o :
  has_key k o = true -> lookup k (replace_member k v o) = Some v.
Proof.
  unfold has_key. induction o as [|[k' v'] o IH]; simpl; [discriminate|].
  destruct (k' =? k) eqn:E; simpl; rewrite E; auto.
Qed.

Lemma lookup_replace_other k k' v o :
  k' <> k -> lookup k' (replace_member k v o) = lookup k' o.
Proof.
  intros Hne. induction o as [|[k0 v0] o IH]; simpl; [reflexivity|].
  destruct (k0 =? k) eqn:E; simpl.
  - apply String.eqb_eq in E. subst k0.
    destruct (k =? k') eqn:E'; [|reflexivity].
    apply String.eqb_eq in E'. congruence.
  - now rewrite IH.
Qed.

Lemma lookup_insert_index_same n k v o :
  lookup k (insert_index n k v o) = Some v \/ has_key k o = true.
Proof.
  unfold has_key. induction o as [|[k' v'] o IH]; simpl.
  - rewrite String.eqb_refl. now left.
  - destruct (k' =? k) eqn:E; [now right|].
    destruct (array_index k') as [m|]; simpl.
    + destruct (m <? n)%N; simpl.
      * rewrite E. exact IH.
      * rewrite String.eqb_refl. now left.
    + rewrite String.eqb_refl. now left.
Qed.

Lemma lookup_insert_index_other n k k' v o :
  k' <> k -> lookup k' (insert_index n k v o) = lookup k' o.
Proof.
  intros Hne.
  assert (Hk : (k =? k') = false) by (apply String.eqb_neq; congruence).
  induction o as [|[k0 v0] o IH]; simpl.
  - now rewrite Hk.
  - destruct (array_index k0) as [m|]; simpl.
    + destruct (m <? n)%N; simpl; [now rewrite IH|now rewrite Hk].
    + now rewrite Hk.
Qed.

Lemma lookup_app k o1 o2 :
  lookup k (o1 ++ o2)
  = match lookup k o1 with Some v => Some v | None => lookup k o2 end.
Proof.
  induction o1 as [|[k' v'] o1 IH]; simpl; [reflexivity|].
  destruct (k' =? k); auto.
Qed.

Lemma lookup_obj_set_same k v o : lookup k (obj_set k v o) = Some v.
Proof.
  unfold obj_set. destruct (has_key k o) eqn:H.
  - now apply lookup_replace_same.
  - destruct (array_index k) as [n|].
    + destruct (lookup_insert_index_same n k v o) as [E|E]; congruence.
    + rewrite lookup_app. unfold has_key in H.
      destruct (lookup k o); [discriminate|]. simpl.
      now rewrite String.eqb_refl.
Qed.

Lemma lookup_obj_set_other k k' v o :
  k' <> k -> lookup k' (obj_set k v o) = lookup k' o.
Proof.
  intros Hne. unfold obj_set. destruct (has_key k o).
  - now apply lookup_replace_other.
  - destruct (array_index k) as [n|].
    + now apply lookup_insert_index_other.
    + rewrite lookup_app. destruct (lookup k' o); [reflexivity|]. simpl.
      destruct (k =? k') eqn:E; [|reflexivity].
      apply String.eqb_eq in E. congruence.
Qed.

Lemma lookup_obj_set k k' v o :
  lookup k' (obj_set k v o) = if k =? k' then Some v else lookup k' o.
Proof.
  destruct (k =? k') eqn:E.
  - apply String.eqb_eq in E. subst. apply lookup_obj_set_same.
  - apply String.eqb_neq in E. apply lookup_obj_set_other. congruence.
Qed.

(** Reading a key after a run of assignments: the last assignment to the
    key wins, else the key is as it was. *)
Lemma lookup_assign k es : forall acc,
  lookup k (assign acc es)
  = match lookup k (rev es) with
    | Some v => Some v
    | None => lookup k acc
    end.
Proof.
  unfold assign.
  induction es as [|[k' v'] es IH]; intros acc; simpl; [reflexivity|].
  rewrite IH, lookup_app. destruct (lookup k (rev es)); [reflexivity|].
  simpl. rewrite lookup_obj_set. now destruct (k' =? k).
Qed.

Lemma lookup_in k v o : lookup k o = Some v -> In (k, v) o.
Proof.
  induction o as [|[k' v'] o IH]; simpl; [discriminate|].
  destruct (k' =? k) eqn:E.
  - apply String.eqb_eq in E. intros [= <-]. subst. now left.
  - intros H. right. auto.
Qed.

Lemma lookup_none_not_in k o :
  lookup k o = None <-> ~ In k (map fst o).
Proof.
  induction o as [|[k' v'] o IH]; simpl.
  - split; auto.
  - destruct (k' =? k) eqn:E.
    + apply String.eqb_eq in E. split; [discriminate|]. intros H. exfalso. auto.
    + apply String.eqb_neq in E. rewrite IH. split.
      * intros H [H'|H']; auto.
      * intros H H'. auto.
Qed.
End MemberFacts.

(** *** Objects whose keys stand in own-property order *)

Lemma key_before_neq (a b : string) : key_before a b = true -> a <> b.
Proof.
  unfold key_before. intros H E. subst b.
  destruct (array_index a) as [n|].
  - apply N.ltb_lt in H. lia.
  - rewrite String.eqb_refl in H. discriminate.
Qed.

Lemma keys_ordered_before (l1 l2 : list string) (k : string) :
  keys_ordered (l1 ++ k :: l2) = true ->
  forallb (fun a => key_before a k) l1 = true.
Proof.
  induction l1 as [|a l1 IH]; simpl; [reflexivity|].
  intros H. apply andb_prop in H as [H1 H2].
  rewrite forallb_app in H1. apply andb_prop in H1 as [_ H1].
  simpl in H1. apply andb_prop in H1 as [H1 _].
  now rewrite H1, IH.
Qed.

Section OrderedFacts.
Context {A : Type}.
Implicit Types (o acc es : list (string * A)) (k : string) (v : A).

Lemma obj_set_fresh_last k v o :
  forallb (fun a => key_before a k) (map fst o) = true ->
  obj_set k v o = o ++ [(k, v)].
Proof.
  intros H. unfold obj_set.
  assert (Hk : has_key k o = false).
  { unfold has_key. destruct (lookup k o) eqn:E; [|reflexivity].
    apply lookup_in in E. apply (in_map fst) in E. simpl in E.
    rewrite forallb_forall in H. apply H, key_before_neq in E. congruence. }
  rewrite Hk. destruct (array_index k) as [n|] eqn:En; [|reflexivity].
  induction o as [|[k' v'] o IH]; simpl; [reflexivity|].
  simpl in H. apply andb_prop in H as [H1 H2].
  unfold key_before in H1. rewrite En in H1.
  destruct (array_index k') as [m|]; [|discriminate].
  rewrite H1. f_equal. apply IH; auto.
  unfold has_key in *. simpl in Hk.
  destruct (k' =? k); [discriminate|assumption].
Qed.

Lemma assign_ordered es : forall acc,
  keys_ordered (map fst (acc ++ es)) = true -> assign acc es = acc ++ es.
Proof.
  unfold assign.
  induction es as [|[k v] es IH]; intros acc H; simpl.
  - now rewrite List.app_nil_r.
  - rewrite obj_set_fresh_last.
    + rewrite IH; rewrite <- List.app_assoc; [reflexivity|exact H].
    + rewrite map_app in H. simpl in H.
      now apply keys_ordered_before in H.
Qed.

(** Creating the members of an object afresh, in their order, gives the
    object back. *)
Lemma from_entries_ordered o :
  keys_ordered (map fst o) = true -> from_entries o = o.
Proof. intros H. unfold from_entries. now rewrite assign_ordered. Qed.

Lemma map_snd_index_entries_from (l : list A) : forall i,
  map snd (index_entries_from i l) = l.
Proof. induction l as [|x l IH]; intros i; simpl; [|rewrite IH]; auto. Qed.
End OrderedFacts.

Lemma key_before_print (i j : N) : (i < j)%N -> key_before (print_N i) (print_N j) = true.
Proof.
  intros H. unfold key_before. rewrite !array_index_print.
  destruct (i <? 4294967295)%N eqn:Ei, (j <? 4294967295)%N eqn:Ej.
  - now apply N.ltb_lt.
  - reflexivity.
  - apply N.ltb_lt in Ej. apply N.ltb_ge in Ei. lia.
  - apply negb_true_iff, String.eqb_neq. intros E. apply print_N_inj in E. lia.
Qed.

Lemma keys_ordered_index_entries {A : Type} (l : list A) : forall i,
  keys_ordered (map fst (index_entries_from i l)) = true.
Proof.
  induction l as [|x l IH]; intros i; simpl; [reflexivity|].
  rewrite IH, andb_true_r.
  assert (H : forall j, (i < j)%N ->
            forallb (key_before (print_N i)) (map fst (index_entries_from j l))
            = true).
  { clear IH. induction l as [|y l IHl]; intros j Hj; simpl; [reflexivity|].
    rewrite key_before_print by assumption. apply IHl. lia. }
  apply H. lia.
Qed.

Lemma keys_ordered_filter {A : Type} (f : string * A -> bool) (o : list (string * A)) :
  keys_ordered (map fst o) = true ->
  keys_ordered (map fst (filter f o)) = true.
Proof.
  induction o as [|kv o IH]; simpl; [reflexivity|].
  intros H. apply andb_prop in H as [H1 H2].
  assert (Hsub : forallb (key_before (fst kv)) (map fst (filter f o)) = true).
  { rewrite forallb_forall in *. intros k Hk. apply H1.
    apply in_map_iff in Hk as [x [<- Hx]]. apply filter_In in Hx as [Hx _].
    now apply in_map. }
  destruct (f kv); simpl; [rewrite Hsub|]; auto.
Qed.

Lemma wf_entries_ordered (v : value) :
  wf_value v = true -> keys_ordered (map fst (entries_of v)) = true.
Proof.
  destruct v; simpl; try reflexivity.
  - intros _. apply keys_ordered_index_entries.
  - intros _. apply keys_ordered_index_entries.
  - intros H. now apply andb_prop in H.
Qed.

(** *** Distinct keys *)

Section DistinctKeys.
Context {A : Type}.
Implicit Types (o acc es : list (string * A)) (k : string) (v : A).

Lemma keys_replace_member k v o :
  map fst (replace_member k v o) = map fst o.
Proof.
  induction o as [|[k' v'] o IH]; simpl; [reflexivity|].
  destruct (k' =? k); simpl; congruence.
Qed.

Lemma keys_insert_index n k v o :
  Permutation (map fst (insert_index n k v o)) (k :: map fst o).
Proof.
  induction o as [|[k' v'] o IH]; simpl; [reflexivity|].
  destruct (array_index k') as [m|]; [|reflexivity].
  destruct (m <? n)%N; simpl; [|reflexivity].
  rewrite IH. apply perm_swap.
Qed.

Lemma keys_obj_set_nodup k v o :
  NoDup (map fst o) -> NoDup (map fst (obj_set k v o)).
Proof.
  intros H. unfold obj_set. destruct (has_key k o) eqn:Hk.
  - now rewrite keys_replace_member.
  - assert (Hfresh : ~ In k (map fst o)).
    { apply lookup_none_not_in. unfold has_key in Hk.
      destruct (lookup k o); [discriminate|reflexivity]. }
    assert (Hcons : NoDup (k :: map fst o)) by now constructor.
    destruct (array_index k) as [n|].
    + eapply Permutation_NoDup; [|exact Hcons].
      symmetry. apply keys_insert_index.
    + rewrite map_app. simpl.
      eapply Permutation_NoDup; [|exact Hcons].
      apply Permutation_cons_append.
Qed.

Lemma keys_assign_nodup es : forall acc,
  NoDup (map fst acc) -> NoDup (map fst (assign acc es)).
Proof.
  unfold assign. induction es as [|[k v] es IH]; intros acc H; simpl; [assumption|].
  apply IH. now apply keys_obj_set_nodup.
Qed.

Lemma lookup_rev_nodup k o :
  NoDup (map fst o) -> lookup k (rev o) = lookup k o.
Proof.
  induction o as [|[k' v'] o IH]; simpl; [reflexivity|].
  intros H. inversion H as [|? ? Hfresh Hrest]; subst.
  rewrite lookup_app, (IH Hrest). simpl.
  destruct (k' =? k) eqn:E.
  - apply String.eqb_eq in E. subst k'.
    apply lookup_none_not_in in Hfresh. now rewrite Hfresh.
  - now destruct (lookup k o).
Qed.
End DistinctKeys.

Lemma forallb_permutation {A : Type} (f : A -> bool) (l1 l2 : list A) :
  Permutation l1 l2 -> forallb f l1 = forallb f l2.
Proof.
  induction 1 as [|x l1 l2 _ IH|x y l|l1 l2 l3 _ IH1 _ IH2]; simpl.
  - reflexivity.
  - now rewrite IH.
  - now rewrite !andb_assoc, (andb_comm (f y)).
  - congruence.
Qed.

(** ** Assignments keep the keys in own-property order *)

Lemma key_before_index_trans (k a b : string) (n : N) :
  array_index k = Some n ->
  key_before k a = true -> key_before a b = true -> key_before k b = true.
Proof.
  unfold key_before. intros ->.
  destruct (array_index a) as [m|], (array_index b) as [p|]; try discriminate;
    try reflexivity.
  rewrite !N.ltb_lt. lia.
Qed.

Lemma keys_ordered_snoc (l : list string) (k : string) :
  keys_ordered l = true ->
  forallb (fun a => key_before a k) l = true ->
  keys_ordered (l ++ [k]) = true.
Proof.
  induction l as [|a l IH]; simpl; [reflexivity|].
  intros H1 H2. apply andb_prop in H1 as [Ha Hl]. apply andb_prop in H2 as [Hak Hlk].
  rewrite forallb_app, Ha, IH by assumption. simpl. now rewrite Hak.
Qed.

Section OrderKept.
Context {A : Type}.
Implicit Types (o acc es : list (string * A)) (k : string) (v : A).

Lemma insert_index_ordered n k v o :
  array_index k = Some n -> ~ In k (map fst o) ->
  keys_ordered (map fst o) = true ->
  keys_ordered (map fst (insert_index n k v o)) = true.
Proof.
  intros Hk. induction o as [|[k' v'] o IH]; intros Hfresh Ho; [reflexivity|].
  cbn [map fst keys_ordered] in Ho. apply andb_prop in Ho as [Hhead Htail].
  assert (Hne : k' <> k) by (intros ->; apply Hfresh; now left).
  assert (Hfresh' : ~ In k (map fst o)) by (intros H; apply Hfresh; now right).
  assert (Hafter : key_before k k' = true ->
                   keys_ordered (map fst ((k, v) :: (k', v') :: o)) = true).
  { intros Hkk'. cbn [map fst keys_ordered forallb].
    rewrite Hkk', Hhead, Htail. rewrite !andb_true_r.
    apply forallb_forall. intros b Hb. rewrite forallb_forall in Hhead.
    now apply (key_before_index_trans k k' b n), Hhead. }
  cbn [insert_index].
  destruct (array_index k') as [m|] eqn:Ek'.
  - destruct (m <? n)%N eqn:Emn.
    + cbn [map fst keys_ordered]. rewrite IH by assumption.
      rewrite (forallb_permutation _ _ _ (keys_insert_index n k v o)).
      cbn [forallb]. rewrite Hhead. unfold key_before. now rewrite Ek', Hk, Emn.
    + apply Hafter. unfold key_before. rewrite Hk, Ek'.
      apply N.ltb_lt. apply N.ltb_ge in Emn.
      assert (m <> n).
      { intros ->. apply array_index_inv in Hk, Ek'. congruence. }
      lia.
  - apply Hafter. unfold key_before. now rewrite Hk, Ek'.
Qed.

Lemma obj_set_ordered k v o :
  keys_ordered (map fst o) = true ->
  keys_ordered (map fst (obj_set k v o)) = true.
Proof.
  intros Ho. unfold obj_set. destruct (has_key k o) eqn:Hk.
  - now rewrite keys_replace_member.
  - assert (Hfresh : ~ In k (map fst o)).
    { apply lookup_none_not_in. unfold has_key in Hk.
      destruct (lookup k o); [discriminate|reflexivity]. }
    destruct (array_index k) as [n|] eqn:Ek.
    + now apply insert_index_ordered.
    + rewrite map_app. cbn [map fst]. apply keys_ordered_snoc; [assumption|].
      apply forallb_forall. intros a Ha. unfold key_before. rewrite Ek.
      destruct (array_index a); [reflexivity|].
      apply negb_true_iff, String.eqb_neq. congruence.
Qed.

Lemma assign_keeps_order es : forall acc,
  keys_ordered (map fst acc) = true ->
  keys_ordered (map fst (assign acc es)) = true.
Proof.
  unfold assign. induction es as [|[k v] es IH]; intros acc H; simpl;
    [assumption|]. apply IH. now apply obj_set_ordered.
Qed.

(** The values of an object after an assignment are the value assigned and
    values it had. *)
Lemma obj_set_values (P : A -> Prop) k v o :
  P v -> Forall (fun kv => P (snd kv)) o ->
  Forall (fun kv => P (snd kv)) (obj_set k v o).
Proof.
  intros Hv Ho. unfold obj_set. destruct (has_key k o).
  - induction o as [|[k' v'] o IH]; simpl; [constructor|].
    inversion Ho; subst. destruct (k' =? k); constructor; auto.
  - destruct (array_index k) as [n|].
    + induction o as [|[k' v'] o IH]; simpl; [now repeat constructor|].
      inversion Ho; subst.
      destruct (array_index k') as [m|]; [destruct (m <? n)%N|];
        repeat constructor; auto.
    + apply Forall_app. split; [assumption|now repeat constructor].
Qed.
End OrderKept.

Lemma assign_values {A : Type} (P : A -> Prop) (es : list (string * A)) :
  forall acc,
    Forall (fun kv => P (snd kv)) acc -> Forall (fun kv => P (snd kv)) es ->
    Forall (fun kv => P (snd kv)) (assign acc es).
Proof.
  unfold assign. induction es as [|[k v] es IH]; intros acc Ha He;
    [assumption|].
  inversion He; subst. cbn [fold_left fst snd]. apply IH; [|assumption].
  now apply obj_set_values.
Qed.

(** ** Assignments that may reach the [__proto__] accessor *)

Lemma dropped_key (E : prototypes) (k : string) :
  dropped E k = true -> k = "__proto__".
Proof.
  unfold dropped. intros H. apply andb_prop in H as [H _].
  now apply String.eqb_eq in H.
Qed.

Lemma reaches_accessor_dropped (E : prototypes) (k : string)
    (acc : list (string * value)) :
  reaches_accessor E k acc = dropped E k && negb (has_key k acc).
Proof. reflexivity. Qed.

Lemma has_key_false {A : Type} (k : string) (o : list (string * A)) :
  has_key k o = false <-> lookup k o = None.
Proof. unfold has_key. destruct (lookup k o); split; congruence. Qed.

Lemma lookup_set_member (E : prototypes) (k k' : string) (v : value)
    (acc : list (string * value)) :
  lookup k (set_member E k' v acc)
  = if dropped E k && negb (has_key k acc) then None
    else if k' =? k then Some v else lookup k acc.
Proof.
  unfold set_member. rewrite reaches_accessor_dropped.
  destruct (dropped E k && negb (has_key k acc)) eqn:D.
  - apply andb_prop in D as [Dk Hk]. apply negb_true_iff in Hk.
    pose proof (proj1 (has_key_false k acc) Hk) as Hnone.
    destruct (k' =? k) eqn:Ek.
    + apply String.eqb_eq in Ek. subst k'. now rewrite Dk, Hk.
    + destruct (dropped E k' && negb (has_key k' acc)); [assumption|].
      rewrite lookup_obj_set, Ek. assumption.
  - destruct (dropped E k' && negb (has_key k' acc)) eqn:D'.
    + destruct (k' =? k) eqn:Ek; [|reflexivity].
      apply String.eqb_eq in Ek. subst k'. congruence.
    + apply lookup_obj_set.
Qed.

Lemma has_key_set_member (E : prototypes) (k k' : string) (v : value)
    (acc : list (string * value)) :
  has_key k (set_member E k' v acc)
  = if dropped E k && negb (has_key k acc) then false
    else (k' =? k) || has_key k acc.
Proof.
  unfold has_key at 1. rewrite lookup_set_member.
  destruct (dropped E k && negb (has_key k acc)); [reflexivity|].
  destruct (k' =? k); [reflexivity|]. reflexivity.
Qed.

Lemma lookup_assign_members (E : prototypes) (k : string)
    (es : list (string * value)) : forall acc,
  lookup k (assign_members E acc es)
  = if dropped E k && negb (has_key k acc) then None
    else match lookup k (rev es) with
         | Some v => Some v
         | None => lookup k acc
         end.
Proof.
  unfold assign_members.
  induction es as [|[k' v] es IH]; intros acc; cbn [fold_left rev fst snd].
  - destruct (dropped E k && negb (has_key k acc)) eqn:D; [|reflexivity].
    apply andb_prop in D as [_ Hk]. apply negb_true_iff in Hk.
    now apply (proj1 (has_key_false k acc)).
  - rewrite IH, has_key_set_member, lookup_set_member, lookup_app.
    destruct (dropped E k && negb (has_key k acc)) eqn:D.
    + apply andb_prop in D as [Dk _]. now rewrite Dk.
    + cbn [lookup].
      destruct (dropped E k) eqn:Dk; cbn [andb] in *.
      * apply negb_false_iff in D. rewrite D, orb_true_r. cbn [negb].
        destruct (lookup k (rev es)); [reflexivity|]. now destruct (k' =? k).
      * destruct (lookup k (rev es)); [reflexivity|]. now destruct (k' =? k).
Qed.

Lemma keys_set_member_nodup (E : prototypes) (k : string) (v : value)
    (acc : list (string * value)) :
  NoDup (map fst acc) -> NoDup (map fst (set_member E k v acc)).
Proof.
  intros H. unfold set_member. destruct (reaches_accessor E k acc);
    [assumption|now apply keys_obj_set_nodup].
Qed.

Lemma keys_assign_members_nodup (E : prototypes)
    (es : list (string * value)) : forall acc,
  NoDup (map fst acc) -> NoDup (map fst (assign_members E acc es)).
Proof.
  unfold assign_members.
  induction es as [|[k v] es IH]; intros acc H; [assumption|].
  apply IH. now apply keys_set_member_nodup.
Qed.

Lemma set_member_ordered (E : prototypes) (k : string) (v : value)
    (acc : list (string * value)) :
  keys_ordered (map fst acc) = true ->
  keys_ordered (map fst (set_member E k v acc)) = true.
Proof.
  intros H. unfold set_member. destruct (reaches_accessor E k acc);
    [assumption|now apply obj_set_ordered].
Qed.

Lemma assign_members_ordered (E : prototypes)
    (es : list (string * value)) : forall acc,
  keys_ordered (map fst acc) = true ->
  keys_ordered (map fst (assign_members E acc es)) = true.
Proof.
  unfold assign_members.
  induction es as [|[k v] es IH]; intros acc H; [assumption|].
  apply IH. now apply set_member_ordered.
Qed.

Lemma set_member_values (E : prototypes) (P : value -> Prop) (k : string)
    (v : value) (acc : list (string * value)) :
  P v -> Forall (fun kv => P (snd kv)) acc ->
  Forall (fun kv => P (snd kv)) (set_member E k v acc).
Proof.
  intros Hv Ha. unfold set_member. destruct (reaches_accessor E k acc);
    [assumption|now apply obj_set_values].
Qed.

Lemma assign_members_values (E : prototypes) (P : value -> Prop)
    (es : list (string * value)) : forall acc,
  Forall (fun kv => P (snd kv)) acc -> Forall (fun kv => P (snd kv)) es ->
  Forall (fun kv => P (snd kv)) (assign_members E acc es).
Proof.
  unfold assign_members.
  induction es as [|[k v] es IH]; intros acc Ha He; [assumption|].
  inversion He; subst. cbn [fold_left fst snd]. apply IH; [|assumption].
  now apply set_member_values.
Qed.

(** Where no key is dropped, the assignments are those of [assign]. *)
Lemma assign_members_plain (E : prototypes) (es : list (string * value)) :
  (forall kv, In kv es -> dropped E (fst kv) = false) ->
  forall acc, assign_members E acc es = assign acc es.
Proof.
  unfold assign_members, assign.
  induction es as [|[k v] es IH]; intros H acc; [reflexivity|].
  pose proof (H (k, v) (or_introl eq_refl)) as Hk. cbn [fst] in Hk.
  cbn [fold_left fst snd]. unfold set_member at 2.
  rewrite reaches_accessor_dropped, Hk.
  cbn [andb]. apply IH. intros kv Hin. apply H. now right.
Qed.

(** The members that the assignments of a list can create. *)
Lemma dropped_absent (E : prototypes) (o : list (string * value)) :
  (forall kv, In kv o -> dropped E (fst kv) = false) <->
  (forall k, dropped E k = true -> lookup k o = None).
Proof.
  split.
  - intros H k' Dk. apply lookup_none_not_in. intros Hin.
    apply in_map_iff in Hin as [kv [<- Hin]]. specialize (H kv Hin). congruence.
  - intros H kv Hin. destruct (dropped E (fst kv)) eqn:D; [|reflexivity].
    specialize (H _ D). apply lookup_none_not_in in H. exfalso. apply H.
    now apply in_map.
Qed.

(** The assignments of a list are those of [assign] for its entries other
    than the dropped ones. *)
Lemma assign_members_filter (E : prototypes) (es : list (string * value)) :
  forall acc,
    (forall k, dropped E k = true -> lookup k acc = None) ->
    assign_members E acc es
    = assign acc (filter (fun kv => negb (dropped E (fst kv))) es).
Proof.
  unfold assign_members, assign.
  induction es as [|[k v] es IH]; intros acc Hacc; [reflexivity|].
  cbn [fold_left filter fst snd]. unfold set_member at 2.
  rewrite reaches_accessor_dropped.
  destruct (dropped E k) eqn:Dk; cbn [andb negb].
  - rewrite (proj2 (has_key_false k acc) (Hacc k Dk)). cbn [negb].
    now apply IH.
  - cbn [fold_left fst snd]. apply IH. intros p Dp. rewrite lookup_obj_set.
    destruct (k =? p) eqn:Ekp; [|now apply Hacc].
    apply String.eqb_eq in Ekp. congruence.
Qed.

Lemma filter_kept (E : prototypes) (o : list (string * value)) :
  (forall k, dropped E k = true -> lookup k o = None) ->
  filter (fun kv => negb (dropped E (fst kv))) o = o.
Proof.
  intros H0. pose proof (proj2 (dropped_absent E o) H0) as H. clear H0.
  induction o as [|kv o IH]; [reflexivity|]. cbn [filter].
  rewrite (H kv (or_introl eq_refl)). cbn [negb]. f_equal. apply IH.
  intros kv' Hin. apply H. now right.
Qed.

(** ** [getByPath] *)

Lemma walk_fold_stuck (E : prototypes) (path : list string)
    (r : modelled (option value)) :
  r = Within None \/ r = Beyond ->
  fold_left
    (fun acc key =>
       match acc with
       | Within (Some a) => if truthy a then get E a key else Within None
       | Within None => Within None
       | Beyond => Beyond
       end) path r = r.
Proof.
  induction path as [|key path IH]; [reflexivity|].
  intros [-> | ->]; cbn [fold_left]; apply IH; auto.
Qed.

Lemma walk_fold (E : prototypes) (path : list string) : forall cur,
  fold_left
    (fun acc key =>
       match acc with
       | Within (Some a) => if truthy a then get E a key else Within None
       | Within None => Within None
       | Beyond => Beyond
       end) path (Within (Some cur)) = walk E cur path.
Proof.
  induction path as [|key path IH]; intros cur; cbn [fold_left walk];
    [reflexivity|].
  destruct (truthy cur); [|apply walk_fold_stuck; now left].
  destruct (get E cur key) as [[next|]|];
    [apply IH|apply walk_fold_stuck; now left|apply walk_fold_stuck; now right].
Qed.

Lemma getByPath_unfold (E : prototypes) (obj : value) (path : list string) :
  getByPath E obj path
  = (if is_object obj then walk E obj path else Within None).
Proof.
  unfold getByPath.
  destruct (is_object obj); cbn [negb]; [apply walk_fold|reflexivity].
Qed.

Lemma get_own (E : prototypes) (v : value) (k : string) (x : value) :
  get E v k = Within (Some x) <-> get_prop v k = Some x.
Proof.
  unfold get. destruct (get_prop v k) as [y|].
  - split; congruence.
  - destruct (inherits E (kind_of v) k); split; discriminate.
Qed.

Lemma get_missing (E : prototypes) (v : value) (k : string) :
  get E v k = Within None
  <-> get_prop v k = None /\ inherits E (kind_of v) k = false.
Proof.
  unfold get. destruct (get_prop v k) as [y|].
  - split; [discriminate|]. now intros [H _].
  - destruct (inherits E (kind_of v) k); split; try discriminate; auto.
    now intros [_ H].
Qed.

Lemma get_beyond (E : prototypes) (v : value) (k : string) :
  get E v k = Beyond
  <-> get_prop v k = None /\ inherits E (kind_of v) k = true.
Proof.
  unfold get. destruct (get_prop v k) as [y|].
  - split; [discriminate|]. now intros [H _].
  - destruct (inherits E (kind_of v) k); split; try discriminate; auto.
    now intros [_ H].
Qed.






(** On a path that leads through mappings only, the walk is the one the
    specification describes. *)
Lemma getByPath_through_mappings (E : prototypes)
    (o : list (string * value)) (path : list string) :
  forall r, getByPath_spec (VObj o) path = Some r ->
            getByPath E (VObj o) path = Within (Some r).
Proof.
  rewrite getByPath_unfold. cbn [is_object].
  generalize (VObj o) as cur. induction path as [|key path IH]; intros cur r;
    cbn [getByPath_spec walk].
  - now intros [= ->].
  - destruct cur; try discriminate. cbn [truthy]. unfold get. cbn [get_prop].
    destruct (lookup key members) as [next|]; [apply IH|discriminate].
Qed.

(** The two examples of the specification. *)
Example getByPath_example_hit :
  getByPath sample_prototypes
    (VObj [("a", VObj [("b", VObj [("c", VNum 5)])])]) ["a"; "b"; "c"]
    = Within (Some (VNum 5)).
Proof. reflexivity. Qed.

Example getByPath_example_miss :
  getByPath sample_prototypes (VObj [("a", VNum 1)]) ["a"; "z"] = Within None.
Proof. reflexivity. Qed.

(** With the prototypes of the examples, a path through an inherited name
    leaves the JSON values. *)
Example getByPath_example_inherited :
  getByPath sample_prototypes (VObj [("a", VNum 1)]) ["constructor"; "name"]
  = Beyond.
Proof. reflexivity. Qed.

(** ** [removeEmptyValues] *)

Lemma ordered_head_fresh {A : Type} (k : string) (o : list (string * A)) :
  forallb (key_before k) (map fst o) = true -> lookup k o = None.
Proof.
  intros H. apply lookup_none_not_in. intros Hin.
  rewrite forallb_forall in H. now apply H, key_before_neq in Hin.
Qed.

Lemma lookup_filter_ordered {A : Type} (f : A -> bool) (k : string)
    (o : list (string * A)) :
  keys_ordered (map fst o) = true ->
  lookup k (filter (fun kv => f (snd kv)) o)
  = match lookup k o with
    | Some v => if f v then Some v else None
    | None => None
    end.
Proof.
  induction o as [|[k' v'] o IH]; simpl; [reflexivity|].
  intros H. apply andb_prop in H as [H1 H2].
  destruct (k' =? k) eqn:E.
  - apply String.eqb_eq in E. subst k'.
    destruct (f v') eqn:F; simpl.
    + now rewrite String.eqb_refl.
    + apply ordered_head_fresh.
      rewrite forallb_forall in *. intros a Ha. apply H1.
      apply in_map_iff in Ha as [x [<- Hx]]. apply filter_In in Hx as [Hx _].
      now apply in_map.
  - destruct (f v'); simpl; [rewrite E|]; auto.
Qed.

Lemma removeEmptyValues_unfold (obj : value) :
  wf_value obj = true ->
  removeEmptyValues obj
  = if is_object obj
    then VObj (filter (fun kv => non_empty_value (snd kv)) (entries_of obj))
    else VObj [].
Proof.
  intros Hwf. unfold removeEmptyValues.
  destruct (is_object obj); simpl; [|reflexivity].
  rewrite from_entries_ordered; [reflexivity|].
  now apply keys_ordered_filter, wf_entries_ordered.
Qed.

(** C9, as amended.  [removeEmptyValues] works on the top level only.  For an
    object or an array (which counts as the mapping of its indices) the result
    is the mapping of exactly the own members whose value is neither [null]
    nor the empty string, each with its value unchanged: a key reads as in
    the input when its value is kept ([0] and [false] are), and is missing
    when the value is [null] or the empty string.  For every other input
    (a scalar or [null]) the result is the empty mapping. *)
Theorem removeEmptyValues_keeps_non_empty_members (obj : value)
    (Hwf : wf_value obj = true) :
  removeEmptyValues obj
  = (if is_object obj
     then VObj (filter (fun kv => non_empty_value (snd kv)) (entries_of obj))
     else VObj [])
  /\ (forall k,
        get_prop (removeEmptyValues obj) k
        = if is_object obj
          then match lookup k (entries_of obj) with
               | Some v => if non_empty_value v then Some v else None
               | None => None
               end
          else None)
  /\ non_empty_value (VNum 0) = true
  /\ non_empty_value (VBool false) = true
  /\ non_empty_value VNull = false
  /\ non_empty_value (VStr "") = false.
Proof.
  split; [now apply removeEmptyValues_unfold|].
  split; [|repeat split].
  intros k. rewrite removeEmptyValues_unfold by assumption.
  destruct (is_object obj); simpl; [|reflexivity].
  apply (lookup_filter_ordered non_empty_value).
  now apply wf_entries_ordered.
Qed.

Lemma removeEmptyValues_keeps_non_empty_members_witness :
  removeEmptyValues
    (VObj [("a", VNum 0); ("b", VNull); ("c", VStr ""); ("d", VBool false);
           ("e", VObj [("f", VNull)])])
  = VObj [("a", VNum 0); ("d", VBool false); ("e", VObj [("f", VNull)])].
Proof.
  exact (proj1 (removeEmptyValues_keeps_non_empty_members
                  (VObj [("a", VNum 0); ("b", VNull); ("c", VStr "");
                         ("d", VBool false); ("e", VObj [("f", VNull)])])
                  eq_refl)).
Defined.

(** C9 as stated fails on an array: its non-empty elements come back under
    their indices. *)
Lemma removeEmptyValues_array_not_empty :
  removeEmptyValues (VArr [VNum 1; VNull; VStr ""]) = VObj [("0", VNum 1)]
  /\ removeEmptyValues_spec (VArr [VNum 1; VNull; VStr ""]) = VObj []
  /\ removeEmptyValues (VArr [VNum 1; VNull; VStr ""])
     <> removeEmptyValues_spec (VArr [VNum 1; VNull; VStr ""]).
Proof. repeat split. vm_compute. discriminate. Qed.

(** ** [findValueByKey] and [safeFindValueByKey] *)

Lemma children_array (l : list value) : children (VArr l) = l.
Proof. apply map_snd_index_entries_from. Qed.

Lemma findValueByKey_unfold (E : prototypes) (obj : value) (key : string) :
  is_object obj = true ->
  findValueByKey E obj key
  = if has_in E obj key then Returned (get E obj key)
    else first_found E key (children obj).
Proof.
  destruct obj as [| | | |l|o]; try discriminate; intros _.
  - rewrite children_array. cbn [findValueByKey].
    destruct (has_in E (VArr l) key); [reflexivity|].
    induction l as [|x l IH]; cbn [first_found]; [reflexivity|]. now rewrite IH.
  - unfold children. cbn [findValueByKey entries_of].
    destruct (has_in E (VObj o) key); [reflexivity|].
    induction o as [|[k x] o IH]; cbn [first_found map snd]; [reflexivity|].
    now rewrite IH.
Qed.

Lemma safeFindValueByKey_unfold (E : prototypes) (obj : value)
    (key : string) :
  is_object obj = true ->
  safeFindValueByKey E obj key
  = if has_in E obj key then get E obj key
    else safe_first_found E key (children obj).
Proof.
  destruct obj as [| | | |l|o]; try discriminate; intros _.
  - rewrite children_array. cbn [safeFindValueByKey].
    destruct (has_in E (VArr l) key); [reflexivity|].
    induction l as [|x l IH]; cbn [safe_first_found]; [reflexivity|].
    now rewrite IH.
  - unfold children. cbn [safeFindValueByKey entries_of].
    destruct (has_in E (VObj o) key); [reflexivity|].
    induction o as [|[k x] o IH]; cbn [safe_first_found map snd];
      [reflexivity|]. now rewrite IH.
Qed.

Lemma nested_in_inv (obj node : value) :
  nested_in obj node ->
  node = obj
  \/ exists x, In x (children obj) /\ is_object x = true /\ nested_in x node.
Proof. intros H. inversion H; subst; eauto. Qed.

Lemma has_prop_false (obj : value) (key : string) :
  has_prop obj key = false <-> get_prop obj key = None.
Proof. unfold has_prop. destruct (get_prop obj key); split; congruence. Qed.

Lemma has_in_false (E : prototypes) (v : value) (k : string) :
  has_in E v k = false
  <-> get_prop v k = None /\ inherits E (kind_of v) k = false.
Proof.
  unfold has_in. rewrite orb_false_iff, has_prop_false. reflexivity.
Qed.

Lemma has_in_get (E : prototypes) (v : value) (k : string) :
  has_in E v k = false <-> get E v k = Within None.
Proof. rewrite has_in_false. symmetry. apply get_missing. Qed.

Lemma first_found_correct (E : prototypes) (key : string) (xs : list value) :
  Forall (search_spec E key) xs ->
  first_found E key xs = Returned (safe_first_found E key xs)
  /\ (safe_first_found E key xs = Within None <->
      forall x, In x xs -> is_object x = true ->
      forall node, nested_in x node -> has_in E node key = false)
  /\ (forall r, safe_first_found E key xs = Within (Some r) ->
        exists x, In x xs /\ is_object x = true /\
        exists node, nested_in x node /\ get_prop node key = Some r)
  /\ (safe_first_found E key xs = Beyond ->
        exists x, In x xs /\ is_object x = true /\
        exists node, nested_in x node /\ get_prop node key = None
                     /\ inherits E (kind_of node) key = true).
Proof.
  induction 1 as [|x xs Hx _ IH]; cbn [first_found safe_first_found].
  - split; [reflexivity|]. split; [split; [intros _ ? []|reflexivity]|].
    split; discriminate.
  - destruct IH as (IH1 & IH2 & IH3 & IH4).
    assert (Hrest :
      (forall x0, In x0 xs -> is_object x0 = true ->
         forall node, nested_in x0 node -> has_in E node key = false) ->
      (is_object x = true ->
         forall node, nested_in x node -> has_in E node key = false) ->
      forall y, In y (x :: xs) -> is_object y = true ->
         forall node, nested_in y node -> has_in E node key = false).
    { intros Hxs Hhead y [<-|Hy] Ey; [now apply Hhead|now apply Hxs]. }
    destruct (is_object x) eqn:Ex.
    + destruct (Hx Ex) as (H1 & H2 & H3 & H4). rewrite H1.
      destruct (safeFindValueByKey E x key) as [[r|]|] eqn:Er.
      * split; [reflexivity|]. split; [|split; [|discriminate]].
        -- split; [discriminate|]. intros Hall. exfalso.
           destruct (H3 r eq_refl) as (node & Hn & Hg).
           specialize (Hall x (or_introl eq_refl) Ex node Hn).
           apply has_in_false in Hall as [Hall _]. congruence.
        -- intros r' [= <-]. exists x. split; [now left|]. split; [assumption|].
           now apply H3.
      * split; [assumption|]. split; [|split].
        -- rewrite IH2. split.
           ++ intros Hall. apply Hrest; [assumption|]. intros _. now apply H2.
           ++ intros Hall y Hy. apply Hall. now right.
        -- intros r Hr. destruct (IH3 r Hr) as (y & Hy & Ey & Hnode).
           exists y. split; [now right|]. now split.
        -- intros Hb. destruct (IH4 Hb) as (y & Hy & Ey & Hnode).
           exists y. split; [now right|]. now split.
      * split; [reflexivity|]. split; [|split; [discriminate|]].
        -- split; [discriminate|]. intros Hall. exfalso.
           destruct (H4 eq_refl) as (node & Hn & Hg & Hi).
           specialize (Hall x (or_introl eq_refl) Ex node Hn).
           apply has_in_false in Hall as [_ Hall]. congruence.
        -- intros _. exists x. split; [now left|]. split; [assumption|].
           now apply H4.
    + split; [assumption|]. split; [|split].
      * rewrite IH2. split.
        -- intros Hall. apply Hrest; [assumption|]. intros Hc. discriminate Hc.
        -- intros Hall y Hy. apply Hall. now right.
      * intros r Hr. destruct (IH3 r Hr) as (y & Hy & Ey & Hnode).
        exists y. split; [now right|]. now split.
      * intros Hb. destruct (IH4 Hb) as (y & Hy & Ey & Hnode).
        exists y. split; [now right|]. now split.
Qed.

Lemma search_spec_node (E : prototypes) (key : string) (obj : value) :
  Forall (search_spec E key) (children obj) -> search_spec E key obj.
Proof.
  intros Hc Hobj.
  destruct (first_found_correct E key (children obj) Hc) as (F1 & F2 & F3 & F4).
  rewrite findValueByKey_unfold, safeFindValueByKey_unfold by assumption.
  destruct (has_in E obj key) eqn:Eh.
  - split; [reflexivity|].
    split; [|split].
    + split.
      * intros Hg. apply has_in_get in Hg. congruence.
      * intros Hall. specialize (Hall obj (nested_here obj)). congruence.
    + intros r Hr. apply get_own in Hr. exists obj. split; [constructor|assumption].
    + intros Hb. apply get_beyond in Hb as [Hg Hi]. exists obj.
      split; [constructor|]. now split.
  - split; [assumption|]. split; [|split].
    + rewrite F2. split.
      * intros Hall node Hn. apply nested_in_inv in Hn as [->|(x & Hx & Ex & Hn)];
          [assumption|]. now apply (Hall x).
      * intros Hall x Hx Ex node Hn. apply Hall.
        now apply (nested_below obj x node).
    + intros r Hr. destruct (F3 r Hr) as (x & Hx & Ex & node & Hn & Hg).
      exists node. split; [|assumption]. now apply (nested_below obj x node).
    + intros Hb. destruct (F4 Hb) as (x & Hx & Ex & node & Hn & Hg).
      exists node. split; [|assumption]. now apply (nested_below obj x node).
Qed.

Lemma search_correct (E : prototypes) (key : string) (obj : value) :
  search_spec E key obj.
Proof.
  induction obj as [| | | |l IH|o IH] using value_ind;
    try (intros H; discriminate H).
  - apply search_spec_node. now rewrite children_array.
  - apply search_spec_node. unfold children. cbn [entries_of].
    now apply Forall_map.
Qed.

Lemma first_found_skips (E : prototypes) (key : string)
    (pre rest : list value) :
  (forall y, In y pre -> is_object y = true ->
             findValueByKey E y key = Returned (Within None)) ->
  first_found E key (pre ++ rest) = first_found E key rest.
Proof.
  induction pre as [|y pre IH]; intros H; cbn [app first_found]; [reflexivity|].
  destruct (is_object y) eqn:Ey.
  - rewrite (H y (or_introl eq_refl) Ey). apply IH.
    intros z Hz. apply H. now right.
  - apply IH. intros z Hz. apply H. now right.
Qed.

(** C4, as amended.  For every mapping or array [obj] and every [key],
    [findValueByKey] is a depth-first pre-order search that does not raise.
    When [obj] has the key, as an own property or through its prototype
    chain, it returns what [obj\[key\]] reads: the own value, or else the
    inherited member, which is beyond the JSON values.  Otherwise it
    descends, in iteration order, into the members that are mappings or
    arrays (an array is searched through its elements, in index order) and
    returns the first result that is not Absent.  It returns Absent exactly
    when no mapping or array of the tree has the key, own or inherited; a
    value it returns is the own value of the key at some node of the tree;
    and a result beyond the JSON values comes from a node that inherits the
    key.  [safeFindValueByKey] returns the same. *)
Theorem findValueByKey_searches_mappings_and_arrays (E : prototypes)
    (obj : value) (key : string) (Hobj : is_object obj = true) :
  findValueByKey E obj key = Returned (safeFindValueByKey E obj key)
  /\ (has_in E obj key = true ->
      findValueByKey E obj key = Returned (get E obj key))
  /\ (has_in E obj key = false ->
      forall pre x post r,
        children obj = pre ++ x :: post ->
        (forall y, In y pre -> is_object y = true ->
                   findValueByKey E y key = Returned (Within None)) ->
        is_object x = true ->
        findValueByKey E x key = Returned r -> r <> Within None ->
        findValueByKey E obj key = Returned r)
  /\ (findValueByKey E obj key = Returned (Within None) <->
      forall node, nested_in obj node -> has_in E node key = false)
  /\ (forall r, findValueByKey E obj key = Returned (Within (Some r)) ->
        exists node, nested_in obj node /\ get_prop node key = Some r)
  /\ (findValueByKey E obj key = Returned Beyond ->
        exists node, nested_in obj node /\ get_prop node key = None
                     /\ inherits E (kind_of node) key = true).
Proof.
  destruct (search_correct E key obj Hobj) as (H1 & H2 & H3 & H4).
  split; [assumption|]. split.
  { intros Hown. rewrite findValueByKey_unfold by assumption. now rewrite Hown. }
  split.
  { intros Hown pre x post r Hch Hpre Ex Hx Hr.
    rewrite findValueByKey_unfold by assumption.
    rewrite Hown, Hch, first_found_skips by assumption.
    cbn [first_found]. rewrite Ex, Hx.
    destruct r as [[r|]|]; [reflexivity|congruence|reflexivity]. }
  rewrite H1. split; [|split].
  - rewrite <- H2. split; [now intros [= ->]|now intros ->].
  - intros r [= Hr]. now apply H3.
  - intros [= Hb]. now apply H4.
Qed.

Lemma findValueByKey_searches_mappings_and_arrays_witness :
  findValueByKey sample_prototypes
    (VObj [("a", VArr [VObj [("b", VNum 1)]])]) "b"
  = Returned (safeFindValueByKey sample_prototypes
                (VObj [("a", VArr [VObj [("b", VNum 1)]])]) "b").
Proof.
  exact (proj1 (findValueByKey_searches_mappings_and_arrays sample_prototypes
                  (VObj [("a", VArr [VObj [("b", VNum 1)]])]) "b" eq_refl)).
Defined.

(** C4 as stated fails: the search goes into an array and finds the key in
    one of its elements, where the specification reports Absent. *)
Lemma findValueByKey_descends_into_array :
  findValueByKey sample_prototypes
    (VObj [("a", VArr [VObj [("b", VNum 1)]])]) "b"
  = Returned (Within (Some (VNum 1)))
  /\ safeFindValueByKey sample_prototypes
       (VObj [("a", VArr [VObj [("b", VNum 1)]])]) "b"
     = Within (Some (VNum 1))
  /\ findFirstByKey_spec (VObj [("a", VArr [VObj [("b", VNum 1)]])]) "b" = None.
Proof. repeat split. Qed.

(** On a tree without arrays, and for a key that objects do not inherit,
    the search is the one the specification describes. *)
(** A name that the object only inherits is found by [key in obj]; the
    own value wins where there is one. *)
Example findValueByKey_inherited_name :
  findValueByKey sample_prototypes (VObj [("a", VNum 1)]) "toString"
  = Returned Beyond
  /\ findValueByKey sample_prototypes
       (VObj [("a", VObj [("toString", VNum 1)])]) "toString"
     = Returned Beyond
  /\ findValueByKey sample_prototypes (VObj [("toString", VNum 1)]) "toString"
     = Returned (Within (Some (VNum 1))).
Proof. repeat split. Qed.

Lemma safeFindValueByKey_without_arrays (E : prototypes) (key : string)
    (obj : value) :
  no_array obj = true -> inherits E KObject key = false ->
  safeFindValueByKey E obj key = Within (findFirstByKey_spec obj key).
Proof.
  intros Hna Hi. revert Hna.
  induction obj as [| | | |l IH|o IH] using value_ind; try reflexivity.
  - discriminate.
  - cbn [safeFindValueByKey findFirstByKey_spec no_array]. intros Hna.
    unfold has_in, has_prop, get. cbn [get_prop kind_of]. rewrite Hi.
    destruct (lookup key o) as [v|]; [reflexivity|]. cbn [orb].
    induction o as [|[k x] o IHo]; [reflexivity|].
    cbn [forallb snd] in Hna. apply andb_prop in Hna as [Hx Ho].
    inversion IH as [|? ? IHx IHrest]; subst. cbn [snd] in IHx.
    specialize (IHo IHrest Ho).
    destruct x as [| | | |l|o']; try (exact IHo); [discriminate|].
    cbn [is_object is_mapping]. rewrite (IHx Hx).
    destruct (findFirstByKey_spec (VObj o') key); [reflexivity|exact IHo].
Qed.

(** ** [flattenObject] *)

Lemma flattenObject_unfold (E : prototypes) (obj : value) (prefix : string) :
  is_object obj = true ->
  flattenObject E obj prefix
  = VObj (flatten_members E prefix (entries_of obj) []).
Proof.
  destruct obj as [| | | |l|o]; try discriminate; intros _; simpl; f_equal.
  - unfold index_entries. generalize (@nil (string * value)) as acc.
    generalize 0%N as i.
    induction l as [|x l IH]; intros i acc; simpl; [reflexivity|]. apply IH.
  - generalize (@nil (string * value)) as acc.
    induction o as [|[k x] o IH]; intros acc; simpl; [reflexivity|]. apply IH.
Qed.

Lemma leaves_unfold (obj : value) :
  is_object obj = true -> leaves obj = leaves_members (entries_of obj).
Proof.
  destruct obj as [| | |s|l|o]; try discriminate; intros _.
  - unfold leaves_members, entries_of, index_entries. simpl.
    generalize 0%N as i.
    induction l as [|x l IH]; intros i; simpl; [reflexivity|].
    now rewrite <- IH.
  - unfold leaves_members. simpl.
    induction o as [|[k x] o IH]; simpl; [reflexivity|]. now rewrite <- IH.
Qed.

Lemma flatten_members_nodup (E : prototypes) (prefix : string)
    (ms : list (string * value)) :
  forall acc, NoDup (map fst acc) ->
              NoDup (map fst (flatten_members E prefix ms acc)).
Proof.
  induction ms as [|[key x] ms IH]; intros acc H; simpl; [assumption|].
  apply IH. destruct (is_object x).
  - now apply keys_assign_members_nodup.
  - now apply keys_set_member_nodup.
Qed.

(** *** The entries of the result are the leaves *)

Lemma keyed_app (prefix : string) (a b : list (list string * value)) :
  keyed prefix (a ++ b) = keyed prefix a ++ keyed prefix b.
Proof. apply map_app. Qed.

Lemma keyed_below (prefix key : string) (ls : list (list string * value)) :
  keyed prefix (map (fun px => (key :: fst px, snd px)) ls)
  = keyed (newKey_of prefix key) ls.
Proof. unfold keyed. rewrite map_map. reflexivity. Qed.

Lemma flatten_members_lookup (E : prototypes) (k : string)
    (ms : list (string * value)) :
  Forall (fun x => forall prefix,
            get_prop (flattenObject E x prefix) k
            = if dropped E k then None
              else lookup k (rev (keyed prefix (leaves x)))) (map snd ms) ->
  forall prefix acc,
    (dropped E k = true -> lookup k acc = None ->
     lookup k (flatten_members E prefix ms acc) = None)
    /\ (dropped E k = false ->
        lookup k (flatten_members E prefix ms acc)
        = match lookup k (rev (keyed prefix (leaves_members ms))) with
          | Some v => Some v
          | None => lookup k acc
          end).
Proof.
  induction ms as [|[key x] ms IH]; intros HQ prefix acc;
    cbn [flatten_members]; [now split|].
  inversion HQ as [|? ? Hx Hrest]; subst. cbn [snd] in Hx.
  destruct (IH Hrest prefix
              (if is_object x
               then assign_members E acc
                      (entries_of (flattenObject E x (newKey_of prefix key)))
               else set_member E (newKey_of prefix key) x acc)) as [IH1 IH2].
  split.
  - intros Dk Hnone. apply IH1; [assumption|].
    assert (Hk : has_key k acc = false) by now apply has_key_false.
    destruct (is_object x).
    + now rewrite lookup_assign_members, Dk, Hk.
    + now rewrite lookup_set_member, Dk, Hk.
  - intros Dk. rewrite (IH2 Dk). cbn [leaves_members flat_map fst snd].
    fold (leaves_members ms).
    rewrite keyed_app, rev_app_distr, lookup_app.
    destruct (lookup k (rev (keyed prefix (leaves_members ms))));
      [reflexivity|].
    destruct (is_object x) eqn:Ex.
    + rewrite keyed_below. specialize (Hx (newKey_of prefix key)).
      rewrite Dk in Hx. rewrite <- Hx, lookup_assign_members, Dk.
      cbn [andb]. rewrite flattenObject_unfold by assumption.
      cbn [entries_of get_prop].
      rewrite lookup_rev_nodup; [reflexivity|].
      apply flatten_members_nodup. constructor.
    + rewrite lookup_set_member, Dk. cbn [andb keyed map rev app lookup fst snd].
      unfold path_key. cbn [fold_left].
      now destruct (newKey_of prefix key =? k).
Qed.

Lemma flattenObject_lookup (E : prototypes) (k : string) (obj : value) :
  forall prefix,
    get_prop (flattenObject E obj prefix) k
    = if dropped E k then None
      else lookup k (rev (keyed prefix (leaves obj))).
Proof.
  induction obj as [| | | |l IH|o IH] using value_ind; intros prefix;
    try (cbn; now destruct (dropped E k)).
  - rewrite flattenObject_unfold, leaves_unfold by reflexivity.
    cbn [get_prop].
    destruct (flatten_members_lookup E k (entries_of (VArr l))) with
      (prefix := prefix) (acc := @nil (string * value)) as [H1 H2].
    { cbn [entries_of]. unfold index_entries.
      now rewrite map_snd_index_entries_from. }
    destruct (dropped E k) eqn:Dk.
    + now apply H1.
    + rewrite (H2 eq_refl).
      now destruct (lookup k (rev (keyed prefix (leaves_members _)))).
  - rewrite flattenObject_unfold, leaves_unfold by reflexivity.
    cbn [get_prop].
    destruct (flatten_members_lookup E k (entries_of (VObj o))) with
      (prefix := prefix) (acc := @nil (string * value)) as [H1 H2].
    { cbn [entries_of]. now apply Forall_map. }
    destruct (dropped E k) eqn:Dk.
    + now apply H1.
    + rewrite (H2 eq_refl).
      now destruct (lookup k (rev (keyed prefix (leaves_members _)))).
Qed.

Lemma leaves_are_scalars (obj : value) :
  Forall (fun px => is_object (snd px) = false) (leaves obj).
Proof.
  induction obj as [| | | |l IH|o IH] using value_ind; try constructor.
  - rewrite leaves_unfold by reflexivity.
    assert (H : Forall (fun x => Forall (fun px => is_object (snd px) = false)
                                   (leaves x)) (children (VArr l)))
      by now rewrite children_array.
    unfold children in H. revert H.
    induction (entries_of (VArr l)) as [|[key x] es IHes]; simpl; intros H;
      [constructor|].
    inversion H; subst. apply Forall_app. split; [|auto].
    destruct (is_object x) eqn:Ex.
    + apply Forall_map. assumption.
    + now repeat constructor.
  - rewrite leaves_unfold by reflexivity. simpl.
    induction o as [|[key x] es IHes]; simpl; [constructor|].
    inversion IH; subst. apply Forall_app. split; [|auto].
    destruct (is_object x) eqn:Ex.
    + apply Forall_map. assumption.
    + now repeat constructor.
Qed.

(** *** Dotted keys *)

Lemma dotted_cons (a : string) (p : list string) :
  p <> [] -> dotted (a :: p) = a +++ String "." (dotted p).
Proof. destruct p; [congruence|reflexivity]. Qed.

Lemma dotted_merge_head (a k : string) (p : list string) :
  dotted ((a +++ String "." k) :: p) = a +++ String "." (dotted (k :: p)).
Proof.
  destruct p as [|k2 p]; [reflexivity|].
  rewrite !dotted_cons by discriminate.
  rewrite append_assoc. reflexivity.
Qed.

Lemma append_nonempty (a b : string) : a <> "" -> a +++ b <> "".
Proof. destruct a; [congruence|discriminate]. Qed.

Lemma path_key_dotted (p : list string) : forall prefix,
  prefix <> "" -> path_key prefix p = dotted (prefix :: p).
Proof.
  unfold path_key.
  induction p as [|k p IH]; intros prefix Hne; simpl fold_left; [reflexivity|].
  unfold newKey_of at 2.
  destruct (prefix =? "") eqn:E; [apply String.eqb_eq in E; congruence|].
  rewrite IH by now apply append_nonempty.
  rewrite dotted_merge_head.
  now rewrite (dotted_cons prefix (k :: p)) by discriminate.
Qed.

Lemma keyed_top_dotted (obj : value) :
  top_branches_named obj = true ->
  keyed "" (leaves obj)
  = map (fun px => (dotted (fst px), snd px)) (leaves obj).
Proof.
  destruct (is_object obj) eqn:Eo.
  - rewrite leaves_unfold by assumption. unfold top_branches_named.
    induction (entries_of obj) as [|[k x] es IH]; simpl; [reflexivity|].
    intros H. apply andb_prop in H as [Hk Hes].
    rewrite keyed_app, map_app, (IH Hes). f_equal.
    destruct (is_object x) eqn:Ex; [|reflexivity].
    simpl in Hk. apply negb_true_iff, String.eqb_neq in Hk.
    unfold keyed. rewrite !map_map. apply map_ext. intros [p v]. simpl.
    f_equal. change (fold_left newKey_of p (newKey_of "" k)) with (path_key k p).
    now apply path_key_dotted.
  - destruct obj; try reflexivity; discriminate.
Qed.

Lemma flattenObject_distinct_keys (E : prototypes) (obj : value)
    (prefix : string) :
  exists members,
    flattenObject E obj prefix = VObj members /\ NoDup (map fst members).
Proof.
  destruct (is_object obj) eqn:Eo.
  - rewrite flattenObject_unfold by assumption. eexists. split; [reflexivity|].
    apply flatten_members_nodup. constructor.
  - exists []. split; [|constructor]. destruct obj; try reflexivity; discriminate.
Qed.

(** C3, as amended.  Let [obj] have no object or array at the top level
    under the empty key.  [flattenObject(obj)] is a single-level mapping with
    distinct keys whose entries are the leaves of [obj]: the values that are
    neither mappings nor arrays, reached through mappings and arrays alike,
    each under the dot-joined sequence of the keys that lead to it, an
    element of an array being keyed by its index.  When two leaves have the
    same dotted key, the later one in traversal order is the entry.  One
    leaf gives no entry: the one under the key [__proto__], where objects
    inherit that name, since the assignment then reaches the accessor of
    [Object.prototype] and creates no member.  An input that is neither a
    mapping nor an array yields the empty mapping. *)
Theorem flattenObject_entries_are_leaves (E : prototypes) (obj : value)
    (Hnamed : top_branches_named obj = true) :
  (forall k,
     get_prop (flattenObject E obj "") k
     = if dropped E k then None
       else lookup k (rev (map (fun px => (dotted (fst px), snd px))
                             (leaves obj))))
  /\ (forall k v, get_prop (flattenObject E obj "") k = Some v ->
                  is_object v = false)
  /\ (exists members,
        flattenObject E obj "" = VObj members /\ NoDup (map fst members))
  /\ (is_object obj = false -> flattenObject E obj "" = VObj []).
Proof.
  assert (Hlk : forall k,
     get_prop (flattenObject E obj "") k
     = if dropped E k then None
       else lookup k (rev (map (fun px => (dotted (fst px), snd px))
                             (leaves obj)))).
  { intros k. rewrite flattenObject_lookup. now rewrite keyed_top_dotted. }
  split; [exact Hlk|]. split.
  { intros k v Hv. rewrite Hlk in Hv.
    destruct (dropped E k); [discriminate|]. apply lookup_in in Hv.
    apply in_rev, in_map_iff in Hv as [[p x] [[= _ ->] Hin]].
    pose proof (leaves_are_scalars obj) as Hs.
    rewrite Forall_forall in Hs. exact (Hs _ Hin). }
  split; [apply flattenObject_distinct_keys|].
  intros Ho. destruct obj; try reflexivity; discriminate.
Qed.

Lemma flattenObject_entries_are_leaves_witness :
  get_prop
    (flattenObject sample_prototypes
       (VObj [("a", VObj [("b", VNum 1); ("c", VObj [("d", VNum 2)])]);
              ("e", VArr [VStr "x"])]) "") "a.c.d"
  = Some (VNum 2).
Proof.
  exact (proj1 (flattenObject_entries_are_leaves sample_prototypes
                  (VObj [("a", VObj [("b", VNum 1); ("c", VObj [("d", VNum 2)])]);
                         ("e", VArr [VStr "x"])]) eq_refl) "a.c.d").
Defined.

(** The example of the specification. *)
Example flattenObject_example :
  flattenObject sample_prototypes
    (VObj [("a", VObj [("b", VNum 1); ("c", VObj [("d", VNum 2)])])]) ""
  = VObj [("a.b", VNum 1); ("a.c.d", VNum 2)].
Proof. reflexivity. Qed.

(** A leaf under the key [__proto__] at the top level gives no entry. *)
Example flattenObject_example_proto :
  flattenObject sample_prototypes
    (VObj [("__proto__", VNum 5); ("a", VNum 1)]) ""
  = VObj [("a", VNum 1)].
Proof. reflexivity. Qed.

(** C3 as stated fails: an array is descended into, its elements becoming
    entries under their indices, and an array given as input is flattened
    too. *)
Lemma flattenObject_descends_into_array :
  flattenObject sample_prototypes (VObj [("a", VArr [VNum 1; VNum 2])]) ""
  = VObj [("a.0", VNum 1); ("a.1", VNum 2)]
  /\ flatten_spec (VObj [("a", VArr [VNum 1; VNum 2])])
     = VObj [("a", VArr [VNum 1; VNum 2])]
  /\ flattenObject sample_prototypes (VObj [("a", VArr [VNum 1; VNum 2])]) ""
     <> flatten_spec (VObj [("a", VArr [VNum 1; VNum 2])])
  /\ flattenObject sample_prototypes (VArr [VNum 1]) "" = VObj [("0", VNum 1)]
  /\ flatten_spec (VArr [VNum 1]) = VObj [].
Proof. repeat split. discriminate. Qed.

(** ** [deepEqualJSON] and [equalJSON] *)

Lemma length_index_entries_from {A : Type} (l : list A) : forall i,
  List.length (index_entries_from i l) = List.length l.
Proof. induction l; intros i; simpl; auto. Qed.

Lemma deepEqualHelper_arrays (la lb : list value) :
  deepEqualHelper (VArr la) (VArr lb)
  = (List.length la =? List.length lb)%nat && every_item la lb.
Proof.
  reflexivity.
Qed.

Lemma deepEqualHelper_members (a b : value) :
  is_object a = true -> is_object b = true ->
  is_array a && is_array b = false ->
  deepEqualHelper a b
  = (List.length (entries_of a) =? List.length (entries_of b))%nat
    && every_member b (entries_of a).
Proof.
  destruct a as [| | | |la|oa]; try discriminate;
    destruct b as [| | | |lb|ob]; try discriminate; intros _ _ _.
  - cbn [deepEqualHelper strict_equals orb]. unfold every_member.
    cbn [entries_of]. unfold index_entries.
    rewrite length_index_entries_from, length_map. f_equal.
    generalize 0%N as i.
    induction la as [|x la IH]; intros i; [reflexivity|].
    cbn [forallb fst snd index_entries_from]. f_equal. apply IH.
  - cbn [deepEqualHelper strict_equals orb]. unfold every_member.
    cbn [entries_of]. rewrite length_map. f_equal.
    induction oa as [|[k x] oa IH]; [reflexivity|].
    cbn [forallb fst snd]. f_equal. exact IH.
  - cbn [deepEqualHelper strict_equals orb]. unfold every_member.
    cbn [entries_of]. rewrite length_map. f_equal.
    induction oa as [|[k x] oa IH]; [reflexivity|].
    cbn [forallb fst snd]. f_equal. exact IH.
Qed.

Lemma deepEqualHelper_scalar_l (a b : value) :
  is_object a = false -> deepEqualHelper a b = strict_equals a b.
Proof.
  destruct a; try discriminate; intros _; simpl;
    destruct b; simpl; try reflexivity; apply orb_false_r.
Qed.

Lemma deepEqualHelper_scalar_r (a b : value) :
  is_object a = true -> is_object b = false -> deepEqualHelper a b = false.
Proof.
  destruct a; try discriminate; destruct b; try discriminate; reflexivity.
Qed.

Lemma strict_equals_sym (a b : value) : strict_equals a b = strict_equals b a.
Proof.
  destruct a, b; simpl; try reflexivity.
  - now destruct b, b0.
  - apply Z.eqb_sym.
  - apply String.eqb_sym.
Qed.

Lemma strict_equals_refl (a : value) :
  is_object a = false -> strict_equals a a = true.
Proof.
  destruct a; try discriminate; intros _; simpl; try reflexivity.
  - now destruct b.
  - apply Z.eqb_refl.
  - apply String.eqb_refl.
Qed.

(** *** Members of well-formed values *)

Lemma keys_ordered_nodup (ks : list string) :
  keys_ordered ks = true -> NoDup ks.
Proof.
  induction ks as [|k ks IH]; simpl; intros H; constructor.
  - apply andb_prop in H as [H _]. rewrite forallb_forall in H.
    intros Hin. now apply H, key_before_neq in Hin.
  - apply andb_prop in H as [_ H]. auto.
Qed.

Lemma in_lookup_nodup {A : Type} (k : string) (x : A) (o : list (string * A)) :
  NoDup (map fst o) -> In (k, x) o -> lookup k o = Some x.
Proof.
  induction o as [|[k' x'] o IH]; simpl; [contradiction|].
  intros H Hin. inversion H as [|? ? Hfresh Hrest]; subst.
  destruct Hin as [[= -> ->]|Hin].
  - now rewrite String.eqb_refl.
  - destruct (k' =? k) eqn:E; [|auto].
    apply String.eqb_eq in E. subst k'. exfalso. apply Hfresh.
    now apply (in_map fst) in Hin.
Qed.

Lemma wf_entries_nodup (v : value) :
  wf_value v = true -> NoDup (map fst (entries_of v)).
Proof. intros H. now apply keys_ordered_nodup, wf_entries_ordered. Qed.

Lemma wf_children (v x : value) :
  wf_value v = true -> is_object v = true -> In x (children v) ->
  wf_value x = true.
Proof.
  destruct v as [| | | |l|o]; try discriminate; intros H _ Hin.
  - rewrite children_array in Hin. simpl in H.
    rewrite forallb_forall in H. auto.
  - simpl in H. apply andb_prop in H as [_ H]. rewrite forallb_forall in H.
    unfold children in Hin. simpl in Hin.
    apply in_map_iff in Hin as [kv [<- Hkv]]. auto.
Qed.

Lemma in_index_entries_from {A : Type} (k : string) (x : A) (l : list A) :
  forall j, In (k, x) (index_entries_from j l) ->
  exists n, k = print_N (j + N.of_nat n) /\ nth_error l n = Some x.
Proof.
  induction l as [|y l IH]; intros j; simpl; [contradiction|].
  intros [[= <- <-]|Hin].
  - exists 0. split; [|reflexivity]. f_equal. lia.
  - destruct (IH _ Hin) as (n & -> & Hn). exists (S n). split; [|assumption].
    f_equal. lia.
Qed.

Lemma get_prop_entry (b : value) (k : string) (x : value) :
  wf_value b = true -> is_object b = true ->
  In (k, x) (entries_of b) -> get_prop b k = Some x.
Proof.
  intros Hwf Hob Hin. destruct b as [| | | |l|o]; try discriminate.
  - simpl in Hin. apply in_index_entries_from in Hin as (n & -> & Hn).
    cbn [get_prop]. unfold indexed_get. rewrite canonical_index_print.
    now rewrite N.add_0_l, Nat2N.id.
  - simpl. apply in_lookup_nodup; [|assumption].
    now apply (wf_entries_nodup (VObj o)).
Qed.

Lemma in_keys_entry {A : Type} (k : string) (o : list (string * A)) :
  In k (map fst o) -> exists x, In (k, x) o.
Proof.
  intros H. apply in_map_iff in H as [[k' x] [E Hin]]. simpl in E. subst.
  now exists x.
Qed.

Lemma existsb_key (k : string) (ks : list string) :
  existsb (String.eqb k) ks = true <-> In k ks.
Proof.
  rewrite existsb_exists. split.
  - intros [k' [Hin E]]. apply String.eqb_eq in E. now subst.
  - intros Hin. exists k. split; [assumption|apply String.eqb_refl].
Qed.

(** What the loop over the members of the first operand checks. *)
Lemma every_member_spec (b : value) (ea : list (string * value)) :
  wf_value b = true -> is_object b = true ->
  (every_member b ea = true <->
   forall k x, In (k, x) ea ->
     exists y, In (k, y) (entries_of b) /\ deepEqualHelper x y = true).
Proof.
  intros Hwf Hob. unfold every_member. rewrite forallb_forall. split.
  - intros H k x Hin. specialize (H _ Hin). simpl in H.
    apply andb_prop in H as [Hk Hv]. apply existsb_key, in_keys_entry in Hk
      as [y Hy].
    rewrite (get_prop_entry b k y) in Hv by assumption. now exists y.
  - intros H [k x] Hin. destruct (H k x Hin) as (y & Hy & Hxy). simpl.
    rewrite (get_prop_entry b k y), Hxy by assumption.
    rewrite andb_true_r. apply existsb_key. now apply (in_map fst) in Hy.
Qed.

Lemma entries_match_sym {A : Type} (R : A -> A -> Prop)
    (ea eb : list (string * A)) :
  NoDup (map fst ea) -> NoDup (map fst eb) ->
  List.length ea = List.length eb ->
  (forall k x, In (k, x) ea -> exists y, In (k, y) eb /\ R x y) ->
  forall k y, In (k, y) eb -> exists x, In (k, x) ea /\ R x y.
Proof.
  intros Na Nb Hlen Hfwd k y Hy.
  assert (Hincl : incl (map fst eb) (map fst ea)).
  { apply NoDup_length_incl; [assumption| |].
    - rewrite !length_map. lia.
    - intros k' Hk'. apply in_keys_entry in Hk' as [x Hx].
      destruct (Hfwd _ _ Hx) as (y' & Hy' & _). now apply (in_map fst) in Hy'. }
  assert (Hk : In k (map fst ea)) by (apply Hincl; now apply (in_map fst) in Hy).
  apply in_keys_entry in Hk as [x Hx]. exists x. split; [assumption|].
  destruct (Hfwd _ _ Hx) as (y' & Hy' & Hxy).
  apply (in_lookup_nodup _ _ _ Nb) in Hy, Hy'. congruence.
Qed.

(** *** Reflexivity *)

Lemma every_item_refl (l : list value) :
  Forall (fun x => wf_value x = true -> deepEqualHelper x x = true) l ->
  forallb wf_value l = true -> every_item l l = true.
Proof.
  induction 1 as [|x l Hx _ IH]; simpl; [reflexivity|].
  intros H. apply andb_prop in H as [Hw Hl]. now rewrite Hx, IH.
Qed.

Lemma deepEqualHelper_refl (a : value) :
  wf_value a = true -> deepEqualHelper a a = true.
Proof.
  induction a as [| | | |l IH|o IH] using value_ind; intros Hwf;
    try (rewrite deepEqualHelper_scalar_l by reflexivity;
         now apply strict_equals_refl).
  - rewrite deepEqualHelper_arrays, Nat.eqb_refl. simpl.
    now apply every_item_refl.
  - rewrite deepEqualHelper_members, Nat.eqb_refl by reflexivity. simpl.
    apply every_member_spec; [assumption|reflexivity|].
    intros k x Hin. exists x. split; [assumption|].
    rewrite Forall_forall in IH. apply (IH _ Hin).
    apply (wf_children (VObj o)); [assumption|reflexivity|].
    unfold children. simpl. now apply (in_map snd) in Hin.
Qed.

(** *** Symmetry *)

Lemma every_item_sym (la : list value) :
  Forall (fun x => wf_value x = true ->
                   forall y, wf_value y = true ->
                   deepEqualHelper x y = true -> deepEqualHelper y x = true) la ->
  forall lb, List.length la = List.length lb ->
             forallb wf_value la = true -> forallb wf_value lb = true ->
             every_item la lb = true -> every_item lb la = true.
Proof.
  induction 1 as [|x la Hx _ IH]; intros lb Hlen Hwa Hwb; simpl.
  - destruct lb; [reflexivity|discriminate].
  - destruct lb as [|y lb]; [discriminate|]. simpl in *.
    apply andb_prop in Hwa as [Hwx Hla]. apply andb_prop in Hwb as [Hwy Hlb].
    intros H. apply andb_prop in H as [Hxy Hrest].
    rewrite (Hx Hwx y Hwy Hxy). apply IH; auto.
Qed.

Lemma members_sym_true (a b : value) :
  wf_value a = true -> wf_value b = true ->
  is_object a = true -> is_object b = true ->
  is_array a && is_array b = false ->
  Forall (fun x => wf_value x = true ->
                   forall y, wf_value y = true ->
                   deepEqualHelper x y = true -> deepEqualHelper y x = true)
         (children a) ->
  deepEqualHelper a b = true -> deepEqualHelper b a = true.
Proof.
  intros Ha Hb Oa Ob Hnot IH.
  rewrite (deepEqualHelper_members a b), (deepEqualHelper_members b a);
    try assumption; [|now rewrite andb_comm].
  intros H. apply andb_prop in H as [Hlen H]. apply Nat.eqb_eq in Hlen.
  rewrite Hlen, Nat.eqb_refl. simpl.
  rewrite every_member_spec in H by assumption.
  apply every_member_spec; [assumption|assumption|].
  intros k y Hy.
  destruct (entries_match_sym (fun x y => deepEqualHelper x y = true)
              (entries_of a) (entries_of b)
              (wf_entries_nodup a Ha) (wf_entries_nodup b Hb) Hlen H k y Hy)
    as (x & Hx & Hxy).
  exists x. split; [assumption|].
  assert (Hcx : In x (children a)) by (now apply (in_map snd) in Hx).
  assert (Hcy : In y (children b)) by (now apply (in_map snd) in Hy).
  rewrite Forall_forall in IH. apply (IH x Hcx); [| |assumption].
  - now apply (wf_children a).
  - now apply (wf_children b).
Qed.

Lemma deepEqualHelper_sym_true (a : value) :
  wf_value a = true ->
  forall c, wf_value c = true ->
            deepEqualHelper a c = true -> deepEqualHelper c a = true.
Proof.
  induction a as [| | | |la IH|oa IH] using value_ind; intros Ha c Hc;
    try (rewrite deepEqualHelper_scalar_l by reflexivity; intros H;
         destruct c; try discriminate H;
         rewrite deepEqualHelper_scalar_l by reflexivity;
         rewrite <- H; apply strict_equals_sym).
  - destruct (is_object c) eqn:Ec;
      [|rewrite deepEqualHelper_scalar_r by (reflexivity || assumption);
        discriminate].
    destruct c as [| | | |lc|oc]; try discriminate.
    + rewrite !deepEqualHelper_arrays. intros H.
      apply andb_prop in H as [Hlen H]. apply Nat.eqb_eq in Hlen.
      rewrite <- Hlen, Nat.eqb_refl. simpl.
      now apply every_item_sym with (la := la).
    + apply members_sym_true; try assumption; try reflexivity.
      now rewrite children_array.
  - destruct (is_object c) eqn:Ec;
      [|rewrite deepEqualHelper_scalar_r by (reflexivity || assumption);
        discriminate].
    apply members_sym_true; try assumption; try reflexivity.
    unfold children. simpl. now apply Forall_map.
Qed.


(** *** Key order *)




(** ** The codec: parsing the text of a value gives the value back *)

Lemma JSON_stringify_array (l : list value) :
  JSON_stringify (VArr l) = String "[" (print_items l +++ "]").
Proof. reflexivity. Qed.

Lemma JSON_stringify_object (o : list (string * value)) :
  JSON_stringify (VObj o) = String "{" (print_members o +++ "}").
Proof. reflexivity. Qed.

Lemma parse_escaped_char (c : ascii) (rest : string) :
  parse_string_body (escape_char c +++ rest)
  = match parse_string_body rest with
    | Some (t, r) => Some (String c t, r)
    | None => None
    end.
Proof.
  destruct c as [[|] [|] [|] [|] [|] [|] [|] [|]]; reflexivity.
Qed.

Lemma parse_escaped (s : string) (rest : string) :
  parse_string_body (escape s +++ String dquote rest) = Some (s, rest).
Proof.
  induction s as [|c s IH]; [reflexivity|].
  cbn [escape]. rewrite append_assoc, parse_escaped_char. now rewrite IH.
Qed.

Lemma value_head_not_ws (s : string) :
  value_head s = true -> skip_ws s = s.
Proof.
  destruct s as [|c s]; [reflexivity|].
  destruct c as [[|] [|] [|] [|] [|] [|] [|] [|]]; try discriminate; reflexivity.
Qed.

Lemma print_Z_head (n : Z) (rest : string) :
  exists c r, print_Z n +++ rest = String c r
              /\ (is_digit c || Ascii.eqb c "-")%bool = true.
Proof.
  destruct n as [|p|p].
  - exists "0"%char, rest. now split.
  - pose proof (print_N_starts_with_digit (Npos p) rest) as H.
    simpl print_Z. destruct (print_N (N.pos p) +++ rest) as [|c r];
      [discriminate|].
    exists c, r. simpl in H. now rewrite H.
  - eexists _, _. simpl. split; reflexivity.
Qed.

Lemma value_head_stringify (v : value) (rest : string) :
  value_head (JSON_stringify v +++ rest) = true.
Proof.
  destruct v as [|[|]|n|s|l|o]; try reflexivity.
  destruct (print_Z_head n rest) as (c & r & E & Hc).
  simpl JSON_stringify. rewrite E. simpl.
  apply orb_prop in Hc as [Hc|Hc]; [now rewrite Hc|].
  apply Ascii.eqb_eq in Hc. subst c. reflexivity.
Qed.

Lemma parse_value_number (fuel : nat) (c : ascii) (r : string) :
  (is_digit c || Ascii.eqb c "-")%bool = true ->
  parse_value (S fuel) (String c r)
  = match parse_number (String c r) with
    | Some (n, r') => Some (VNum n, r')
    | None => None
    end.
Proof.
  destruct c as [[|] [|] [|] [|] [|] [|] [|] [|]]; try discriminate;
    reflexivity.
Qed.

Lemma parse_value_open_array (fuel : nat) (r : string) :
  value_head r = true ->
  parse_value (S fuel) (String "[" r)
  = match parse_elements fuel r with
    | Some (l, r') => Some (VArr l, r')
    | None => None
    end.
Proof.
  destruct r as [|c r]; [discriminate|].
  destruct c as [[|] [|] [|] [|] [|] [|] [|] [|]]; try discriminate;
    reflexivity.
Qed.

Lemma parse_value_open_object (fuel : nat) (r : string) :
  parse_value (S fuel) (String "{" (String dquote r))
  = match parse_members fuel (String dquote r) with
    | Some (ms, r') => Some (VObj (from_entries ms), r')
    | None => None
    end.
Proof. reflexivity. Qed.

Lemma parse_elements_step (fuel : nat) (s r : string) (v : value) :
  parse_value fuel s = Some (v, r) ->
  parse_elements (S fuel) s
  = match strip_prefix "," (skip_ws r) with
    | Some r' =>
        match parse_elements fuel r' with
        | Some (l, r'') => Some (v :: l, r'')
        | None => None
        end
    | None =>
        match strip_prefix "]" (skip_ws r) with
        | Some r' => Some ([v], r')
        | None => None
        end
    end.
Proof. intros H. cbn [parse_elements]. now rewrite H. Qed.

Lemma after_comma (x : string) :
  strip_prefix "," (skip_ws (String "," x)) = Some x.
Proof. reflexivity. Qed.

Lemma quote_append (k : string) (s : string) :
  quote k +++ s = String dquote (escape k +++ String dquote s).
Proof. unfold quote. simpl. now rewrite append_assoc. Qed.

Lemma parse_members_step (fuel : nat) (k : string) (s r : string) (v : value) :
  parse_value fuel s = Some (v, r) ->
  parse_members (S fuel) (quote k +++ String ":" s)
  = match strip_prefix "," (skip_ws r) with
    | Some r' =>
        match parse_members fuel r' with
        | Some (ms, r'') => Some ((k, v) :: ms, r'')
        | None => None
        end
    | None =>
        match strip_prefix "}" (skip_ws r) with
        | Some r' => Some ([(k, v)], r')
        | None => None
        end
    end.
Proof.
  intros H. rewrite quote_append.
  change (parse_members (S fuel)
            (String dquote (escape k +++ String dquote (String ":" s))))
    with (match parse_string_body (escape k +++ String dquote (String ":" s)) with
          | Some (k, r1) =>
              match strip_prefix ":" (skip_ws r1) with
              | Some r2 =>
                  match parse_value fuel r2 with
                  | Some (v, r3) =>
                      match strip_prefix "," (skip_ws r3) with
                      | Some r4 =>
                          match parse_members fuel r4 with
                          | Some (ms, r5) => Some ((k, v) :: ms, r5)
                          | None => None
                          end
                      | None =>
                          match strip_prefix "}" (skip_ws r3) with
                          | Some r4 => Some ([(k, v)], r4)
                          | None => None
                          end
                      end
                  | None => None
                  end
              | None => None
              end
          | None => None
          end).
  rewrite parse_escaped. cbv beta iota.
  change (strip_prefix ":" (skip_ws (String ":" s))) with (Some s).
  cbv beta iota. now rewrite H.
Qed.

Lemma print_items_cons (x y : value) (l : list value) (rest : string) :
  print_items (x :: y :: l) +++ rest
  = JSON_stringify x +++ String "," (print_items (y :: l) +++ rest).
Proof. cbn [print_items]. now rewrite append_assoc. Qed.

Lemma print_members_cons (k : string) (x : value) (m : string * value)
    (o : list (string * value)) (rest : string) :
  print_members ((k, x) :: m :: o) +++ rest
  = quote k +++ String ":"
      (JSON_stringify x +++ String "," (print_members (m :: o) +++ rest)).
Proof.
  cbn [print_members]. destruct m as [k' x'].
  rewrite !append_assoc. cbn [String.append]. now rewrite append_assoc.
Qed.

Lemma print_members_one (k : string) (x : value) (rest : string) :
  print_members [(k, x)] +++ rest
  = quote k +++ String ":" (JSON_stringify x +++ rest).
Proof. cbn [print_members]. now rewrite append_assoc. Qed.

Lemma parse_printed_items (l : list value) :
  Forall reads_back l -> forallb wf_value l = true -> l <> [] ->
  forall fuel rest,
    items_weight l <= fuel ->
    parse_elements fuel (print_items l +++ String "]" rest) = Some (l, rest).
Proof.
  induction 1 as [|x l Hx _ IH]; [congruence|].
  intros Hwf _ fuel rest Hfuel. simpl in Hwf.
  apply andb_prop in Hwf as [Hwx Hwl].
  unfold items_weight in Hfuel. simpl in Hfuel.
  destruct fuel as [|fuel]; [lia|].
  destruct l as [|y l].
  - rewrite (parse_elements_step fuel _ (String "]" rest) x).
    + reflexivity.
    + apply Hx; [assumption|lia|reflexivity].
  - rewrite print_items_cons.
    rewrite (parse_elements_step fuel _
               (String "," (print_items (y :: l) +++ String "]" rest)) x).
    + rewrite after_comma, IH; [reflexivity|assumption|discriminate|].
      unfold items_weight. lia.
    + apply Hx; [assumption|lia|reflexivity].
Qed.

Lemma parse_printed_members (o : list (string * value)) :
  Forall (fun kv => reads_back (snd kv)) o ->
  forallb (fun kv => wf_value (snd kv)) o = true -> o <> [] ->
  forall fuel rest,
    members_weight o <= fuel ->
    parse_members fuel (print_members o +++ String "}" rest) = Some (o, rest).
Proof.
  induction 1 as [|[k x] o Hx _ IH]; [congruence|].
  intros Hwf _ fuel rest Hfuel. simpl in Hwf, Hx.
  apply andb_prop in Hwf as [Hwx Hwo].
  unfold members_weight in Hfuel. simpl in Hfuel.
  destruct fuel as [|fuel]; [lia|].
  destruct o as [|m o].
  - rewrite print_members_one.
    rewrite (parse_members_step fuel k _ (String "}" rest) x).
    + reflexivity.
    + apply Hx; [assumption|lia|reflexivity].
  - rewrite print_members_cons.
    rewrite (parse_members_step fuel k _
               (String "," (print_members (m :: o) +++ String "}" rest)) x).
    + rewrite after_comma, IH; [reflexivity|assumption|discriminate|].
      unfold members_weight. lia.
    + apply Hx; [assumption|lia|reflexivity].
Qed.

Lemma print_items_head (x : value) (l : list value) (rest : string) :
  value_head (print_items (x :: l) +++ rest) = true.
Proof.
  destruct l as [|y l].
  - apply value_head_stringify.
  - rewrite print_items_cons. apply value_head_stringify.
Qed.

Lemma print_members_head (m : string * value) (o : list (string * value))
    (rest : string) :
  exists r, print_members (m :: o) +++ rest = String dquote r.
Proof.
  destruct m as [k x]. destruct o as [|m' o].
  - rewrite print_members_one, quote_append. eauto.
  - rewrite print_members_cons, quote_append. eauto.
Qed.

Lemma parse_stringify (v : value) : reads_back v.
Proof.
  induction v as [|b|n|s|l IH|o IH] using value_ind;
    intros Hwf fuel rest Hfuel Hrest;
    (destruct fuel as [|fuel]; [simpl in Hfuel; lia|]).
  - reflexivity.
  - destruct b; reflexivity.
  - destruct (print_Z_head n rest) as (c & r & E & Hc).
    cbn [JSON_stringify]. rewrite E, parse_value_number by assumption.
    rewrite <- E. now rewrite parse_number_printed.
  - cbn [JSON_stringify]. rewrite quote_append.
    change (parse_value (S fuel)
              (String dquote (escape s +++ String dquote rest)))
      with (match parse_string_body (escape s +++ String dquote rest) with
            | Some (t, r') => Some (VStr t, r')
            | None => None
            end).
    now rewrite parse_escaped.
  - rewrite JSON_stringify_array. cbn [String.append].
    rewrite append_assoc. cbn [String.append].
    destruct l as [|x l]; [reflexivity|].
    rewrite parse_value_open_array by apply print_items_head.
    simpl in Hwf, Hfuel.
    rewrite parse_printed_items; try assumption; try discriminate;
      [reflexivity|unfold items_weight; simpl; lia].
  - rewrite JSON_stringify_object. cbn [String.append].
    rewrite append_assoc. cbn [String.append].
    destruct o as [|m o]; [reflexivity|].
    destruct (print_members_head m o (String "}" rest)) as [r E].
    rewrite E, parse_value_open_object, <- E.
    cbn [wf_value] in Hwf. simpl in Hfuel.
    apply andb_prop in Hwf as [Hkeys Hwf].
    rewrite parse_printed_members; try assumption; try discriminate.
    + now rewrite from_entries_ordered.
    + unfold members_weight. simpl. lia.
Qed.

(** *** The fuel [JSON_parse] supplies is enough *)

Lemma length_quote (k : string) : 2 <= String.length (quote k).
Proof. unfold quote. simpl. rewrite length_append. simpl. lia. Qed.

Lemma items_weight_le_length (l : list value) :
  Forall (fun x => weight x <= String.length (JSON_stringify x)) l ->
  items_weight l <= String.length (print_items l) + 1.
Proof.
  unfold items_weight.
  induction 1 as [|x l Hx Hl IH]; [simpl; lia|].
  cbn [fold_right].
  destruct l as [|y l]; [cbn [print_items fold_right]; lia|].
  cbn [fold_right] in IH.
  change (print_items (x :: y :: l))
    with (JSON_stringify x +++ String "," (print_items (y :: l))).
  rewrite length_append. cbn [String.length]. cbn [fold_right]. lia.
Qed.

Lemma members_weight_le_length (o : list (string * value)) :
  Forall (fun kv => weight (snd kv) <= String.length (JSON_stringify (snd kv))) o ->
  members_weight o <= String.length (print_members o) + 1.
Proof.
  unfold members_weight.
  induction 1 as [|[k x] o Hx Ho IH]; [simpl; lia|].
  cbn [snd] in Hx. pose proof (length_quote k) as Hk.
  cbn [fold_right snd].
  destruct o as [|m o].
  - cbn [print_members fold_right]. rewrite length_append.
    cbn [String.length]. lia.
  - cbn [fold_right] in IH.
    change (print_members ((k, x) :: m :: o))
      with (quote k +++ String ":" (JSON_stringify x +++
              String "," (print_members (m :: o)))).
    rewrite length_append. cbn [String.length]. rewrite length_append.
    cbn [String.length]. cbn [fold_right]. lia.
Qed.

Lemma weight_le_length (v : value) :
  weight v <= String.length (JSON_stringify v).
Proof.
  induction v as [|b|n|s|l IH|o IH] using value_ind.
  - simpl. lia.
  - destruct b; simpl; lia.
  - destruct (print_Z_head n "") as (c & r & E & _).
    rewrite append_nil_r in E. simpl. rewrite E. simpl. lia.
  - pose proof (length_quote s). simpl JSON_stringify. simpl weight. lia.
  - rewrite JSON_stringify_array. cbn [String.length].
    rewrite length_append. apply items_weight_le_length in IH.
    unfold items_weight in IH. simpl. lia.
  - rewrite JSON_stringify_object. cbn [String.length].
    rewrite length_append. apply members_weight_le_length in IH.
    unfold members_weight in IH. simpl. lia.
Qed.

Lemma JSON_parse_stringify (v : value) :
  wf_value v = true -> JSON_parse (JSON_stringify v) = Some v.
Proof.
  intros Hwf. unfold JSON_parse.
  pose proof (weight_le_length v) as Hw.
  pose proof (parse_stringify v Hwf
                (2 * String.length (JSON_stringify v) + 2) "") as H.
  rewrite append_nil_r in H. rewrite H; [reflexivity|lia|reflexivity].
Qed.

(** C6.  For every JSON value [v], [stringify] yields a text and [parse] of
    that text is [v] again, whatever the fallback: the result is
    structurally equal to [v] under [deepEqualJSON].  Consequently
    [deepCopy(v)] is a value structurally equal to [v]. *)
Theorem parse_stringify_round_trip (v fallback : value)
    (Hwf : wf_value v = true) :
  exists text copy,
    stringify v = Some text
    /\ parse text fallback = v
    /\ deepEqualJSON (parse text fallback) v = true
    /\ deepCopy v = Some copy
    /\ deepEqualJSON copy v = true.
Proof.
  exists (JSON_stringify v), v. unfold parse, deepCopy, deepEqualJSON.
  rewrite JSON_parse_stringify by assumption.
  repeat split; now apply deepEqualHelper_refl.
Qed.

Lemma parse_stringify_round_trip_witness :
  exists text copy,
    stringify (VObj [("0", VNull); ("a", VArr [VNum (-12); VStr "x"; VBool true]);
                     ("b", VObj [])]) = Some text
    /\ parse text (VNum 0)
       = VObj [("0", VNull); ("a", VArr [VNum (-12); VStr "x"; VBool true]);
               ("b", VObj [])]
    /\ deepEqualJSON (parse text (VNum 0))
         (VObj [("0", VNull); ("a", VArr [VNum (-12); VStr "x"; VBool true]);
                ("b", VObj [])]) = true
    /\ deepCopy (VObj [("0", VNull); ("a", VArr [VNum (-12); VStr "x"; VBool true]);
                       ("b", VObj [])]) = Some copy
    /\ deepEqualJSON copy
         (VObj [("0", VNull); ("a", VArr [VNum (-12); VStr "x"; VBool true]);
                ("b", VObj [])]) = true.
Proof.
  exact (parse_stringify_round_trip
           (VObj [("0", VNull); ("a", VArr [VNum (-12); VStr "x"; VBool true]);
                  ("b", VObj [])]) (VNum 0) eq_refl).
Defined.

(** ** The fuel of the parser

    Every call consumes at least one character, so that fuel twice the
    length of the text is never the reason for a failure: with that much
    fuel or more the parser gives one and the same answer. *)

Lemma skip_ws_length (s : string) :
  String.length (skip_ws s) <= String.length s.
Proof.
  induction s as [|c s IH]; simpl; [lia|]. destruct (is_ws c); simpl; lia.
Qed.

Lemma strip_prefix_length (p : string) : forall s r,
  strip_prefix p s = Some r ->
  String.length r + String.length p = String.length s.
Proof.
  induction p as [|a p IH]; intros s r; simpl.
  - intros [= ->]. lia.
  - destruct s as [|b s]; [discriminate|]. destruct (Ascii.eqb a b); [|discriminate].
    intros H. apply IH in H. simpl. lia.
Qed.

Lemma strip_after_ws_length (p s r : string) :
  strip_prefix p (skip_ws s) = Some r ->
  String.length r + String.length p <= String.length s.
Proof.
  intros H. apply strip_prefix_length in H. pose proof (skip_ws_length s). lia.
Qed.

Lemma cons_char_inv {R : Type} (x : ascii) (res : option (string * R))
    (t : string) (r : R) :
  cons_char x res = Some (t, r) -> exists t', res = Some (t', r).
Proof.
  destruct res as [[t' r']|]; simpl; [|discriminate]. intros [= _ <-]. eauto.
Qed.

Lemma parse_string_body_length (n : nat) : forall s t r,
  String.length s <= n ->
  parse_string_body s = Some (t, r) -> String.length r < String.length s.
Proof.
  induction n as [|n IH]; intros s t r Hn; destruct s as [|c s];
    try discriminate; simpl in Hn; [lia|].
  cbn [parse_string_body].
  destruct (Ascii.eqb c dquote); [intros [= _ <-]; simpl; lia|].
  destruct (Ascii.eqb c backslash).
  - destruct s as [|e r1]; [discriminate|].
    destruct (Ascii.eqb e "u").
    + destruct r1 as [|h1 [|h2 [|h3 [|h4 r2]]]]; try discriminate.
      destruct (unicode_escape h1 h2 h3 h4); [|discriminate].
      intros H. apply cons_char_inv in H as [t' H].
      apply IH in H; simpl in *; lia.
    + destruct (simple_escape e); [|discriminate].
      intros H. apply cons_char_inv in H as [t' H].
      apply IH in H; simpl in *; lia.
  - destruct (N_of_ascii c <? 32)%N; [discriminate|].
    intros H. apply cons_char_inv in H as [t' H].
    apply IH in H; simpl in *; lia.
Qed.

Lemma scan_uint_length (s : string) : forall d r,
  scan_uint s = (d, r) ->
  String.length r <= String.length s
  /\ (canonical_uint d = true -> String.length r < String.length s).
Proof.
  induction s as [|c s IH]; intros d r; cbn [scan_uint].
  - intros [= <- <-]. split; [simpl; lia|discriminate].
  - destruct (is_digit c).
    + destruct (scan_uint s) as [d' r'] eqn:E. intros [= _ <-].
      destruct (IH d' r' eq_refl) as [H _]. split; simpl; lia.
    + intros [= <- <-]. split; [simpl; lia|discriminate].
Qed.

Lemma parse_number_length (s : string) (n : Z) (r : string) :
  parse_number s = Some (n, r) -> String.length r < String.length s.
Proof.
  unfold parse_number.
  set (signed := match s with
                 | String c r0 => if Ascii.eqb c "-" then (true, r0) else (false, s)
                 | EmptyString => (false, s)
                 end).
  assert (Hs : String.length (snd signed) <= String.length s).
  { unfold signed. destruct s as [|c r0]; simpl; [lia|].
    destruct (Ascii.eqb c "-"); simpl; lia. }
  destruct signed as [neg s1]. simpl in Hs.
  destruct (scan_uint s1) as [d r1] eqn:E.
  destruct (canonical_uint d) eqn:C; [|discriminate].
  destruct (scan_uint_length s1 d r1 E) as [_ Hlt]. specialize (Hlt C).
  destruct (match r1 with String _ _ => _ | EmptyString => true end);
    [|discriminate].
  intros [= _ <-]. lia.
Qed.

Lemma keyword_length (rest : string) (v w : value) (s r : string) :
  keyword rest v s = Some (w, r) -> String.length r <= String.length s.
Proof.
  unfold keyword. destruct (strip_prefix rest s) eqn:E; [|discriminate].
  intros [= _ <-]. apply strip_prefix_length in E. lia.
Qed.

Lemma parse_consumes (fuel : nat) :
  (forall s v r, parse_value fuel s = Some (v, r) ->
                 String.length r < String.length s)
  /\ (forall s l r, parse_elements fuel s = Some (l, r) ->
                    String.length r < String.length s)
  /\ (forall s ms r, parse_members fuel s = Some (ms, r) ->
                     String.length r < String.length s).
Proof.
  induction fuel as [|fuel (IHv & IHe & IHm)]; [repeat split; discriminate|].
  split; [|split].
  - intros s v r. cbn [parse_value].
    pose proof (skip_ws_length s) as Hws.
    destruct (skip_ws s) as [|c r0]; [discriminate|]. simpl in Hws.
    destruct (Ascii.eqb c "n");
      [intros H; apply keyword_length in H; lia|].
    destruct (Ascii.eqb c "t");
      [intros H; apply keyword_length in H; lia|].
    destruct (Ascii.eqb c "f");
      [intros H; apply keyword_length in H; lia|].
    destruct (Ascii.eqb c dquote).
    { destruct (parse_string_body r0) as [[t r']|] eqn:E; [|discriminate].
      intros [= _ <-].
      apply (parse_string_body_length _ _ _ _ (le_n _)) in E. lia. }
    destruct (Ascii.eqb c "[").
    { destruct (strip_prefix "]" (skip_ws r0)) eqn:E.
      - intros [= _ <-]. apply strip_after_ws_length in E. simpl in E. lia.
      - destruct (parse_elements fuel r0) as [[l r']|] eqn:E'; [|discriminate].
        intros [= _ <-]. apply IHe in E'. lia. }
    destruct (Ascii.eqb c "{").
    { destruct (strip_prefix "}" (skip_ws r0)) eqn:E.
      - intros [= _ <-]. apply strip_after_ws_length in E. simpl in E. lia.
      - destruct (parse_members fuel r0) as [[ms r']|] eqn:E'; [|discriminate].
        intros [= _ <-]. apply IHm in E'. lia. }
    destruct (is_digit c || Ascii.eqb c "-"); [|discriminate].
    destruct (parse_number (String c r0)) as [[n r']|] eqn:E; [|discriminate].
    intros [= _ <-]. apply parse_number_length in E. simpl in E. lia.
  - intros s l r. cbn [parse_elements].
    destruct (parse_value fuel s) as [[v r1]|] eqn:Ev; [|discriminate].
    apply IHv in Ev.
    destruct (strip_prefix "," (skip_ws r1)) as [r2|] eqn:Ec.
    + apply strip_after_ws_length in Ec.
      destruct (parse_elements fuel r2) as [[l' r']|] eqn:E'; [|discriminate].
      intros [= _ <-]. apply IHe in E'. lia.
    + destruct (strip_prefix "]" (skip_ws r1)) as [r2|] eqn:Eb; [|discriminate].
      apply strip_after_ws_length in Eb. intros [= _ <-]. lia.
  - intros s ms r. cbn [parse_members].
    destruct (strip_prefix (String dquote "") (skip_ws s)) as [r0|] eqn:Eq;
      [|discriminate].
    apply strip_after_ws_length in Eq.
    destruct (parse_string_body r0) as [[k r1]|] eqn:Ek; [|discriminate].
    apply (parse_string_body_length _ _ _ _ (le_n _)) in Ek.
    destruct (strip_prefix ":" (skip_ws r1)) as [r2|] eqn:Ecol; [|discriminate].
    apply strip_after_ws_length in Ecol.
    destruct (parse_value fuel r2) as [[v r3]|] eqn:Ev; [|discriminate].
    apply IHv in Ev.
    destruct (strip_prefix "," (skip_ws r3)) as [r4|] eqn:Ec.
    + apply strip_after_ws_length in Ec.
      destruct (parse_members fuel r4) as [[ms' r']|] eqn:E'; [|discriminate].
      intros [= _ <-]. apply IHm in E'. lia.
    + destruct (strip_prefix "}" (skip_ws r3)) as [r4|] eqn:Eb; [|discriminate].
      apply strip_after_ws_length in Eb. intros [= _ <-]. lia.
Qed.

Lemma parse_fuel_enough (fuel : nat) :
  (forall s fuel', 2 * String.length s + 1 <= fuel -> fuel <= fuel' ->
                   parse_value fuel' s = parse_value fuel s)
  /\ (forall s fuel', 2 * String.length s + 2 <= fuel -> fuel <= fuel' ->
                      parse_elements fuel' s = parse_elements fuel s)
  /\ (forall s fuel', 2 * String.length s + 2 <= fuel -> fuel <= fuel' ->
                      parse_members fuel' s = parse_members fuel s).
Proof.
  induction fuel as [|fuel (IHv & IHe & IHm)]; [repeat split; intros; lia|].
  destruct (parse_consumes fuel) as (Cv & _ & _).
  split; [|split].
  - intros s [|fuel'] Hs Hf; [lia|]. cbn [parse_value].
    pose proof (skip_ws_length s) as Hws.
    destruct (skip_ws s) as [|c r0]; [reflexivity|]. simpl in Hws.
    pose proof (skip_ws_length r0) as Hws0.
    rewrite (IHe r0 fuel'), (IHm r0 fuel') by lia. reflexivity.
  - intros s [|fuel'] Hs Hf; [lia|]. cbn [parse_elements].
    rewrite (IHv s fuel') by lia.
    destruct (parse_value fuel s) as [[v r1]|] eqn:Ev; [|reflexivity].
    apply Cv in Ev.
    destruct (strip_prefix "," (skip_ws r1)) as [r2|] eqn:Ec; [|reflexivity].
    apply strip_after_ws_length in Ec. simpl in Ec.
    rewrite (IHe r2 fuel') by lia. reflexivity.
  - intros s [|fuel'] Hs Hf; [lia|]. cbn [parse_members].
    destruct (strip_prefix (String dquote "") (skip_ws s)) as [r0|] eqn:Eq;
      [|reflexivity].
    apply strip_after_ws_length in Eq. simpl in Eq.
    destruct (parse_string_body r0) as [[k r1]|] eqn:Ek; [|reflexivity].
    apply (parse_string_body_length _ _ _ _ (le_n _)) in Ek.
    destruct (strip_prefix ":" (skip_ws r1)) as [r2|] eqn:Ecol; [|reflexivity].
    apply strip_after_ws_length in Ecol. simpl in Ecol.
    rewrite (IHv r2 fuel') by lia.
    destruct (parse_value fuel r2) as [[v r3]|] eqn:Ev; [|reflexivity].
    apply Cv in Ev.
    destruct (strip_prefix "," (skip_ws r3)) as [r4|] eqn:Ec; [|reflexivity].
    apply strip_after_ws_length in Ec. simpl in Ec.
    rewrite (IHm r4 fuel') by lia. reflexivity.
Qed.

(** [JSON_parse] does not depend on the fuel it picks: more of it gives the
    same answer, a failure included. *)
Lemma JSON_parse_fuel (text : string) (fuel : nat) :
  2 * String.length text + 2 <= fuel ->
  parse_value fuel text = parse_value (2 * String.length text + 2) text.
Proof.
  intros H.
  destruct (parse_fuel_enough (2 * String.length text + 2)) as (Hv & _ & _).
  apply Hv; lia.
Qed.

(** ** [deepUpdate] *)

Lemma fold_left_ext_in {A B : Type} (f g : A -> B -> A) (l : list B) :
  (forall a x, In x l -> f a x = g a x) ->
  forall a, fold_left f l a = fold_left g l a.
Proof.
  induction l as [|x l IH]; intros H a; simpl; [reflexivity|].
  rewrite (H a x (or_introl eq_refl)). apply IH. intros a' y Hy.
  apply H. now right.
Qed.

Lemma mapping_test (v : value) :
  truthy v && is_object v && negb (is_array v) = is_mapping v.
Proof. destruct v; simpl; try reflexivity; now rewrite ?andb_false_r. Qed.

Lemma deepUpdate_at_unfold (depth : nat) (target updates : value) :
  wf_value updates = true ->
  deepUpdate_own_at (S depth) target updates
  = match updates with
    | VNull => target
    | _ => VObj (fold_left (update_step depth) (entries_of updates)
                   (spread target))
    end.
Proof.
  intros Hwf. cbn [deepUpdate_own_at]. rewrite JSON_parse_stringify by assumption.
  destruct updates; reflexivity.
Qed.

Lemma depth_of_positive (v : value) : 1 <= depth_of v.
Proof. destruct v; simpl; lia. Qed.

Lemma depth_of_child (v x : value) :
  is_object v = true -> In x (children v) -> depth_of x < depth_of v.
Proof.
  destruct v as [| | | |l|o]; try discriminate; intros _.
  - rewrite children_array. simpl.
    induction l as [|y l IH]; simpl; [contradiction|].
    intros [->|Hin]; [lia|]. specialize (IH Hin). lia.
  - unfold children. simpl.
    induction o as [|[k y] o IH]; simpl; [contradiction|].
    intros [->|Hin]; [lia|]. specialize (IH Hin). lia.
Qed.

Lemma mapping_child_of_object (v : value) (k : string) (x : value) :
  In (k, x) (entries_of v) -> is_mapping x = true -> is_object v = true.
Proof.
  destruct v as [| | |s| |]; try contradiction; try reflexivity.
  simpl. unfold index_entries, chars_of. generalize 0%N.
  induction (list_ascii_of_string s) as [|c cs IH]; simpl; intros n;
    [contradiction|].
  intros [[= _ <-]|Hin]; [discriminate|eauto].
Qed.

(** A stack deeper than [updates] needs changes nothing. *)
Lemma deepUpdate_at_stable (updates : value) :
  wf_value updates = true ->
  forall depth target,
    depth_of updates <= depth ->
    deepUpdate_own_at depth target updates = deepUpdate_own target updates.
Proof.
  unfold deepUpdate_own.
  induction updates as [| | | |l IH|o IH] using value_ind;
    intros Hwf depth target Hd;
    pose proof Hd as Hd'; simpl depth_of in Hd';
    (destruct depth as [|depth]; [lia|]);
    try (rewrite deepUpdate_at_unfold by assumption;
         change (depth_of _) with 1;
         rewrite deepUpdate_at_unfold by assumption).
  - reflexivity.
  - reflexivity.
  - reflexivity.
  - f_equal. apply fold_left_ext_in. intros acc [k x] Hin.
    unfold update_step. cbn [fst snd]. rewrite mapping_test.
    destruct (is_mapping x) eqn:Ex; [|reflexivity].
    now apply (mapping_child_of_object (VStr s)) in Hin.
  - remember (depth_of (VArr l)) as n eqn:En.
    destruct n as [|n]; [simpl in En; lia|].
    rewrite !deepUpdate_at_unfold by assumption.
    f_equal. apply fold_left_ext_in. intros acc [k x] Hin.
    unfold update_step. cbn [fst snd]. rewrite mapping_test.
    destruct (is_mapping x) eqn:Ex; [|reflexivity].
    assert (Hc : In x (children (VArr l))) by now apply (in_map snd) in Hin.
    pose proof (depth_of_child (VArr l) x eq_refl Hc) as Hlt.
    pose proof (wf_children (VArr l) x Hwf eq_refl Hc) as Hwx.
    rewrite children_array in Hc. rewrite Forall_forall in IH.
    rewrite (IH x Hc Hwx depth), (IH x Hc Hwx n) by lia. reflexivity.
  - remember (depth_of (VObj o)) as n eqn:En.
    destruct n as [|n]; [simpl in En; lia|].
    rewrite !deepUpdate_at_unfold by assumption.
    f_equal. apply fold_left_ext_in. intros acc [k x] Hin.
    unfold update_step. cbn [fst snd]. rewrite mapping_test.
    destruct (is_mapping x) eqn:Ex; [|reflexivity].
    assert (Hc : In x (children (VObj o))) by now apply (in_map snd) in Hin.
    pose proof (depth_of_child (VObj o) x eq_refl Hc) as Hlt.
    pose proof (wf_children (VObj o) x Hwf eq_refl Hc) as Hwx.
    cbn [entries_of] in Hin. rewrite Forall_forall in IH.
    rewrite (IH (k, x) Hin Hwx depth), (IH (k, x) Hin Hwx n) by (simpl; lia).
    reflexivity.
Qed.

Lemma update_fold_lookup (depth : nat) (k : string)
    (es : list (string * value)) :
  NoDup (map fst es) ->
  forall acc,
    lookup k (fold_left (update_step depth) es acc)
    = match lookup k es with
      | Some u =>
          if is_mapping u
          then Some (deepUpdate_own_at depth (or_empty (lookup k acc)) u)
          else Some u
      | None => lookup k acc
      end.
Proof.
  induction es as [|[k' u'] es IH]; intros Hnd acc; simpl; [reflexivity|].
  inversion Hnd as [|? ? Hfresh Hrest]; subst. rewrite (IH Hrest).
  assert (Hstep : update_step depth acc (k', u')
                  = if is_mapping u'
                    then obj_set k'
                           (deepUpdate_own_at depth (or_empty (lookup k' acc)) u') acc
                    else obj_set k' u' acc).
  { unfold update_step. cbn [fst snd]. now rewrite mapping_test. }
  rewrite Hstep. clear Hstep.
  destruct (k' =? k) eqn:E.
  - apply String.eqb_eq in E. subst k'.
    apply lookup_none_not_in in Hfresh. rewrite Hfresh.
    destruct (is_mapping u'); now rewrite lookup_obj_set_same.
  - apply String.eqb_neq in E.
    assert (Hother : forall v, lookup k (obj_set k' v acc) = lookup k acc)
      by (intros v; apply lookup_obj_set_other; congruence).
    destruct (is_mapping u'); now rewrite Hother.
Qed.

Lemma spread_wf (target : value) :
  wf_value target = true -> spread target = entries_of target.
Proof.
  intros H. unfold spread. now apply from_entries_ordered, wf_entries_ordered.
Qed.

(** What [deepUpdate_own] leaves at a key, for a mapping [updates]: a key that
    [updates] lacks reads as in [target]; a key whose incoming value is not
    a mapping reads as that value; a key whose incoming value is a mapping
    reads as the update of the existing value (of [{}] when that is absent
    or falsy) by it. *)
Lemma deepUpdate_member (target updates : value) (k : string) :
  wf_value target = true -> wf_value updates = true ->
  is_mapping updates = true ->
  get_prop (deepUpdate_own target updates) k
  = match lookup k (entries_of updates) with
    | Some u =>
        if is_mapping u
        then Some (deepUpdate_own (or_empty (lookup k (entries_of target))) u)
        else Some u
    | None => lookup k (entries_of target)
    end.
Proof.
  intros Ht Hu Hm. destruct updates as [| | | | |o]; try discriminate.
  unfold deepUpdate_own at 1.
  remember (depth_of (VObj o)) as n eqn:En.
  destruct n as [|n]; [simpl in En; lia|].
  rewrite deepUpdate_at_unfold by assumption. cbn [get_prop entries_of].
  rewrite update_fold_lookup by (now apply (wf_entries_nodup (VObj o))).
  rewrite spread_wf by assumption.
  destruct (lookup k o) as [u|] eqn:Eu; [|reflexivity].
  destruct (is_mapping u) eqn:Em; [|reflexivity].
  apply lookup_in in Eu.
  assert (Hc : In u (children (VObj o))) by now apply (in_map snd) in Eu.
  pose proof (depth_of_child (VObj o) u eq_refl Hc) as Hlt.
  pose proof (wf_children (VObj o) u Hu eq_refl Hc) as Hwu.
  rewrite deepUpdate_at_stable by (assumption || lia). reflexivity.
Qed.

(** Updating a mapping by the empty mapping changes nothing. *)
Lemma deepUpdate_identity_on_empty (target : value) :
  wf_value target = true -> is_mapping target = true ->
  deepUpdate_own target (VObj []) = target.
Proof.
  intros Hwf Hm. destruct target; try discriminate.
  unfold deepUpdate_own. simpl depth_of. rewrite deepUpdate_at_unfold by reflexivity.
  simpl fold_left. now rewrite spread_wf.
Qed.

(** *** [deepUpdate] on updates free of the key [__proto__] *)

Lemma update_member_plain (E : prototypes) (key : string) (v : value)
    (acc : list (string * value)) :
  (key =? "__proto__") = false ->
  update_member E key v acc = Within (obj_set key v acc).
Proof.
  intros H. unfold update_member, set_member, reaches_accessor.
  now rewrite H.
Qed.

Lemma deepUpdate_at_unfold_in (E : prototypes) (depth : nat)
    (target updates : value) :
  wf_value updates = true ->
  deepUpdate_at E (S depth) target updates
  = match updates with
    | VNull => Within target
    | _ =>
        match fold_left (update_step_in E depth) (entries_of updates)
                (Within (spread target)) with
        | Within members => Within (VObj members)
        | Beyond => Beyond
        end
    end.
Proof.
  intros Hwf. cbn [deepUpdate_at]. rewrite JSON_parse_stringify by assumption.
  destruct updates; reflexivity.
Qed.

Lemma update_fold_proto_free (E : prototypes) (depth : nat)
    (es : list (string * value)) :
  (forall target updates,
     wf_value updates = true -> is_mapping updates = true ->
     proto_free updates = true ->
     deepUpdate_at E depth target updates
     = Within (deepUpdate_own_at depth target updates)) ->
  (forall kv, In kv es -> wf_value (snd kv) = true) ->
  forallb (fun kv => negb (fst kv =? "__proto__") && proto_free (snd kv)) es
  = true ->
  forall acc,
    fold_left (update_step_in E depth) es (Within acc)
    = Within (fold_left (update_step depth) es acc).
Proof.
  intros IHd. induction es as [|[k u] es IH]; intros Hwf Hp acc;
    [reflexivity|].
  cbn [forallb fst snd] in Hp. apply andb_prop in Hp as [Hku Hes].
  apply andb_prop in Hku as [Hk Hu]. apply negb_true_iff in Hk.
  cbn [fold_left].
  assert (Hstep : update_step_in E depth (Within acc) (k, u)
                  = Within (update_step depth acc (k, u))).
  { unfold update_step_in, update_step. cbn [fst snd]. rewrite mapping_test.
    destruct (is_mapping u) eqn:Em.
    - rewrite IHd; [now apply update_member_plain| |assumption|assumption].
      apply (Hwf (k, u)). now left.
    - now apply update_member_plain. }
  rewrite Hstep. apply IH; [|assumption]. intros kv Hin. apply Hwf. now right.
Qed.

Lemma deepUpdate_at_proto_free (E : prototypes) (depth : nat) :
  forall target updates,
    wf_value updates = true -> is_mapping updates = true ->
    proto_free updates = true ->
    deepUpdate_at E depth target updates
    = Within (deepUpdate_own_at depth target updates).
Proof.
  induction depth as [|depth IH]; intros target updates Hwf Hm Hp;
    [reflexivity|].
  rewrite deepUpdate_at_unfold_in, deepUpdate_at_unfold by assumption.
  destruct updates as [| | | | |o]; try discriminate. cbn [entries_of].
  rewrite (update_fold_proto_free E depth o IH); [reflexivity| |exact Hp].
  intros kv Hin. apply (wf_children (VObj o)); [assumption|reflexivity|].
  unfold children. cbn [entries_of]. now apply in_map.
Qed.

(** On updates that are a mapping free of the key [__proto__], [deepUpdate]
    creates or replaces a member with every assignment. *)
Lemma deepUpdate_proto_free (E : prototypes) (target updates : value) :
  wf_value updates = true -> is_mapping updates = true ->
  proto_free updates = true ->
  deepUpdate E target updates = Within (deepUpdate_own target updates).
Proof. intros. now apply deepUpdate_at_proto_free. Qed.

(** C2 at its failing input.  An existing array met by an incoming mapping is
    not replaced: the array is spread into index members and the incoming
    members are added to them. *)
Theorem deepUpdate_merges_into_existing_array (E : prototypes) :
  deepUpdate E (VObj [("a", VArr [VNum 1; VNum 2])])
               (VObj [("a", VObj [("x", VNum 1)])])
  = Within (VObj [("a", VObj [("0", VNum 1); ("1", VNum 2); ("x", VNum 1)])])
  /\ deepUpdate E (VObj [("a", VArr [VNum 1; VNum 2])])
                  (VObj [("a", VObj [("x", VNum 1)])])
     <> Within (VObj [("a", VObj [("x", VNum 1)])]).
Proof.
  rewrite deepUpdate_proto_free by reflexivity.
  split; [vm_compute; reflexivity|vm_compute; discriminate].
Qed.

(** ** [deepMerge] on mappings *)

(** With an empty [target] the spliced text opens with a comma after the
    brace; no amount of fuel parses it. *)
Lemma spliced_text_of_empty_target (fuel : nat) (rest : string) :
  parse_value fuel (String "{" (String "," rest)) = None.
Proof.
  destruct fuel as [|[|fuel]]; reflexivity.
Qed.

Lemma deepMerge_empty_target (source : value) :
  deepMerge (VObj []) source = VObj [].
Proof.
  unfold deepMerge, JSON_parse. simpl slice_1_m1. simpl String.append.
  now rewrite spliced_text_of_empty_target.
Qed.

Lemma drop_last_append (s : string) (c : ascii) :
  drop_last (s +++ String c "") = s.
Proof.
  induction s as [|a s IH]; [reflexivity|].
  cbn [String.append drop_last]. rewrite IH.
  now destruct s.
Qed.

Lemma slice_stringify_object (o : list (string * value)) :
  slice_1_m1 (JSON_stringify (VObj o)) = print_members o.
Proof. rewrite JSON_stringify_object. apply drop_last_append. Qed.

Lemma print_members_app (o1 o2 : list (string * value)) :
  o1 <> [] -> o2 <> [] ->
  print_members o1 +++ String "," (print_members o2) = print_members (o1 ++ o2).
Proof.
  intros H1 H2. induction o1 as [|[k x] o1 IH]; [congruence|].
  destruct o1 as [|m o1].
  - destruct o2 as [|m2 o2]; [congruence|].
    cbn [app print_members]. now rewrite append_assoc.
  - rewrite print_members_cons, IH by discriminate.
    destruct m as [k' x']. reflexivity.
Qed.

Lemma wf_members_read_back (o : list (string * value)) :
  wf_value (VObj o) = true ->
  Forall (fun kv => reads_back (snd kv)) o
  /\ forallb (fun kv => wf_value (snd kv)) o = true
  /\ keys_ordered (map fst o) = true.
Proof.
  intros H. cbn [wf_value] in H. apply andb_prop in H as [Hk Hv].
  split; [|now split]. apply Forall_forall. intros kv _. apply parse_stringify.
Qed.

Lemma members_weight_bound (o : list (string * value)) :
  members_weight o <= String.length (print_members o) + 1.
Proof.
  apply members_weight_le_length, Forall_forall. intros kv _.
  apply weight_le_length.
Qed.

(** The text of a non-empty list of members between braces parses to the
    object obtained by creating the members in order. *)
Lemma JSON_parse_members (o : list (string * value)) :
  Forall (fun kv => reads_back (snd kv)) o ->
  forallb (fun kv => wf_value (snd kv)) o = true -> o <> [] ->
  JSON_parse (String "{" (print_members o +++ "}"))
  = Some (VObj (from_entries o)).
Proof.
  intros Hrb Hwf Hne. unfold JSON_parse.
  pose proof (members_weight_bound o) as Hw.
  cbn [String.length]. rewrite length_append. cbn [String.length].
  replace (2 * S (String.length (print_members o) + 1) + 2)
    with (S (2 * String.length (print_members o) + 5)) by lia.
  destruct o as [|m o]; [congruence|].
  destruct (print_members_head m o "}") as [r E].
  rewrite E, parse_value_open_object, <- E.
  rewrite parse_printed_members; try assumption; [reflexivity|lia].
Qed.

(** After the last member a comma must be followed by another member. *)
Lemma parse_members_trailing_comma (o : list (string * value)) :
  Forall (fun kv => reads_back (snd kv)) o ->
  forallb (fun kv => wf_value (snd kv)) o = true -> o <> [] ->
  forall fuel rest,
    members_weight o <= fuel ->
    parse_members fuel (print_members o +++ String "," (String "}" rest))
    = None.
Proof.
  induction 1 as [|[k x] o Hx _ IH]; [congruence|].
  intros Hwf _ fuel rest Hfuel. simpl in Hwf, Hx.
  apply andb_prop in Hwf as [Hwx Hwo].
  unfold members_weight in Hfuel. simpl in Hfuel.
  destruct fuel as [|fuel]; [lia|].
  destruct o as [|m o].
  - rewrite print_members_one.
    rewrite (parse_members_step fuel k _ (String "," (String "}" rest)) x).
    + rewrite after_comma. now destruct fuel.
    + apply Hx; [assumption|lia|reflexivity].
  - rewrite print_members_cons.
    rewrite (parse_members_step fuel k _
               (String "," (print_members (m :: o)
                            +++ String "," (String "}" rest))) x).
    + rewrite after_comma, IH; [reflexivity|assumption|discriminate|].
      unfold members_weight. lia.
    + apply Hx; [assumption|lia|reflexivity].
Qed.

(** What [deepMerge] does on two mappings.  Both non-empty: the members of
    [target], then those of [source], are created on a new object, so a key
    of both has the value of [source].  Either one empty: the parse raises
    and [target] comes back. *)
Lemma deepMerge_on_mappings (ot os : list (string * value)) :
  wf_value (VObj ot) = true -> wf_value (VObj os) = true ->
  deepMerge (VObj ot) (VObj os)
  = match ot, os with
    | _ :: _, _ :: _ => VObj (from_entries (ot ++ os))
    | _, _ => VObj ot
    end.
Proof.
  intros Ht Hs. unfold deepMerge. rewrite !slice_stringify_object.
  destruct (wf_members_read_back ot Ht) as (Rt & Wt & _).
  destruct (wf_members_read_back os Hs) as (Rs & Ws & _).
  destruct ot as [|mt ot].
  - cbn [print_members String.append]. unfold JSON_parse.
    now rewrite spliced_text_of_empty_target.
  - destruct os as [|ms os].
    + change (print_members [] +++ "}") with "}". unfold JSON_parse.
      pose proof (members_weight_bound (mt :: ot)) as Hw.
      cbn [String.length]. rewrite length_append. cbn [String.length].
      replace (2 * S (String.length (print_members (mt :: ot)) + 2) + 2)
        with (S (2 * String.length (print_members (mt :: ot)) + 7)) by lia.
      destruct (print_members_head mt ot (String "," "}")) as [r E].
      rewrite E, parse_value_open_object, <- E.
      rewrite parse_members_trailing_comma; try assumption;
        [reflexivity|discriminate|lia].
    + replace (print_members (mt :: ot) +++ String "," (print_members (ms :: os) +++ "}"))
        with (print_members ((mt :: ot) ++ ms :: os) +++ "}").
      * rewrite JSON_parse_members; [reflexivity| | |discriminate].
        -- apply Forall_app. now split.
        -- rewrite forallb_app. now rewrite Wt, Ws.
      * rewrite <- print_members_app by discriminate.
        now rewrite append_assoc.
Qed.

Lemma deepMerge_member (ot os : list (string * value)) (k : string) :
  wf_value (VObj ot) = true -> wf_value (VObj os) = true ->
  ot <> [] -> os <> [] ->
  get_prop (deepMerge (VObj ot) (VObj os)) k
  = match lookup k os with
    | Some v => Some v
    | None => lookup k ot
    end.
Proof.
  intros Ht Hs Hnt Hns. rewrite deepMerge_on_mappings by assumption.
  destruct ot as [|mt ot]; [congruence|]. destruct os as [|ms os]; [congruence|].
  cbn [get_prop]. unfold from_entries. rewrite lookup_assign, rev_app_distr.
  rewrite lookup_app.
  rewrite !lookup_rev_nodup
    by (apply (wf_entries_nodup (VObj _)); assumption).
  now destruct (lookup k (ms :: os)), (lookup k (mt :: ot)).
Qed.

(** C1 at its failing input.  [deepMerge({}, source)] is [{}] for every
    [source]: with [source = {a:1}] the key [a] of [source] is missing from
    the result. *)
Theorem deepMerge_drops_source_on_empty_target :
  (forall source, deepMerge (VObj []) source = VObj [])
  /\ deepMerge (VObj []) (VObj [("a", VNum 1)]) = VObj []
  /\ get_prop (deepMerge (VObj []) (VObj [("a", VNum 1)])) "a" = None
  /\ get_prop (VObj [("a", VNum 1)]) "a" = Some (VNum 1).
Proof.
  split; [exact deepMerge_empty_target|].
  repeat split.
Qed.

(** ** The two combine operations on the inputs of the specification *)

(** C7.  On [target = {x:{p:1,q:2}}] and [source = {x:{q:3}}], [deepMerge]
    (the shallow combine) yields [{x:{q:3}}], losing [p], and [deepUpdate]
    (the recursive combine) yields [{x:{p:1,q:3}}]; the two results differ. *)
Theorem shallow_and_recursive_combine_diverge (E : prototypes) :
  let target := VObj [("x", VObj [("p", VNum 1); ("q", VNum 2)])] in
  let source := VObj [("x", VObj [("q", VNum 3)])] in
  deepMerge target source = VObj [("x", VObj [("q", VNum 3)])]
  /\ deepUpdate E target source
     = Within (VObj [("x", VObj [("p", VNum 1); ("q", VNum 3)])])
  /\ Within (deepMerge target source) <> deepUpdate E target source.
Proof.
  cbv zeta. rewrite deepUpdate_proto_free by reflexivity.
  split; [vm_compute; reflexivity|].
  split; [vm_compute; reflexivity|].
  vm_compute. discriminate.
Qed.

(** ** [mergeUniqueByKey] *)

Module RefsFacts.
Import Refs.

Lemma ref_strict_equals_refl (a : rvalue) : strict_equals a a = true.
Proof.
  destruct a; simpl; try reflexivity.
  - now destruct b.
  - apply Z.eqb_refl.
  - apply String.eqb_refl.
  - apply Nat.eqb_refl.
Qed.

Lemma ref_strict_equals_eq (a b : rvalue) : strict_equals a b = true <-> a = b.
Proof.
  split; [|intros ->; apply ref_strict_equals_refl].
  destruct a, b; simpl; try discriminate; intros H; f_equal.
  - reflexivity.
  - now apply Bool.eqb_prop.
  - now apply Z.eqb_eq.
  - now apply String.eqb_eq.
  - now apply Nat.eqb_eq.
Qed.

Lemma same_read_eq (x y : option rvalue) : same_read x y = true <-> x = y.
Proof.
  destruct x as [a|], y as [b|]; simpl; try (split; congruence).
  rewrite ref_strict_equals_eq. split; congruence.
Qed.

(** Every eligible element met so far has a representative: an eligible
    element before the run with the same value of the key, or a retained
    element of the run with it. *)
Lemma first_occurrences_represent (h : store) (key : string)
    (run : list rvalue) :
  forall earlier y,
    In y run -> eligible h key y = true ->
    (exists e, In e earlier /\ eligible h key e = true
               /\ get_prop h e key = get_prop h y key)
    \/ (exists item, In item (first_occurrences h key earlier run)
                     /\ get_prop h item key = get_prop h y key).
Proof.
  induction run as [|a run IH]; intros earlier y Hin Hy; [contradiction|].
  cbn [first_occurrences].
  set (seen := existsb
                 (fun y0 => eligible h key y0
                            && same_read (get_prop h y0 key) (get_prop h a key))
                 earlier).
  assert (Hseen : seen = true ->
            exists e, In e earlier /\ eligible h key e = true
                      /\ get_prop h e key = get_prop h a key).
  { unfold seen. rewrite existsb_exists. intros (e & He & Hb).
    apply andb_prop in Hb as [He1 He2]. apply same_read_eq in He2. eauto. }
  destruct Hin as [<-|Hin].
  - rewrite Hy. destruct seen eqn:Es; simpl.
    + left. now apply Hseen.
    + right. exists a. split; [now left|reflexivity].
  - destruct (IH (earlier ++ [a]) y Hin Hy) as [(e & He & Hel & Hk)|(item & Hi & Hk)].
    + apply in_app_or in He as [He|[<-|[]]].
      * left. eauto.
      * rewrite Hel. destruct seen eqn:Es; simpl.
        -- left. destruct (Hseen eq_refl) as (e' & He' & Hel' & Hk').
           exists e'. repeat split; congruence.
        -- right. exists a. split; [now left|assumption].
    + right. exists item. split; [|assumption]. apply in_or_app. now right.
Qed.

Lemma first_occurrences_app (h : store) (key : string) (a b : list rvalue) :
  forall earlier,
    first_occurrences h key earlier (a ++ b)
    = first_occurrences h key earlier a
      ++ first_occurrences h key (earlier ++ a) b.
Proof.
  induction a as [|x a IH]; intros earlier; simpl.
  - now rewrite List.app_nil_r.
  - rewrite IH, <- !List.app_assoc. reflexivity.
Qed.

Lemma first_occurrences_eligible (h : store) (key : string) (run : list rvalue) :
  forall earlier item,
    In item (first_occurrences h key earlier run) ->
    In item run /\ eligible h key item = true.
Proof.
  induction run as [|a run IH]; intros earlier item; simpl; [contradiction|].
  intros Hin. apply in_app_or in Hin as [Hin|Hin].
  - destruct (eligible h key a) eqn:Ea; simpl in Hin; [|contradiction].
    destruct (existsb _ earlier); simpl in Hin; [contradiction|].
    destruct Hin as [<-|[]]. split; [now left|assumption].
  - destruct (IH _ _ Hin). split; [now right|assumption].
Qed.

(** One step of the reduction, when the accumulator holds the first
    occurrences among the elements met so far. *)
Lemma retain_first_occurrences (h : store) (key : string)
    (met : list rvalue) (obj : rvalue) :
  retain h key (first_occurrences h key [] met) obj
  = first_occurrences h key [] (met ++ [obj]).
Proof.
  rewrite first_occurrences_app. cbn [first_occurrences app].
  rewrite List.app_nil_r. unfold retain. fold (eligible h key obj).
  destruct (eligible h key obj) eqn:Eo; simpl; [|now rewrite List.app_nil_r].
  assert (E : existsb (fun item => same_read (get_prop h item key)
                                     (get_prop h obj key))
                (first_occurrences h key [] met)
              = existsb (fun y => eligible h key y
                                  && same_read (get_prop h y key)
                                       (get_prop h obj key)) met).
  { apply eq_true_iff_eq. rewrite !existsb_exists. split.
    - intros (item & Hi & Hs). apply first_occurrences_eligible in Hi as [Hi He].
      exists item. split; [assumption|]. now rewrite He.
    - intros (y & Hy & Hb). apply andb_prop in Hb as [He Hs].
      apply same_read_eq in Hs.
      destruct (first_occurrences_represent h key met [] y Hy He)
        as [(e & [] & _)|(item & Hi & Hk)].
      exists item. split; [assumption|]. apply same_read_eq. congruence. }
  rewrite E. destruct (existsb _ met); simpl; [|reflexivity].
  now rewrite List.app_nil_r.
Qed.

Lemma reduce_first_occurrences (h : store) (key : string) (rest : list rvalue) :
  forall met,
    fold_left (retain h key) rest (first_occurrences h key [] met)
    = first_occurrences h key [] (met ++ rest).
Proof.
  induction rest as [|x rest IH]; intros met; simpl.
  - now rewrite List.app_nil_r.
  - rewrite retain_first_occurrences, IH, <- List.app_assoc. reflexivity.
Qed.

Lemma shadows_method_truthy (h : store) (obj : rvalue) :
  shadows_method h obj = true -> truthy obj = true.
Proof. destruct obj; try discriminate. reflexivity. Qed.

(** One call of the callback: it raises on an object that shadows
    [hasOwnProperty], and otherwise retains or skips the element. *)
Lemma step_returned (h : store) (key : string) (items : list rvalue)
    (obj : rvalue) :
  step h key (Returned items) obj
  = if shadows_method h obj then Thrown
    else Returned (retain h key items obj).
Proof.
  unfold step, retain, hasOwnProperty.
  destruct (shadows_method h obj) eqn:Es.
  - now rewrite (shadows_method_truthy h obj Es).
  - destruct (truthy obj); [|reflexivity]. cbn [andb].
    destruct (has_own h obj key); [|reflexivity]. cbn [andb].
    now destruct (existsb _ items).
Qed.

Lemma reduce_thrown (h : store) (key : string) (rest : list rvalue) :
  fold_left (step h key) rest Thrown = Thrown.
Proof. induction rest as [|x rest IH]; [reflexivity|exact IH]. Qed.

Lemma reduce_outcome (h : store) (key : string) (rest : list rvalue) :
  forall items,
    fold_left (step h key) rest (Returned items)
    = if existsb (shadows_method h) rest then Thrown
      else Returned (fold_left (retain h key) rest items).
Proof.
  induction rest as [|x rest IH]; intros items; [reflexivity|].
  cbn [fold_left existsb]. rewrite step_returned.
  destruct (shadows_method h x); [apply reduce_thrown|apply IH].
Qed.

Lemma mergeUniqueByKey_outcome (h : store) (arrays : rvalue) (key : string) :
  mergeUniqueByKey h arrays key
  = if existsb (shadows_method h) (input_elements h arrays) then Thrown
    else Returned (first_occurrences h key [] (input_elements h arrays)).
Proof.
  unfold mergeUniqueByKey, input_elements.
  destruct arrays as [| | | |l]; try reflexivity.
  destruct (h l) as [[xs|ms]|]; try reflexivity.
  rewrite reduce_outcome.
  pose proof (reduce_first_occurrences h key (flat h xs) []) as H.
  cbn [first_occurrences app] in H. now rewrite H.
Qed.

(** C10.  [mergeUniqueByKey] tells duplicates by [===] on the values at the
    key, which is identity.  Unless an element of the flattened input has an
    own member named [hasOwnProperty], on which the call raises, the result
    is the list of the first occurrences, in encounter order, among the
    eligible elements of the flattened input: elements with the same scalar
    at the key are deduplicated and the first one met is retained.  Two
    mappings whose values at the key are arrays equal in content and
    distinct as objects are both retained. *)
Theorem mergeUniqueByKey_dedups_by_identity :
  (forall h arrays key,
     mergeUniqueByKey h arrays key
     = if existsb (shadows_method h) (input_elements h arrays) then Thrown
       else Returned (first_occurrences h key [] (input_elements h arrays)))
  /\ (forall x y, same_read x y = true <-> x = y)
  /\ (get_prop compound_keys_store (RRef 10) "id" = Some (RRef 20)
      /\ get_prop compound_keys_store (RRef 11) "id" = Some (RRef 21)
      /\ reify 1 compound_keys_store (RRef 20) = Some (VArr [VNum 1; VNum 2])
      /\ reify 1 compound_keys_store (RRef 21) = Some (VArr [VNum 1; VNum 2])
      /\ deepEqualJSON (VArr [VNum 1; VNum 2]) (VArr [VNum 1; VNum 2]) = true
      /\ mergeUniqueByKey compound_keys_store (RRef 0) "id"
         = Returned [RRef 10; RRef 11])
  /\ mergeUniqueByKey records_store (RRef 0) "id"
     = Returned [RRef 10; RRef 11; RRef 13].
Proof.
  split; [exact mergeUniqueByKey_outcome|].
  split; [exact same_read_eq|].
  split; [repeat split|reflexivity].
Qed.

End RefsFacts.

(** ** [isValidJSON], [parse], [stringify] and [equalJSON] together *)

Lemma JSON_stringify_nonempty (v : value) : JSON_stringify v <> "".
Proof.
  intros E. pose proof (weight_le_length v) as H. rewrite E in H.
  destruct v; simpl in H; lia.
Qed.

(** X2.  The text [stringify] yields for a JSON value is valid for
    [isValidJSON], and [parse] of it never takes the fallback. *)
Theorem stringify_output_is_valid (v : value) (Hwf : wf_value v = true) :
  exists text,
    stringify v = Some text
    /\ isValidJSON text = true
    /\ forall d, parse text d = v.
Proof.
  exists (JSON_stringify v). split; [reflexivity|].
  unfold isValidJSON, parse. rewrite JSON_parse_stringify by assumption.
  split; [|reflexivity].
  destruct (JSON_stringify v =? "") eqn:E; [|reflexivity].
  apply String.eqb_eq in E. now apply JSON_stringify_nonempty in E.
Qed.

Lemma stringify_output_is_valid_witness :
  exists text,
    stringify (VArr [VNum 0; VStr ""; VObj [("k", VNull)]]) = Some text
    /\ isValidJSON text = true
    /\ forall d, parse text d = VArr [VNum 0; VStr ""; VObj [("k", VNull)]].
Proof.
  exact (stringify_output_is_valid
           (VArr [VNum 0; VStr ""; VObj [("k", VNull)]]) eq_refl).
Defined.

Lemma JSON_stringify_injective (a b : value) :
  wf_value a = true -> wf_value b = true ->
  JSON_stringify a = JSON_stringify b -> a = b.
Proof.
  intros Ha Hb E. pose proof (JSON_parse_stringify a Ha) as Pa.
  rewrite E, (JSON_parse_stringify b Hb) in Pa. congruence.
Qed.

(** X3.  On JSON values [equalJSON] holds exactly of a value and itself:
    two values with the same serialized text are the same tree, key order
    included.  Whenever [equalJSON] holds, [deepEqualJSON] holds too. *)
Theorem equalJSON_iff_same_value (a b : value)
    (Ha : wf_value a = true) (Hb : wf_value b = true) :
  (equalJSON a b = true <-> a = b)
  /\ (equalJSON a b = true -> deepEqualJSON a b = true).
Proof.
  assert (H : equalJSON a b = true <-> a = b).
  { unfold equalJSON. rewrite String.eqb_eq. split.
    - now apply JSON_stringify_injective.
    - now intros ->. }
  split; [exact H|]. intros E. apply H in E. subst b.
  now apply deepEqualHelper_refl.
Qed.

Lemma equalJSON_iff_same_value_witness :
  equalJSON (VObj [("a", VNum 1); ("b", VNum 2)])
            (VObj [("b", VNum 2); ("a", VNum 1)]) = true
  <-> VObj [("a", VNum 1); ("b", VNum 2)] = VObj [("b", VNum 2); ("a", VNum 1)].
Proof.
  exact (proj1 (equalJSON_iff_same_value
                  (VObj [("a", VNum 1); ("b", VNum 2)])
                  (VObj [("b", VNum 2); ("a", VNum 1)]) eq_refl eq_refl)).
Defined.

(** ** [deepEqualJSON] as an equivalence *)

Lemma strict_equals_true (a b : value) : strict_equals a b = true -> a = b.
Proof.
  destruct a, b; simpl; try discriminate; intros H; f_equal.
  - reflexivity.
  - now apply Bool.eqb_prop.
  - now apply Z.eqb_eq.
  - now apply String.eqb_eq.
Qed.

Lemma index_entry_in {A : Type} (l : list A) : forall j n x,
  nth_error l n = Some x ->
  In (print_N (j + N.of_nat n), x) (index_entries_from j l).
Proof.
  induction l as [|y l IH]; intros j n x; destruct n as [|n]; simpl;
    try discriminate.
  - intros [= ->]. left. f_equal. f_equal. lia.
  - intros H. right. replace (j + N.pos (Pos.of_succ_nat n))%N
      with (N.succ j + N.of_nat n)%N by lia. now apply IH.
Qed.

Lemma every_item_nth (la : list value) : forall lb,
  List.length la = List.length lb ->
  (every_item la lb = true <->
   forall n x, nth_error la n = Some x ->
     exists y, nth_error lb n = Some y /\ deepEqualHelper x y = true).
Proof.
  induction la as [|x la IH]; intros [|y lb] Hlen; try discriminate; simpl.
  - split; [intros _ [|n] z; discriminate|reflexivity].
  - injection Hlen as Hlen. rewrite andb_true_iff, (IH lb Hlen). split.
    + intros [Hxy Hrest] [|n] z; simpl.
      * intros [= <-]. eauto.
      * apply Hrest.
    + intros H. split.
      * destruct (H 0 x eq_refl) as (y' & [= <-] & Hxy). assumption.
      * intros n z Hz. apply (H (S n) z Hz).
Qed.

(** Two objects (arrays included) are equal for [deepEqualHelper] when they
    have as many members and every member of the first is a member of the
    second under the same key, with an equal value. *)
Lemma deepEqualHelper_objects (a b : value) :
  wf_value a = true -> wf_value b = true ->
  is_object a = true -> is_object b = true ->
  (deepEqualHelper a b = true <->
   List.length (entries_of a) = List.length (entries_of b)
   /\ forall k x, In (k, x) (entries_of a) ->
        exists y, In (k, y) (entries_of b) /\ deepEqualHelper x y = true).
Proof.
  intros Ha Hb Oa Ob.
  destruct (is_array a && is_array b) eqn:Earr.
  - destruct a as [| | | |la|]; try discriminate.
    destruct b as [| | | |lb|]; try discriminate.
    rewrite deepEqualHelper_arrays, andb_true_iff, Nat.eqb_eq.
    cbn [entries_of]. unfold index_entries.
    rewrite !length_index_entries_from.
    split; intros [Hlen H]; (split; [assumption|]).
    + rewrite every_item_nth in H by assumption. intros k x Hin.
      apply in_index_entries_from in Hin as (n & -> & Hn).
      destruct (H n x Hn) as (y & Hy & Hxy). exists y. split; [|assumption].
      now apply index_entry_in.
    + apply every_item_nth; [assumption|]. intros n x Hn.
      destruct (H _ _ (index_entry_in la 0 n x Hn)) as (y & Hy & Hxy).
      exists y. split; [|assumption].
      apply in_index_entries_from in Hy as (n' & E & Hn').
      apply print_N_inj in E. assert (n' = n) by lia. now subst.
  - rewrite deepEqualHelper_members, andb_true_iff, Nat.eqb_eq by assumption.
    now rewrite every_member_spec by assumption.
Qed.

Lemma deepEqualHelper_trans (a : value) :
  wf_value a = true ->
  forall b c, wf_value b = true -> wf_value c = true ->
    deepEqualHelper a b = true -> deepEqualHelper b c = true ->
    deepEqualHelper a c = true.
Proof.
  induction a as [|b0|n|s|la IH|oa IH] using value_ind; intros Ha b c Hb Hc;
    try (rewrite deepEqualHelper_scalar_l by reflexivity; intros H;
         apply strict_equals_true in H; now subst b).
  - intros Hab Hbc.
    destruct (is_object b) eqn:Ob;
      [|rewrite deepEqualHelper_scalar_r in Hab by (reflexivity || assumption);
        discriminate].
    destruct (is_object c) eqn:Oc;
      [|rewrite deepEqualHelper_scalar_r in Hbc by assumption; discriminate].
    apply deepEqualHelper_objects in Hab as [Lab Mab]; try assumption;
      [|reflexivity].
    apply deepEqualHelper_objects in Hbc as [Lbc Mbc]; try assumption.
    apply deepEqualHelper_objects; try assumption; [reflexivity|].
    split; [congruence|]. intros k x Hx.
    destruct (Mab k x Hx) as (y & Hy & Hxy).
    destruct (Mbc k y Hy) as (z & Hz & Hyz).
    exists z. split; [assumption|].
    assert (Hcx : In x (children (VArr la))) by now apply (in_map snd) in Hx.
    assert (Hcy : In y (children b)) by now apply (in_map snd) in Hy.
    assert (Hcz : In z (children c)) by now apply (in_map snd) in Hz.
    rewrite children_array in Hcx. rewrite Forall_forall in IH.
    apply (IH x Hcx) with (b := y); try assumption.
    + apply (wf_children (VArr la)); [assumption|reflexivity|].
      now rewrite children_array.
    + now apply (wf_children b).
    + now apply (wf_children c).
  - intros Hab Hbc.
    destruct (is_object b) eqn:Ob;
      [|rewrite deepEqualHelper_scalar_r in Hab by (reflexivity || assumption);
        discriminate].
    destruct (is_object c) eqn:Oc;
      [|rewrite deepEqualHelper_scalar_r in Hbc by assumption; discriminate].
    apply deepEqualHelper_objects in Hab as [Lab Mab]; try assumption;
      [|reflexivity].
    apply deepEqualHelper_objects in Hbc as [Lbc Mbc]; try assumption.
    apply deepEqualHelper_objects; try assumption; [reflexivity|].
    split; [congruence|]. intros k x Hx.
    destruct (Mab k x Hx) as (y & Hy & Hxy).
    destruct (Mbc k y Hy) as (z & Hz & Hyz).
    exists z. split; [assumption|].
    assert (Hcx : In x (children (VObj oa))) by now apply (in_map snd) in Hx.
    assert (Hcy : In y (children b)) by now apply (in_map snd) in Hy.
    assert (Hcz : In z (children c)) by now apply (in_map snd) in Hz.
    cbn [entries_of] in Hx. rewrite Forall_forall in IH.
    apply (IH (k, x) Hx) with (b := y); try assumption.
    + now apply (wf_children (VObj oa)).
    + now apply (wf_children b).
    + now apply (wf_children c).
Qed.

(** X4.  [deepEqualJSON] is transitive on JSON values; with its reflexivity
    and symmetry it is an equivalence relation. *)
Theorem deepEqualJSON_transitive (a b c : value)
    (Ha : wf_value a = true) (Hb : wf_value b = true) (Hc : wf_value c = true)
    (Hab : deepEqualJSON a b = true) (Hbc : deepEqualJSON b c = true) :
  deepEqualJSON a c = true.
Proof. exact (deepEqualHelper_trans a Ha b c Hb Hc Hab Hbc). Qed.

Lemma deepEqualJSON_transitive_witness :
  deepEqualJSON (VObj [("a", VNum 1); ("b", VArr [VNull])])
                (VObj [("b", VArr [VNull]); ("a", VNum 1)]) = true.
Proof.
  exact (deepEqualJSON_transitive
           (VObj [("a", VNum 1); ("b", VArr [VNull])])
           (VObj [("b", VObj [("0", VNull)]); ("a", VNum 1)])
           (VObj [("b", VArr [VNull]); ("a", VNum 1)])
           eq_refl eq_refl eq_refl eq_refl eq_refl).
Defined.

Lemma wf_index_entries (l : list value) :
  forallb wf_value l = true -> wf_value (VObj (index_entries l)) = true.
Proof.
  intros H. cbn [wf_value]. unfold index_entries.
  rewrite keys_ordered_index_entries. simpl.
  apply forallb_forall. intros [k x] Hin. simpl.
  apply (in_map snd) in Hin. rewrite map_snd_index_entries_from in Hin.
  rewrite forallb_forall in H. auto.
Qed.

(** X5.  [deepEqualJSON] does not tell an array from the mapping of its
    indices: an array and the mapping that has the array's elements under
    the keys ["0"], ["1"], ... are equal for it, in either order of the
    operands, while [equalJSON] of the two is false. *)
Theorem deepEqualJSON_array_equals_index_mapping (l : list value)
    (Hwf : wf_value (VArr l) = true) :
  deepEqualJSON (VArr l) (VObj (index_entries l)) = true
  /\ deepEqualJSON (VObj (index_entries l)) (VArr l) = true
  /\ equalJSON (VArr l) (VObj (index_entries l)) = false
  /\ equalJSON (VObj (index_entries l)) (VArr l) = false.
Proof.
  assert (Hm : wf_value (VObj (index_entries l)) = true)
    by now apply wf_index_entries.
  assert (H : deepEqualHelper (VArr l) (VObj (index_entries l)) = true).
  { apply deepEqualHelper_objects; try assumption; try reflexivity.
    split; [reflexivity|]. intros k x Hin. exists x. split; [assumption|].
    apply deepEqualHelper_refl.
    apply (wf_children (VArr l)); [assumption|reflexivity|].
    now apply (in_map snd) in Hin. }
  split; [exact H|]. split; [now apply deepEqualHelper_sym_true|].
  unfold equalJSON. split; apply String.eqb_neq; intros Heq;
    apply JSON_stringify_injective in Heq; try assumption; discriminate Heq.
Qed.

Lemma deepEqualJSON_array_equals_index_mapping_witness :
  deepEqualJSON (VArr [VNum 7; VStr "x"])
                (VObj [("0", VNum 7); ("1", VStr "x")]) = true.
Proof.
  exact (proj1 (deepEqualJSON_array_equals_index_mapping
                  [VNum 7; VStr "x"] eq_refl)).
Defined.

(** ** The two combine operations, key by key *)

Lemma from_entries_app {A : Type} (o1 o2 : list (string * A)) :
  keys_ordered (map fst o1) = true ->
  from_entries (o1 ++ o2) = assign o1 o2.
Proof.
  intros H. pose proof (from_entries_ordered o1 H) as E.
  unfold from_entries, assign in *. now rewrite fold_left_app, E.
Qed.

Lemma wf_object_keys (o : list (string * value)) :
  wf_value (VObj o) = true -> keys_ordered (map fst o) = true.
Proof. intros H. now apply (wf_entries_ordered (VObj o)). Qed.

(** X6.  For mappings with a non-empty [target], [deepMerge] is the shallow
    combine: the result is [target] with the members of [source] assigned
    in order, which is [target] itself when [source] is empty; at every key
    it has the value of [source] when [source] has the key, and the value of
    [target] otherwise, so that no key of either operand is lost and no
    nested value is merged. *)
Theorem deepMerge_source_wins_key_by_key (ot os : list (string * value))
    (Ht : wf_value (VObj ot) = true) (Hs : wf_value (VObj os) = true)
    (Hne : ot <> []) :
  (forall k,
     get_prop (deepMerge (VObj ot) (VObj os)) k
     = match lookup k os with
       | Some v => Some v
       | None => lookup k ot
       end)
  /\ deepMerge (VObj ot) (VObj os) = VObj (assign ot os)
  /\ deepMerge (VObj ot) (VObj []) = VObj ot.
Proof.
  split; [|split].
  - intros k. destruct os as [|ms os].
    + rewrite deepMerge_on_mappings by assumption. now destruct ot.
    + now apply deepMerge_member.
  - rewrite deepMerge_on_mappings by assumption.
    destruct ot as [|mt ot]; [congruence|]. destruct os as [|ms os];
      [reflexivity|].
    f_equal. now apply from_entries_app, wf_object_keys.
  - rewrite deepMerge_on_mappings by (assumption || reflexivity).
    now destruct ot.
Qed.

Lemma deepMerge_source_wins_key_by_key_witness :
  get_prop (deepMerge (VObj [("a", VNum 1); ("x", VObj [("p", VNum 1)])])
                      (VObj [("x", VObj [("q", VNum 3)]); ("b", VNull)])) "x"
  = Some (VObj [("q", VNum 3)]).
Proof.
  exact (proj1 (deepMerge_source_wins_key_by_key
                  [("a", VNum 1); ("x", VObj [("p", VNum 1)])]
                  [("x", VObj [("q", VNum 3)]); ("b", VNull)]
                  eq_refl eq_refl ltac:(discriminate)) "x").
Defined.

Lemma proto_free_member (o : list (string * value)) (k : string)
    (u : value) :
  proto_free (VObj o) = true -> In (k, u) o ->
  (k =? "__proto__") = false /\ proto_free u = true.
Proof.
  cbn [proto_free]. rewrite forallb_forall. intros H Hin.
  specialize (H (k, u) Hin). cbn [fst snd] in H.
  apply andb_prop in H as [H1 H2]. now apply negb_true_iff in H1.
Qed.

(** X7.  For a JSON value [target] and a mapping [updates] in which no
    mapping has a key [__proto__], [deepUpdate] returns a mapping, whatever
    [target] is, whose keys are those of [target] and those of [updates],
    and which has at every key: the value of [target] when [updates] lacks
    the key; the incoming value when that is not a mapping; and, when the
    incoming value is a mapping, the update by it of the existing value, or
    of [{}] when the existing value is absent or falsy. *)
Theorem deepUpdate_key_by_key (E : prototypes) (target updates : value)
    (Ht : wf_value target = true) (Hu : wf_value updates = true)
    (Hm : is_mapping updates = true) (Hp : proto_free updates = true)
    (k : string) :
  exists r,
    deepUpdate E target updates = Within r
    /\ is_mapping r = true
    /\ has_prop r k
       = has_key k (entries_of updates) || has_key k (entries_of target)
    /\ option_map Within (get_prop r k)
       = match lookup k (entries_of updates) with
         | Some u =>
             if is_mapping u
             then Some (deepUpdate E
                          (or_empty (lookup k (entries_of target))) u)
             else Some (Within u)
         | None => option_map Within (lookup k (entries_of target))
         end.
Proof.
  exists (deepUpdate_own target updates).
  pose proof (deepUpdate_member target updates k Ht Hu Hm) as Ek.
  split; [now apply deepUpdate_proto_free|]. split; [|split].
  - destruct updates as [| | | | |o]; try discriminate.
    unfold deepUpdate_own. remember (depth_of (VObj o)) as n eqn:En.
    destruct n as [|n]; [simpl in En; lia|].
    now rewrite deepUpdate_at_unfold by assumption.
  - unfold has_prop, has_key. rewrite Ek.
    destruct (lookup k (entries_of updates)) as [u|]; [|reflexivity].
    now destruct (is_mapping u).
  - rewrite Ek. destruct (lookup k (entries_of updates)) as [u|] eqn:Eu;
      [|reflexivity].
    destruct (is_mapping u) eqn:Em; [|reflexivity].
    destruct updates as [| | | | |o]; try discriminate.
    cbn [entries_of] in Eu. apply lookup_in in Eu.
    destruct (proto_free_member o k u Hp Eu) as [_ Hpu].
    rewrite deepUpdate_proto_free; [reflexivity| |assumption|assumption].
    apply (wf_children (VObj o)); [assumption|reflexivity|].
    unfold children. cbn [entries_of]. now apply (in_map snd) in Eu.
Qed.

Lemma deepUpdate_key_by_key_witness :
  exists r,
    deepUpdate sample_prototypes
      (VObj [("n", VNum 0); ("d", VObj [("age", VNum 30)])])
      (VObj [("n", VObj [("x", VNull)]); ("c", VStr "USA")]) = Within r
    /\ get_prop r "n" = Some (VObj [("x", VNull)]).
Proof.
  destruct (deepUpdate_key_by_key sample_prototypes
              (VObj [("n", VNum 0); ("d", VObj [("age", VNum 30)])])
              (VObj [("n", VObj [("x", VNull)]); ("c", VStr "USA")])
              eq_refl eq_refl eq_refl eq_refl "n") as (r & Hr & _ & _ & Hk).
  exists r. split; [exact Hr|].
  destruct (get_prop r "n") as [x|]; [|discriminate Hk].
  now injection Hk as ->.
Defined.

Lemma update_step_plain (depth : nat) (acc : list (string * value))
    (kv : string * value) :
  is_mapping (snd kv) = false ->
  update_step depth acc kv = obj_set (fst kv) (snd kv) acc.
Proof. intros H. unfold update_step. now rewrite mapping_test, H. Qed.

Lemma deepUpdate_at_mapping (depth : nat) (target : value)
    (o : list (string * value)) :
  wf_value (VObj o) = true ->
  deepUpdate_own_at (S depth) target (VObj o)
  = VObj (fold_left (update_step depth) o (spread target)).
Proof. intros H. now rewrite deepUpdate_at_unfold. Qed.

(** Updating [{}] by a mapping copies the mapping. *)
Lemma deepUpdate_at_empty_target (updates : value) :
  wf_value updates = true -> is_mapping updates = true ->
  forall depth, depth_of updates <= depth ->
                deepUpdate_own_at depth (VObj []) updates = updates.
Proof.
  induction updates as [| | | | |o IH] using value_ind; try discriminate.
  intros Hwf _ depth Hd.
  destruct depth as [|depth]; [simpl in Hd; lia|].
  rewrite deepUpdate_at_mapping by assumption. f_equal.
  change (spread (VObj [])) with (@nil (string * value)).
  pose proof (wf_object_keys o Hwf) as Hkeys.
  assert (Hgen : forall rest acc,
             acc ++ rest = o ->
             fold_left (update_step depth) rest acc = acc ++ rest).
  { induction rest as [|[k x] rest IHr]; intros acc E; simpl.
    - now rewrite List.app_nil_r.
    - assert (Hin : In (k, x) o) by (rewrite <- E; apply in_or_app; right; now left).
      assert (Hbefore : forallb (fun a => key_before a k) (map fst acc) = true).
      { rewrite <- E, map_app in Hkeys. now apply keys_ordered_before in Hkeys. }
      assert (Hfresh : lookup k acc = None).
      { apply lookup_none_not_in. intros Hk. rewrite forallb_forall in Hbefore.
        now apply Hbefore, key_before_neq in Hk. }
      assert (Hstep : update_step depth acc (k, x) = obj_set k x acc).
      { destruct (is_mapping x) eqn:Ex; [|now apply update_step_plain].
        unfold update_step. cbn [fst snd]. rewrite mapping_test, Ex, Hfresh.
        cbn [or_empty]. rewrite Forall_forall in IH.
        assert (Hc : In x (children (VObj o))) by now apply (in_map snd) in Hin.
        pose proof (depth_of_child (VObj o) x eq_refl Hc) as Hlt.
        assert (Hwx : wf_value x = true) by now apply (wf_children (VObj o)).
        pose proof (IH (k, x) Hin Hwx Ex depth) as Hx. cbn [snd] in Hx.
        rewrite Hx; [reflexivity|lia]. }
      rewrite Hstep, obj_set_fresh_last by assumption.
      rewrite IHr; rewrite <- List.app_assoc; [reflexivity|exact E]. }
  apply (Hgen o []). reflexivity.
Qed.

(** The key [__proto__] in [updates]: a value that is not an object is
    dropped, an object becomes the prototype of the result, and an own
    member of [target] under the name is updated like any member. *)
Example deepUpdate_proto_key :
  deepUpdate sample_prototypes (VObj [])
    (VObj [("__proto__", VNum 1); ("a", VNum 2)])
  = Within (VObj [("a", VNum 2)])
  /\ deepUpdate sample_prototypes (VObj [])
       (VObj [("__proto__", VObj [("x", VNum 1)]); ("a", VNum 2)])
     = Beyond
  /\ deepUpdate sample_prototypes (VObj [("__proto__", VNum 7)])
       (VObj [("__proto__", VObj [("x", VNum 1)]); ("a", VNum 2)])
     = Within (VObj [("__proto__", VObj [("x", VNum 1)]); ("a", VNum 2)]).
Proof. repeat split. Qed.

(** X8.  Updating by the empty mapping changes nothing, and updating the
    empty mapping by a mapping in which no mapping has a key [__proto__]
    yields that mapping: [deepUpdate(t, {}) = t] and
    [deepUpdate({}, u) = u]. *)
Theorem deepUpdate_empty_operands (E : prototypes) (v : value)
    (Hwf : wf_value v = true) (Hm : is_mapping v = true) :
  deepUpdate E v (VObj []) = Within v
  /\ (proto_free v = true -> deepUpdate E (VObj []) v = Within v).
Proof.
  split.
  - rewrite deepUpdate_proto_free by reflexivity.
    now rewrite deepUpdate_identity_on_empty.
  - intros Hp. rewrite deepUpdate_proto_free by assumption. f_equal.
    unfold deepUpdate_own. now apply deepUpdate_at_empty_target.
Qed.

Lemma deepUpdate_empty_operands_witness :
  deepUpdate sample_prototypes
    (VObj [("0", VArr []); ("a", VObj [("b", VObj [("c", VNum 5)])])])
    (VObj [])
  = Within (VObj [("0", VArr []); ("a", VObj [("b", VObj [("c", VNum 5)])])]).
Proof.
  exact (proj1 (deepUpdate_empty_operands sample_prototypes
                  (VObj [("0", VArr []);
                         ("a", VObj [("b", VObj [("c", VNum 5)])])])
                  eq_refl eq_refl)).
Defined.

(** X9.  The two combine operations agree whenever no incoming value is a
    mapping and no incoming key is [__proto__]: for non-empty mappings
    [target] and [updates] such that no top-level value of [updates] is a
    mapping, [deepUpdate] returns what [deepMerge] returns. *)
Theorem deepUpdate_is_deepMerge_without_nested_updates (E : prototypes)
    (ot os : list (string * value))
    (Ht : wf_value (VObj ot) = true) (Hs : wf_value (VObj os) = true)
    (Hnt : ot <> []) (Hns : os <> [])
    (Hflat : forallb (fun kv => negb (is_mapping (snd kv))) os = true)
    (Hp : forallb (fun kv => negb (fst kv =? "__proto__")) os = true) :
  deepUpdate E (VObj ot) (VObj os) = Within (deepMerge (VObj ot) (VObj os)).
Proof.
  assert (Hfree : proto_free (VObj os) = true).
  { cbn [proto_free]. rewrite forallb_forall in *. intros kv Hin.
    rewrite (Hp kv Hin). cbn [andb]. specialize (Hflat kv Hin).
    apply negb_true_iff in Hflat. destruct (snd kv); try reflexivity.
    discriminate. }
  rewrite deepUpdate_proto_free by (assumption || reflexivity). f_equal.
  rewrite deepMerge_on_mappings by assumption.
  destruct ot as [|mt ot]; [congruence|]. destruct os as [|ms os]; [congruence|].
  rewrite from_entries_app by now apply wf_object_keys.
  unfold deepUpdate_own.
  remember (depth_of (VObj (ms :: os))) as d eqn:Ed.
  destruct d as [|d]; [simpl in Ed; lia|].
  rewrite deepUpdate_at_mapping, spread_wf by assumption.
  f_equal. unfold assign. cbn [entries_of]. apply fold_left_ext_in.
  intros acc kv Hin. apply update_step_plain.
  rewrite forallb_forall in Hflat. now apply negb_true_iff, Hflat.
Qed.

Lemma deepUpdate_is_deepMerge_without_nested_updates_witness :
  deepUpdate sample_prototypes
    (VObj [("a", VObj [("p", VNum 1)]); ("b", VNum 2)])
    (VObj [("b", VArr [VNum 3]); ("c", VNull)])
  = Within (deepMerge (VObj [("a", VObj [("p", VNum 1)]); ("b", VNum 2)])
                      (VObj [("b", VArr [VNum 3]); ("c", VNull)])).
Proof.
  exact (deepUpdate_is_deepMerge_without_nested_updates sample_prototypes
           [("a", VObj [("p", VNum 1)]); ("b", VNum 2)]
           [("b", VArr [VNum 3]); ("c", VNull)]
           eq_refl eq_refl ltac:(discriminate) ltac:(discriminate)
           eq_refl eq_refl).
Defined.

(** ** [filterKeys] *)

Lemma filterKeys_unfold (E : prototypes) (obj : value)
    (allowedKeys : list string) :
  wf_value obj = true ->
  filterKeys E obj allowedKeys
  = if is_object obj then
      match fold_left (filter_step E obj) allowedKeys (Within (true, [])) with
      | Within (_, members) => Within (VObj members)
      | Beyond => Beyond
      end
    else Within (VObj []).
Proof.
  intros Hwf. unfold filterKeys. now rewrite JSON_parse_stringify.
Qed.

Lemma filter_fold_beyond (E : prototypes) (obj : value) (ks : list string) :
  fold_left (filter_step E obj) ks Beyond = Beyond.
Proof. induction ks as [|k ks IH]; [reflexivity|exact IH]. Qed.

Lemma get_prop_wf (obj : value) (k : string) (x : value) :
  wf_value obj = true -> get_prop obj k = Some x -> wf_value x = true.
Proof.
  assert (Hidx : forall l, (forall y, In y l -> wf_value y = true) ->
                           indexed_get l k = Some x -> wf_value x = true).
  { intros l Hl. unfold indexed_get.
    destruct (canonical_index k) as [i|].
    - intros H. apply nth_error_In in H. auto.
    - destruct (k =? "length"); [|discriminate]. now intros [= <-]. }
  intros Hwf. destruct obj as [| | |s|l|o]; try discriminate; cbn [get_prop].
  - apply Hidx. intros y Hy. unfold chars_of in Hy.
    apply in_map_iff in Hy as [c [<- _]]. reflexivity.
  - apply Hidx. simpl in Hwf. now rewrite forallb_forall in Hwf.
  - intros H. apply lookup_in in H.
    apply (wf_children (VObj o)); [assumption|reflexivity|].
    now apply (in_map snd) in H.
Qed.

(** One call of the callback, in the cases that the keys and the
    accumulator leave. *)
Lemma filter_step_cases (E : prototypes) (obj : value) (live : bool)
    (acc : list (string * value)) (k : string) :
  (forall p, dropped E p = true -> lookup p acc = None) ->
  filter_step E obj (Within (live, acc)) k
  = if dropped E k then
      if has_in E obj k
      then if live then Within (keeps_accessor obj, acc) else Beyond
      else Within (live, acc)
    else
      match get_prop obj k with
      | Some x => Within (live, obj_set k x acc)
      | None =>
          if inherits E (kind_of obj) k then Beyond else Within (live, acc)
      end.
Proof.
  intros Hacc. unfold filter_step. rewrite reaches_accessor_dropped.
  destruct (dropped E k) eqn:Dk.
  - rewrite (proj2 (has_key_false k acc) (Hacc k Dk)). cbn [andb negb].
    reflexivity.
  - cbn [andb]. unfold has_in, has_prop, get.
    destruct (get_prop obj k) as [x|]; [reflexivity|]. cbn [orb].
    now destruct (inherits E (kind_of obj) k).
Qed.

Lemma obj_set_keeps_dropped_out (E : prototypes) (k : string) (x : value)
    (acc : list (string * value)) :
  dropped E k = false ->
  (forall p, dropped E p = true -> lookup p acc = None) ->
  forall p, dropped E p = true -> lookup p (obj_set k x acc) = None.
Proof.
  intros Dk Hacc p Dp. rewrite lookup_obj_set.
  destruct (k =? p) eqn:Ekp; [|now apply Hacc].
  apply String.eqb_eq in Ekp. congruence.
Qed.

(** What a reduction that stays within the JSON values has computed. *)
Lemma filter_fold_within (E : prototypes) (obj : value) (ks : list string) :
  forall live acc live' members,
    (forall p, dropped E p = true -> lookup p acc = None) ->
    fold_left (filter_step E obj) ks (Within (live, acc))
    = Within (live', members) ->
    members = assign acc (picked E obj ks)
    /\ (forall k, In k ks -> dropped E k = false ->
                  get_prop obj k = None -> inherits E (kind_of obj) k = false).
Proof.
  induction ks as [|k ks IH]; intros live acc live' members Hacc;
    cbn [fold_left].
  - intros [= _ <-]. split; [reflexivity|]. intros k [].
  - rewrite filter_step_cases by assumption. unfold picked. cbn [flat_map].
    fold (picked E obj ks). unfold assign. rewrite fold_left_app.
    fold (assign acc (match get_prop obj k with
                      | Some x => if dropped E k then [] else [(k, x)]
                      | None => []
                      end)).
    destruct (dropped E k) eqn:Dk.
    + assert (Hsame : assign acc (match get_prop obj k with
                                  | Some _ => []
                                  | None => []
                                  end) = acc) by now destruct (get_prop obj k).
      rewrite Hsame.
      destruct (has_in E obj k).
      * destruct live; [|now rewrite filter_fold_beyond].
        intros H. destruct (IH _ _ _ _ Hacc H) as [Hm Hk]. split; [exact Hm|].
        intros k' [<-|Hin] Dk'; [congruence|now apply Hk].
      * intros H. destruct (IH _ _ _ _ Hacc H) as [Hm Hk]. split; [exact Hm|].
        intros k' [<-|Hin] Dk'; [congruence|now apply Hk].
    + destruct (get_prop obj k) as [x|] eqn:Eg.
      * intros H.
        destruct (IH _ _ _ _ (obj_set_keeps_dropped_out E k x acc Dk Hacc) H)
          as [Hm Hk].
        split; [exact Hm|].
        intros k' [<-|Hin] Dk'; [congruence|now apply Hk].
      * destruct (inherits E (kind_of obj) k) eqn:Ei;
          [now rewrite filter_fold_beyond|].
        intros H. destruct (IH _ _ _ _ Hacc H) as [Hm Hk]. split; [exact Hm|].
        intros k' [<-|Hin] Dk' Hg; [assumption|now apply Hk].
Qed.

(** When a reduction stays within the JSON values. *)
Lemma filter_fold_returns (E : prototypes) (obj : value) (ks : list string) :
  (forall k, In k ks -> dropped E k = false ->
             get_prop obj k = None -> inherits E (kind_of obj) k = false) ->
  forall live acc,
    (forall p, dropped E p = true -> lookup p acc = None) ->
    accessor_in_reach E obj live ks ->
    exists live',
      fold_left (filter_step E obj) ks (Within (live, acc))
      = Within (live', assign acc (picked E obj ks)).
Proof.
  induction ks as [|k ks IH]; intros Hks live acc Hacc Hlive; cbn [fold_left].
  - now exists live.
  - assert (Hrest : forall k', In k' ks -> dropped E k' = false ->
                      get_prop obj k' = None ->
                      inherits E (kind_of obj) k' = false)
      by (intros k' Hin; apply Hks; now right).
    rewrite filter_step_cases by assumption. unfold picked. cbn [flat_map].
    fold (picked E obj ks). unfold assign. rewrite fold_left_app.
    fold (assign acc (match get_prop obj k with
                      | Some x => if dropped E k then [] else [(k, x)]
                      | None => []
                      end)).
    destruct (dropped E k) eqn:Dk.
    + assert (Hsame : assign acc (match get_prop obj k with
                                  | Some _ => []
                                  | None => []
                                  end) = acc) by now destruct (get_prop obj k).
      rewrite Hsame.
      assert (Hl : live = true).
      { destruct Hlive as [H|[[_ H]|[_ H]]]; try assumption.
        specialize (H k (or_introl eq_refl)). congruence. }
      subst live.
      assert (Hnext : accessor_in_reach E obj (keeps_accessor obj) ks
                      /\ accessor_in_reach E obj true ks).
      { destruct Hlive as [H|[[H _]|[Hnd _]]].
        - specialize (H k (or_introl eq_refl)). congruence.
        - split; right; left; now split.
        - inversion Hnd as [|? ? Hfresh Hnd']; subst.
          assert (Hnone : forall k', In k' ks -> dropped E k' = false).
          { intros k' Hin. destruct (dropped E k') eqn:Dk'; [|reflexivity].
            apply dropped_key in Dk, Dk'. subst. contradiction. }
          split; now left. }
      destruct (has_in E obj k); apply IH; try assumption; apply Hnext.
    + assert (Hlive' : accessor_in_reach E obj live ks).
      { destruct Hlive as [H|[H|[Hnd H]]].
        - left. intros k' Hin. apply H. now right.
        - right. now left.
        - right. right. inversion Hnd; subst. now split. }
      destruct (get_prop obj k) as [x|] eqn:Eg.
      * apply IH; try assumption.
        now apply obj_set_keeps_dropped_out.
      * rewrite (Hks k (or_introl eq_refl) Dk Eg). now apply IH.
Qed.

Lemma lookup_picked (E : prototypes) (obj : value) (k : string)
    (ks : list string) :
  lookup k (rev (picked E obj ks))
  = if existsb (String.eqb k) ks && negb (dropped E k) then get_prop obj k
    else None.
Proof.
  induction ks as [|k' ks IH]; [reflexivity|].
  unfold picked. cbn [flat_map existsb]. fold (picked E obj ks).
  rewrite rev_app_distr, lookup_app, IH.
  destruct (k =? k') eqn:Ek.
  - apply String.eqb_eq in Ek. subst k'. cbn [orb].
    destruct (dropped E k) eqn:Dk; cbn [negb andb].
    + rewrite andb_false_r. now destruct (get_prop obj k).
    + rewrite andb_true_r.
      destruct (existsb (String.eqb k) ks).
      * destruct (get_prop obj k); reflexivity.
      * destruct (get_prop obj k) as [x|]; [|reflexivity].
        cbn [rev app lookup]. now rewrite String.eqb_refl.
  - cbn [orb].
    assert (Hnone : lookup k (rev (match get_prop obj k' with
                                   | Some x =>
                                       if dropped E k' then [] else [(k', x)]
                                   | None => []
                                   end)) = None).
    { destruct (get_prop obj k') as [x|]; [|reflexivity].
      destruct (dropped E k'); [reflexivity|].
      cbn [rev app lookup]. rewrite String.eqb_sym in Ek. now rewrite Ek. }
    rewrite Hnone.
    now destruct (existsb (String.eqb k) ks && negb (dropped E k)),
                 (get_prop obj k).
Qed.

Lemma picked_values_wf (E : prototypes) (obj : value) (ks : list string) :
  wf_value obj = true ->
  Forall (fun kv => wf_value (snd kv) = true) (picked E obj ks).
Proof.
  intros Hwf. apply Forall_forall. intros [k x] Hin. unfold picked in Hin.
  apply in_flat_map in Hin as [k' [_ Hin]].
  destruct (get_prop obj k') as [y|] eqn:Eg; [|contradiction].
  destruct (dropped E k'); [contradiction|]. destruct Hin as [[= <- <-]|[]].
  now apply (get_prop_wf obj k').
Qed.

Lemma picked_wf (E : prototypes) (obj : value) (ks : list string) :
  wf_value obj = true -> wf_value (VObj (assign [] (picked E obj ks))) = true.
Proof.
  intros Hwf. cbn [wf_value]. apply andb_true_iff. split.
  - now apply assign_keeps_order.
  - apply forallb_forall.
    pose proof (assign_values (fun v => wf_value v = true) (picked E obj ks) []
                  (Forall_nil _) (picked_values_wf E obj ks Hwf)) as H.
    rewrite Forall_forall in H. auto.
Qed.

(** X10.  For a JSON value [obj], [filterKeys(obj, allowedKeys)] is [{}]
    when [obj] is neither an object nor an array.  A result within the JSON
    values is a well-formed mapping that has at a key the own value [obj]
    has there when the key is allowed, and no member otherwise; this leaves
    out the key [__proto__] where objects inherit that name, which creates
    no member.  The result is within the JSON values when the allowed keys
    are distinct and each of them is an own property of [obj] or is not
    found on [obj] at all; the result of an object or array [obj] is beyond
    them when an allowed key other than that [__proto__] is found on [obj]
    without being an own property. *)
Theorem filterKeys_keeps_allowed_members (E : prototypes) (obj : value)
    (allowedKeys : list string) (Hwf : wf_value obj = true) :
  (is_object obj = false -> filterKeys E obj allowedKeys = Within (VObj []))
  /\ (forall r, filterKeys E obj allowedKeys = Within r ->
        wf_value r = true
        /\ forall k,
             get_prop r k
             = if is_object obj && existsb (String.eqb k) allowedKeys
                  && negb (dropped E k)
               then get_prop obj k
               else None)
  /\ (NoDup allowedKeys ->
      (forall k, In k allowedKeys ->
                 has_prop obj k = true \/ has_in E obj k = false) ->
      exists r, filterKeys E obj allowedKeys = Within r)
  /\ (is_object obj = true ->
      forall k, In k allowedKeys -> dropped E k = false ->
        has_prop obj k = false -> has_in E obj k = true ->
        filterKeys E obj allowedKeys = Beyond).
Proof.
  rewrite filterKeys_unfold by assumption.
  destruct (is_object obj) eqn:Eo.
  - split; [discriminate|]. split; [|split].
    + intros r H.
      destruct (fold_left (filter_step E obj) allowedKeys (Within (true, [])))
        as [[live members]|] eqn:Ef; [|discriminate].
      injection H as <-.
      destruct (filter_fold_within E obj allowedKeys true [] live members)
        as [-> _]; [reflexivity|assumption|].
      split; [now apply picked_wf|]. intros k. cbn [get_prop andb].
      rewrite lookup_assign, lookup_picked.
      now destruct (existsb (String.eqb k) allowedKeys && negb (dropped E k)),
                   (get_prop obj k).
    + intros Hnd Hks.
      destruct (filter_fold_returns E obj allowedKeys) with
        (live := true) (acc := @nil (string * value)) as [live' ->].
      * intros k Hin _ Hg. destruct (Hks k Hin) as [H|H].
        -- apply has_prop_false in Hg. congruence.
        -- now apply has_in_false in H as [_ H].
      * reflexivity.
      * right. right. now split.
      * eexists. reflexivity.
    + intros _ k Hin Dk Hown Hinh.
      destruct (fold_left (filter_step E obj) allowedKeys (Within (true, [])))
        as [[live members]|] eqn:Ef; [|reflexivity].
      destruct (filter_fold_within E obj allowedKeys true [] live members)
        as [_ Hk]; [reflexivity|assumption|].
      apply has_prop_false in Hown. specialize (Hk k Hin Dk Hown).
      unfold has_in in Hinh. rewrite Hk, orb_false_r in Hinh.
      apply has_prop_false in Hown. congruence.
  - split; [reflexivity|]. split; [|split].
    + intros r [= <-]. split; [reflexivity|]. reflexivity.
    + intros _ _. eexists. reflexivity.
    + discriminate.
Qed.

Lemma filterKeys_keeps_allowed_members_witness :
  filterKeys sample_prototypes
    (VObj [("name", VStr "John"); ("age", VNum 30); ("country", VStr "USA")])
    ["country"; "zip"; "name"]
  = Within (VObj [("country", VStr "USA"); ("name", VStr "John")])
  /\ get_prop (VObj [("country", VStr "USA"); ("name", VStr "John")]) "age"
     = None.
Proof.
  split; [reflexivity|].
  exact (proj2 (proj1 (proj2 (filterKeys_keeps_allowed_members
                                sample_prototypes
                                (VObj [("name", VStr "John");
                                       ("age", VNum 30);
                                       ("country", VStr "USA")])
                                ["country"; "zip"; "name"] eq_refl))
                      (VObj [("country", VStr "USA"); ("name", VStr "John")])
                      eq_refl) "age").
Defined.

(** A key that the object only inherits takes the result out of the JSON
    values; the key [__proto__] creates no member. *)
Example filterKeys_inherited_name :
  filterKeys sample_prototypes (VObj [("a", VNum 1)]) ["toString"] = Beyond
  /\ filterKeys sample_prototypes
       (VObj [("__proto__", VNum 5); ("a", VNum 1)]) ["__proto__"; "a"]
     = Within (VObj [("a", VNum 1)]).
Proof. split; reflexivity. Qed.

Lemma picked_own_members (E : prototypes) (o es : list (string * value)) :
  (forall k x, In (k, x) es -> lookup k o = Some x) ->
  picked E (VObj o) (map fst es)
  = filter (fun kv => negb (dropped E (fst kv))) es.
Proof.
  induction es as [|[k x] es IH]; intros H; [reflexivity|].
  unfold picked in *. cbn [map fst flat_map filter get_prop] in *.
  rewrite (H k x (or_introl eq_refl)), IH
    by (intros k' x' Hin; apply H; now right).
  now destruct (dropped E k).
Qed.

Lemma every_key_kept (E : prototypes) :
  dropped E "__proto__" = false -> forall k, dropped E k = false.
Proof.
  intros H k. destruct (dropped E k) eqn:Dk; [|reflexivity].
  pose proof (dropped_key _ _ Dk). subst. congruence.
Qed.

Lemma picked_ext (E : prototypes) (obj1 obj2 : value) (ks : list string) :
  (forall k, In k ks -> dropped E k = false ->
             get_prop obj1 k = get_prop obj2 k) ->
  picked E obj1 ks = picked E obj2 ks.
Proof.
  induction ks as [|k ks IH]; intros H; [reflexivity|].
  unfold picked in *. cbn [flat_map]. f_equal.
  - destruct (dropped E k) eqn:Dk.
    + now destruct (get_prop obj1 k), (get_prop obj2 k).
    + now rewrite (H k (or_introl eq_refl) Dk).
  - apply IH. intros k' Hin. apply H. now right.
Qed.

Lemma picked_again (E : prototypes) (obj : value) (ks : list string) :
  picked E (VObj (assign [] (picked E obj ks))) ks = picked E obj ks.
Proof.
  apply picked_ext. intros k Hin Dk.
  cbn [get_prop]. rewrite lookup_assign, lookup_picked, Dk.
  assert (Ex : existsb (String.eqb k) ks = true).
  { apply existsb_exists. exists k. split; [assumption|apply String.eqb_refl]. }
  rewrite Ex. cbn [andb negb lookup].
  now destruct (get_prop obj k).
Qed.

(** X11.  On a mapping, [filterKeys] is idempotent where its result is
    within the JSON values:
    [filterKeys(filterKeys(obj, ks), ks) = filterKeys(obj, ks)]; and
    allowing all the keys of a mapping gives the mapping back, less its
    member [__proto__] where objects inherit that name. *)
Theorem filterKeys_idempotent (E : prototypes) (obj : value)
    (allowedKeys : list string) (Hwf : wf_value obj = true)
    (Hm : is_mapping obj = true) :
  (forall r, filterKeys E obj allowedKeys = Within r ->
             filterKeys E r allowedKeys = Within r)
  /\ filterKeys E obj (map fst (entries_of obj))
     = Within (VObj (filter (fun kv => negb (dropped E (fst kv)))
                            (entries_of obj))).
Proof.
  destruct obj as [| | | | |o]; try discriminate. clear Hm.
  cbn [entries_of]. split.
  - intros r. rewrite filterKeys_unfold by assumption. cbn [is_object].
    destruct (fold_left (filter_step E (VObj o)) allowedKeys
                (Within (true, []))) as [[live members]|] eqn:Ef;
      [|discriminate].
    intros [= <-].
    destruct (filter_fold_within E (VObj o) allowedKeys true [] live members)
      as [-> Hk]; [reflexivity|assumption|].
    rewrite filterKeys_unfold by now apply picked_wf. cbn [is_object].
    destruct (filter_fold_returns E
                (VObj (assign [] (picked E (VObj o) allowedKeys)))
                allowedKeys) with (live := true)
                                  (acc := @nil (string * value))
      as [live' ->].
    + intros k Hin Dk. cbn [get_prop kind_of].
      rewrite lookup_assign, lookup_picked, Dk.
      assert (Ex : existsb (String.eqb k) allowedKeys = true).
      { apply existsb_exists. exists k.
        split; [assumption|apply String.eqb_refl]. }
      rewrite Ex. cbn [andb negb lookup]. intros Hg. apply (Hk k Hin Dk).
      now destruct (get_prop (VObj o) k).
    + reflexivity.
    + destruct (dropped E "__proto__") eqn:Dp.
      * right. left. split; [|reflexivity]. unfold keeps_accessor.
        cbn [get_prop]. rewrite lookup_assign, lookup_picked, Dp.
        now rewrite andb_false_r.
      * left. intros k _. now apply every_key_kept.
    + now rewrite picked_again.
  - rewrite filterKeys_unfold by assumption. cbn [is_object].
    destruct (filter_fold_returns E (VObj o) (map fst o)) with
      (live := true) (acc := @nil (string * value)) as [live' ->].
    + intros k Hin _ Hg. cbn [get_prop] in Hg.
      now apply lookup_none_not_in in Hg.
    + reflexivity.
    + right. right. split; [|reflexivity].
      now apply (wf_entries_nodup (VObj o)).
    + rewrite picked_own_members.
      * f_equal. f_equal. apply from_entries_ordered.
        now apply keys_ordered_filter, wf_object_keys.
      * intros k x Hin. apply in_lookup_nodup; [|assumption].
        now apply (wf_entries_nodup (VObj o)).
Qed.

Lemma filterKeys_idempotent_witness :
  filterKeys sample_prototypes
    (VObj [("2", VArr []); ("a", VNum 1); ("b", VNull)])
    (map fst (entries_of (VObj [("2", VArr []); ("a", VNum 1); ("b", VNull)])))
  = Within (VObj [("2", VArr []); ("a", VNum 1); ("b", VNull)]).
Proof.
  exact (proj2 (filterKeys_idempotent sample_prototypes
                  (VObj [("2", VArr []); ("a", VNum 1); ("b", VNull)])
                  ["b"; "2"; "z"] eq_refl eq_refl)).
Defined.

(** ** [mapToJSON] and [jsonToMap] *)

Lemma mapToJSON_members (E : prototypes) (m : js_map) :
  mapToJSON E m = VObj (assign_members E [] (keyed_by_string m)).
Proof.
  unfold mapToJSON, assign_members, keyed_by_string. f_equal.
  generalize (@nil (string * value)).
  induction m as [|kv m IH]; intros acc; [reflexivity|]. exact (IH _).
Qed.

Lemma mapToJSON_kept (E : prototypes) (m : js_map) :
  mapToJSON E m
  = VObj (from_entries
            (filter (fun kv => negb (dropped E (fst kv)))
                    (keyed_by_string m))).
Proof.
  rewrite mapToJSON_members, assign_members_filter; [reflexivity|].
  reflexivity.
Qed.

Lemma map_set_fresh (key : scalar) (v : value) (m : js_map) :
  (forall kv, In kv m -> scalar_eqb (fst kv) key = false) ->
  map_set key v m = m ++ [(key, v)].
Proof.
  induction m as [|[k x] m IH]; intros H; [reflexivity|].
  pose proof (H (k, x) (or_introl eq_refl)) as E. cbn [fst] in E.
  cbn [map_set]. rewrite E. cbn [app]. f_equal. apply IH. intros kv Hin. apply H. now right.
Qed.

Lemma new_Map_of_entries (es : list (string * value)) :
  forall pre,
    NoDup (map fst (pre ++ es)) ->
    fold_left (fun m kv => map_set (SStr (fst kv)) (snd kv) m) es
      (string_keyed pre)
    = string_keyed (pre ++ es).
Proof.
  induction es as [|[k x] es IH]; intros pre H.
  - now rewrite List.app_nil_r.
  - cbn [fold_left fst snd]. rewrite map_set_fresh.
    + replace (string_keyed pre ++ [(SStr k, x)])
        with (string_keyed (pre ++ [(k, x)]))
        by (unfold string_keyed; now rewrite map_app).
      rewrite IH; rewrite <- List.app_assoc; [reflexivity|exact H].
    + intros [k' x'] Hin. unfold string_keyed in Hin.
      apply in_map_iff in Hin as [[k0 x0] [[= <- <-] Hin]].
      cbn [fst scalar_eqb]. apply String.eqb_neq. intros ->.
      rewrite map_app in H. apply NoDup_remove_2 in H. apply H.
      apply in_or_app. left. now apply (in_map fst) in Hin.
Qed.

Lemma jsonToMap_mapping (o : list (string * value)) :
  NoDup (map fst o) -> jsonToMap (VObj o) = string_keyed o.
Proof.
  intros H. unfold jsonToMap. cbn [truthy is_object is_array andb negb entries_of].
  exact (new_Map_of_entries o [] H).
Qed.

Lemma map_get_string_keyed (k : string) (o : list (string * value)) :
  map_get (SStr k) (string_keyed o) = lookup k o.
Proof.
  induction o as [|[k' x] o IH]; [reflexivity|].
  cbn [string_keyed map map_get lookup fst snd scalar_eqb].
  now destruct (k' =? k).
Qed.

Lemma keyed_by_string_keyed (o : list (string * value)) :
  keyed_by_string (string_keyed o) = o.
Proof.
  unfold keyed_by_string, string_keyed. rewrite map_map.
  rewrite <- (map_id o) at 2. apply map_ext. now intros [k x].
Qed.

Lemma mapToJSON_string_keyed (E : prototypes) (o : list (string * value)) :
  keys_ordered (map fst o) = true ->
  mapToJSON E (string_keyed o)
  = VObj (filter (fun kv => negb (dropped E (fst kv))) o).
Proof.
  intros H. rewrite mapToJSON_kept, keyed_by_string_keyed. f_equal.
  now apply from_entries_ordered, keys_ordered_filter.
Qed.

(** X12.  For a JSON mapping [json], the [Map] that [jsonToMap] makes has
    at a string key the value the mapping has there, and
    [mapToJSON(jsonToMap(json))] has the members of [json] other than a
    member [__proto__] where objects inherit that name, which the
    assignment of [mapToJSON] does not create: a mapping without such a
    member survives the trip.  For anything that is not a mapping ([null],
    a primitive, an array) [jsonToMap] gives the empty [Map]. *)
Theorem jsonToMap_round_trip (E : prototypes) (json : value)
    (Hwf : wf_value json = true) :
  (is_mapping json = true ->
   mapToJSON E (jsonToMap json)
   = VObj (filter (fun kv => negb (dropped E (fst kv))) (entries_of json))
   /\ ((forall k, dropped E k = true -> has_prop json k = false) ->
       mapToJSON E (jsonToMap json) = json)
   /\ forall k, map_get (SStr k) (jsonToMap json) = get_prop json k)
  /\ (is_mapping json = false -> jsonToMap json = []).
Proof.
  split.
  - destruct json as [| | | | |o]; try discriminate. intros _.
    rewrite jsonToMap_mapping by apply (wf_entries_nodup (VObj o) Hwf).
    rewrite mapToJSON_string_keyed by now apply wf_object_keys.
    cbn [entries_of]. split; [reflexivity|]. split.
    + intros H. f_equal. apply filter_kept. intros k Dk.
      specialize (H k Dk). now apply has_prop_false in H.
    + intros k. apply map_get_string_keyed.
  - destruct json as [|b|n|s|l|o]; try discriminate; intros _; unfold jsonToMap;
      cbn [truthy is_object is_array andb negb]; try reflexivity.
    + now destruct b.
    + now destruct (negb (n =? 0)%Z).
    + now destruct (negb (s =? "")).
Qed.

Lemma jsonToMap_round_trip_witness :
  mapToJSON sample_prototypes
    (jsonToMap (VObj [("7", VArr [VNull]); ("b", VNum 2); ("a", VObj [])]))
  = VObj [("7", VArr [VNull]); ("b", VNum 2); ("a", VObj [])].
Proof.
  exact (proj1 (proj2 (proj1 (jsonToMap_round_trip sample_prototypes
                                (VObj [("7", VArr [VNull]); ("b", VNum 2);
                                       ("a", VObj [])]) eq_refl) eq_refl))
               (fun k (H : dropped sample_prototypes k = true) =>
                  f_equal (fun s => has_prop (VObj [("7", VArr [VNull]);
                                                    ("b", VNum 2);
                                                    ("a", VObj [])]) s)
                          (dropped_key sample_prototypes k H))).
Defined.

(** The member [__proto__] of a parsed text is lost on the trip. *)
Example jsonToMap_round_trip_proto :
  mapToJSON sample_prototypes
    (jsonToMap (VObj [("__proto__", VNum 5); ("a", VNum 1)]))
  = VObj [("a", VNum 1)].
Proof. reflexivity. Qed.




(** X14.  A [Map] with string keys that stand in property order comes back
    from the trip through an object, [jsonToMap(mapToJSON(map))], with its
    entries in the same order, less the entry of the key [__proto__] where
    objects inherit that name: without such a key the [Map] survives. *)
Theorem mapToJSON_round_trip (E : prototypes) (o : list (string * value))
    (Hord : keys_ordered (map fst o) = true) :
  jsonToMap (mapToJSON E (string_keyed o))
  = string_keyed (filter (fun kv => negb (dropped E (fst kv))) o)
  /\ ((forall k, dropped E k = true -> lookup k o = None) ->
      jsonToMap (mapToJSON E (string_keyed o)) = string_keyed o).
Proof.
  rewrite mapToJSON_string_keyed by assumption.
  rewrite jsonToMap_mapping
    by now apply keys_ordered_nodup, keys_ordered_filter.
  split; [reflexivity|]. intros H. now rewrite filter_kept.
Qed.

Lemma mapToJSON_round_trip_witness :
  jsonToMap (mapToJSON sample_prototypes
               (string_keyed [("0", VNum 5); ("x", VNull)]))
  = string_keyed [("0", VNum 5); ("x", VNull)].
Proof.
  exact (proj1 (mapToJSON_round_trip sample_prototypes
                  [("0", VNum 5); ("x", VNull)] eq_refl)).
Defined.

(** ** Paths, leaves and searches *)

Lemma walk_app (E : prototypes) (p q : list string) : forall cur,
  walk E cur (p ++ q)
  = match walk E cur p with
    | Within (Some mid) => walk E mid q
    | Within None => Within None
    | Beyond => Beyond
    end.
Proof.
  induction p as [|key p IH]; intros cur; [reflexivity|].
  cbn [app walk]. destruct (truthy cur); [|reflexivity].
  destruct (get E cur key) as [[next|]|]; [apply IH|reflexivity..].
Qed.

Lemma object_truthy (v : value) : is_object v = true -> truthy v = true.
Proof. now destruct v. Qed.

(** X15.  [getByPath] composes along a path cut in two.  When the first part
    fails, the whole path fails; when it ends at an object or array, the rest
    is looked up from there; in every case the rest is walked from where the
    first part ends, so a path can step on into a string (its characters and
    its length), where [getByPath] started at that string finds nothing.
    When the first part leaves the own properties for a member of a built-in
    prototype, so does the whole path. *)
Theorem getByPath_composes (E : prototypes) (obj : value) (p q : list string)
    (Hobj : is_object obj = true) :
  (getByPath E obj p = Within None -> getByPath E obj (p ++ q) = Within None)
  /\ (forall mid, getByPath E obj p = Within (Some mid) ->
        getByPath E obj (p ++ q) = walk E mid q
        /\ (is_object mid = true ->
            getByPath E obj (p ++ q) = getByPath E mid q)
        /\ (is_object mid = false -> getByPath E mid q = Within None))
  /\ (getByPath E obj p = Beyond -> getByPath E obj (p ++ q) = Beyond).
Proof.
  rewrite !getByPath_unfold, Hobj, walk_app. split; [|split].
  - now intros ->.
  - intros mid ->. split; [reflexivity|]. rewrite getByPath_unfold.
    split; now intros ->.
  - now intros ->.
Qed.

Lemma getByPath_composes_witness :
  getByPath sample_prototypes (VObj [("a", VArr [VStr "xy"])])
    (["a"; "0"] ++ ["length"])
  = walk sample_prototypes (VStr "xy") ["length"].
Proof.
  exact (proj1 (proj1 (proj2 (getByPath_composes sample_prototypes
                                (VObj [("a", VArr [VStr "xy"])])
                                ["a"; "0"] ["length"] eq_refl))
                  (VStr "xy") eq_refl)).
Defined.

Lemma leaves_walk_node (E : prototypes) (obj : value) :
  is_object obj = true -> wf_value obj = true ->
  Forall (fun c => wf_value c = true ->
                   forall p x, In (p, x) (leaves c) ->
                               walk E c p = Within (Some x))
         (children obj) ->
  forall p x, In (p, x) (leaves obj) -> walk E obj p = Within (Some x).
Proof.
  intros Hobj Hwf IH p x Hin. rewrite leaves_unfold in Hin by assumption.
  unfold leaves_members in Hin. apply in_flat_map in Hin as [[k c] [Hkc Hin]].
  cbn [fst snd] in Hin.
  pose proof (proj2 (get_own E obj k c) (get_prop_entry obj k c Hwf Hobj Hkc))
    as Hget.
  assert (Hc : In c (children obj)) by (now apply (in_map snd) in Hkc).
  destruct (is_object c) eqn:Ec.
  - apply in_map_iff in Hin as [[p' x'] [[= <- <-] Hin]].
    cbn [walk]. rewrite object_truthy, Hget by assumption.
    rewrite Forall_forall in IH. apply (IH c Hc); [|assumption].
    now apply (wf_children obj).
  - destruct Hin as [[= <- <-]|[]]. cbn [walk].
    now rewrite object_truthy, Hget by assumption.
Qed.

Lemma leaves_walk (E : prototypes) (obj : value) :
  wf_value obj = true ->
  forall p x, In (p, x) (leaves obj) -> walk E obj p = Within (Some x).
Proof.
  induction obj as [| | | |l IH|o IH] using value_ind; intros Hwf p x Hin;
    try contradiction.
  - apply (leaves_walk_node E (VArr l)); try assumption; [reflexivity|].
    now rewrite children_array.
  - apply (leaves_walk_node E (VObj o)); try assumption; [reflexivity|].
    unfold children. cbn [entries_of]. now apply Forall_map.
Qed.

(** X16.  [flattenObject] and [getByPath] agree: every entry of
    [flattenObject(obj)] is the value [getByPath] finds in [obj] along a path
    whose keys, joined with dots, are the key of the entry; and every leaf of
    [obj] is found by [getByPath] along its sequence of keys. *)
Theorem flattenObject_entries_found_by_path (E : prototypes) (obj : value)
    (Hwf : wf_value obj = true) (Hobj : is_object obj = true)
    (Hnamed : top_branches_named obj = true) :
  (forall k v, get_prop (flattenObject E obj "") k = Some v ->
     exists p, dotted p = k /\ getByPath E obj p = Within (Some v))
  /\ (forall p x, In (p, x) (leaves obj) ->
                  getByPath E obj p = Within (Some x)).
Proof.
  assert (Hleaf : forall p x, In (p, x) (leaves obj) ->
                              getByPath E obj p = Within (Some x)).
  { intros p x Hin. rewrite getByPath_unfold, Hobj. now apply leaves_walk. }
  split; [|exact Hleaf].
  intros k v H. rewrite flattenObject_lookup in H.
  destruct (dropped E k); [discriminate|].
  rewrite keyed_top_dotted in H by assumption.
  apply lookup_in, in_rev, in_map_iff in H as [[p x] [[= <- <-] Hin]].
  exists p. split; [reflexivity|]. now apply Hleaf.
Qed.

Lemma flattenObject_entries_found_by_path_witness :
  exists p,
    dotted p = "a.b.1"
    /\ getByPath sample_prototypes
         (VObj [("a", VObj [("b", VArr [VNum 1; VStr "s"])]); ("c", VNull)]) p
       = Within (Some (VStr "s")).
Proof.
  exact (proj1 (flattenObject_entries_found_by_path sample_prototypes
                  (VObj [("a", VObj [("b", VArr [VNum 1; VStr "s"])]);
                         ("c", VNull)]) eq_refl eq_refl eq_refl)
           "a.b.1" (VStr "s") eq_refl).
Defined.

Lemma nested_in_path (E : prototypes) (obj node : value) :
  nested_in obj node ->
  wf_value obj = true -> is_object obj = true ->
  exists path, walk E obj path = Within (Some node) /\ is_object node = true.
Proof.
  induction 1 as [obj|obj x node Hx Ex Hn IH]; intros Hwf Hobj.
  - now exists [].
  - destruct (IH (wf_children obj x Hwf Hobj Hx) Ex) as (path & Hwalk & Hnode).
    unfold children in Hx. apply in_map_iff in Hx as [[k c] [Ec Hin]].
    cbn [snd] in Ec. subst c.
    exists (k :: path). split; [|assumption].
    cbn [walk].
    now rewrite object_truthy,
      (proj2 (get_own E obj k x) (get_prop_entry obj k x Hwf Hobj Hin))
      by assumption.
Qed.

(** X17.  What [findValueByKey] returns is in the object: when the search
    returns a value for [key], some path through [obj] that ends with [key]
    leads [getByPath] to the same value.  [safeFindValueByKey] returns the
    same value. *)
Theorem findValueByKey_result_found_by_path (E : prototypes) (obj : value)
    (key : string) (r : value) (Hwf : wf_value obj = true)
    (Hobj : is_object obj = true)
    (Hfound : findValueByKey E obj key = Returned (Within (Some r))) :
  (exists path, getByPath E obj (path ++ [key]) = Within (Some r))
  /\ safeFindValueByKey E obj key = Within (Some r).
Proof.
  destruct (search_correct E key obj Hobj) as (Hsame & _ & Hsome & _).
  assert (Hsafe : safeFindValueByKey E obj key = Within (Some r))
    by congruence.
  split; [|exact Hsafe].
  destruct (Hsome r Hsafe) as (node & Hnested & Hget).
  destruct (nested_in_path E obj node Hnested Hwf Hobj)
    as (path & Hwalk & Hnode).
  exists path. rewrite getByPath_unfold, Hobj, walk_app, Hwalk.
  cbn [walk].
  now rewrite object_truthy, (proj2 (get_own E node key r) Hget)
    by assumption.
Qed.

Lemma findValueByKey_result_found_by_path_witness :
  exists path,
    getByPath sample_prototypes
      (VObj [("a", VArr [VNull; VObj [("id", VNum 7)]])]) (path ++ ["id"])
    = Within (Some (VNum 7)).
Proof.
  exact (proj1 (findValueByKey_result_found_by_path sample_prototypes
                  (VObj [("a", VArr [VNull; VObj [("id", VNum 7)]])])
                  "id" (VNum 7) eq_refl eq_refl eq_refl)).
Defined.

(** *** [removeEmptyValues], applied again *)

Lemma filter_twice {A : Type} (f : A -> bool) (l : list A) :
  filter f (filter f l) = filter f l.
Proof.
  induction l as [|x l IH]; [reflexivity|]. cbn [filter].
  destruct (f x) eqn:E; [|assumption]. cbn [filter]. now rewrite E, IH.
Qed.

Lemma removeEmptyValues_wf (obj : value) :
  wf_value obj = true -> wf_value (removeEmptyValues obj) = true.
Proof.
  intros Hwf. rewrite removeEmptyValues_unfold by assumption.
  destruct (is_object obj) eqn:Eo; [|reflexivity].
  cbn [wf_value]. apply andb_true_iff. split.
  - now apply keys_ordered_filter, wf_entries_ordered.
  - apply forallb_forall. intros [k x] Hin. apply filter_In in Hin as [Hin _].
    apply (wf_children obj); [assumption..|]. now apply (in_map snd) in Hin.
Qed.

(** X18.  [removeEmptyValues] is idempotent, and its result has no member
    that is [null] or the empty string. *)
Theorem removeEmptyValues_idempotent (obj : value)
    (Hwf : wf_value obj = true) :
  removeEmptyValues (removeEmptyValues obj) = removeEmptyValues obj
  /\ (forall k v, get_prop (removeEmptyValues obj) k = Some v ->
                  v <> VNull /\ v <> VStr "").
Proof.
  pose proof (removeEmptyValues_wf obj Hwf) as Hr.
  rewrite (removeEmptyValues_unfold (removeEmptyValues obj)) by assumption.
  rewrite (removeEmptyValues_unfold obj) in * by assumption.
  destruct (is_object obj); cbn [is_object entries_of get_prop].
  - split; [now rewrite filter_twice|].
    intros k v H. apply lookup_in, filter_In in H as [_ H]. cbn [snd] in H.
    split; intros ->; discriminate.
  - split; [reflexivity|]. intros k v H. discriminate.
Qed.

Lemma removeEmptyValues_idempotent_witness :
  removeEmptyValues
    (removeEmptyValues (VArr [VNull; VStr ""; VNum 0; VArr []; VBool false]))
  = removeEmptyValues (VArr [VNull; VStr ""; VNum 0; VArr []; VBool false]).
Proof.
  exact (proj1 (removeEmptyValues_idempotent
                  (VArr [VNull; VStr ""; VNum 0; VArr []; VBool false])
                  eq_refl)).
Defined.

(** ** [removeUndefined] *)

Lemma serialized_object (o : list (string * jsvalue)) :
  serialized (JObj o) = Some (VObj (kept_members o)).
Proof.
  cbn [serialized]. do 2 f_equal. unfold kept_members.
  induction o as [|[k x] o IH]; [reflexivity|].
  cbn [flat_map fst snd]. rewrite IH. now destruct (serialized x).
Qed.

Lemma serialized_none (x : jsvalue) : serialized x = None -> x = JUndefined.
Proof. destruct x; try discriminate. reflexivity. Qed.

Lemma kept_members_in (k : string) (y : value) (o : list (string * jsvalue)) :
  In (k, y) (kept_members o) ->
  exists x, In (k, x) o /\ serialized x = Some y.
Proof.
  unfold kept_members. intros H. apply in_flat_map in H as [[k' x] [Hin H]].
  cbn [fst snd] in H. destruct (serialized x) as [y'|] eqn:E; [|contradiction].
  destruct H as [[= <- <-]|[]]. now exists x.
Qed.

Lemma kept_members_ordered (o : list (string * jsvalue)) :
  keys_ordered (map fst o) = true ->
  keys_ordered (map fst (kept_members o)) = true.
Proof.
  induction o as [|[k x] o IH]; [reflexivity|].
  cbn [map fst keys_ordered]. intros H. apply andb_prop in H as [H1 H2].
  change (kept_members ((k, x) :: o))
    with (match serialized x with
          | Some y => [(k, y)]
          | None => []
          end ++ kept_members o).
  destruct (serialized x) as [y|]; cbn [app]; [|auto].
  cbn [map fst keys_ordered]. rewrite (IH H2), andb_true_r.
  rewrite forallb_forall in *. intros k' Hk'. apply H1.
  apply in_map_iff in Hk' as [[k0 y0] [E Hin]]. cbn [fst] in E. subst k0.
  apply kept_members_in in Hin as [x0 [Hin _]]. now apply (in_map fst) in Hin.
Qed.

Lemma serialized_wf (x : jsvalue) :
  wf_jsvalue x = true ->
  forall y, serialized x = Some y -> wf_value y = true.
Proof.
  induction x as [| | | | |l IH|o IH] using jsvalue_ind; intros Hwf y;
    try (intros [= <-]; reflexivity); try discriminate.
  - cbn [serialized]. intros [= <-]. cbn [wf_value wf_jsvalue] in *.
    rewrite forallb_forall in *. intros y Hy.
    apply in_map_iff in Hy as [x [<- Hx]]. rewrite Forall_forall in IH.
    destruct (serialized x) as [y'|] eqn:E; [|reflexivity].
    now apply (IH x Hx (Hwf x Hx)).
  - rewrite serialized_object. intros [= <-]. cbn [wf_value wf_jsvalue] in *.
    apply andb_prop in Hwf as [Hord Hwf]. apply andb_true_iff. split.
    + now apply kept_members_ordered.
    + rewrite forallb_forall in *. intros [k y] Hin.
      apply kept_members_in in Hin as [x [Hin E]]. rewrite Forall_forall in IH.
      exact (IH (k, x) Hin (Hwf (k, x) Hin) y E).
Qed.

Lemma serialized_inject (v : value) : serialized (inject v) = Some v.
Proof.
  induction v as [| | | |l IH|o IH] using value_ind; try reflexivity.
  - cbn [inject serialized]. do 2 f_equal. rewrite map_map.
    rewrite <- (map_id l) at 2. apply map_ext_in. intros x Hx.
    rewrite Forall_forall in IH. now rewrite (IH x Hx).
  - cbn [inject]. rewrite serialized_object. do 2 f_equal.
    induction o as [|[k x] o IHo]; [reflexivity|].
    inversion IH as [|? ? Hx Ho]; subst. cbn [snd] in Hx.
    unfold kept_members in *. cbn [map flat_map fst snd].
    now rewrite Hx, (IHo Ho).
Qed.

Lemma holds_undefined_inject (v : value) : holds_undefined (inject v) = false.
Proof.
  induction v as [| | | |l IH|o IH] using value_ind; try reflexivity.
  - cbn [inject holds_undefined]. induction IH as [|x l Hx _ IHl]; [reflexivity|].
    cbn [map existsb]. now rewrite Hx, IHl.
  - cbn [inject holds_undefined]. induction IH as [|[k x] o Hx _ IHo]; [reflexivity|].
    cbn [map existsb fst snd] in *. now rewrite Hx, IHo.
Qed.

Lemma wf_jsvalue_inject (v : value) :
  wf_value v = true -> wf_jsvalue (inject v) = true.
Proof.
  intros H. pose proof (serialized_inject v) as E.
  induction v as [| | | |l IH|o IH] using value_ind; try reflexivity.
  - cbn [inject wf_jsvalue wf_value] in *. rewrite forallb_forall in *.
    intros y Hy. apply in_map_iff in Hy as [x [<- Hx]].
    rewrite Forall_forall in IH. apply (IH x Hx (H x Hx)), serialized_inject.
  - cbn [inject wf_jsvalue wf_value] in *. apply andb_prop in H as [H1 H2].
    assert (Hk : map fst (map (fun kv => (fst kv, inject (snd kv))) o)
                 = map fst o) by (rewrite map_map; now apply map_ext).
    rewrite Hk, H1. cbn [andb].
    rewrite forallb_forall in *. intros [k y] Hy.
    apply in_map_iff in Hy as [[k' x] [[= <- <-] Hx]].
    rewrite Forall_forall in IH.
    apply (IH (k', x) Hx (H2 (k', x) Hx)), serialized_inject.
Qed.

Lemma no_undefined_serialized (x : jsvalue) :
  holds_undefined x = false -> exists v, serialized x = Some v /\ inject v = x.
Proof.
  induction x as [| | | | |l IH|o IH] using jsvalue_ind; intros H;
    try discriminate; try (eexists; split; reflexivity).
  - exists (VArr (map (fun x => match serialized x with
                                | Some y => y
                                | None => VNull
                                end) l)).
    split; [reflexivity|]. cbn [inject holds_undefined] in *. f_equal.
    rewrite map_map. rewrite <- (map_id l) at 2. apply map_ext_in. intros x Hx.
    rewrite Forall_forall in IH. destruct (IH x Hx) as (v & -> & E); [|exact E].
    destruct (holds_undefined x) eqn:Ex; [|reflexivity].
    assert (existsb holds_undefined l = true)
      by (apply existsb_exists; now exists x).
    congruence.
  - exists (VObj (kept_members o)). split; [apply serialized_object|].
    cbn [inject holds_undefined] in *. f_equal.
    induction o as [|[k x] o IHo]; [reflexivity|].
    inversion IH as [|? ? Hx Ho]; subst. cbn [existsb snd] in *.
    apply orb_false_iff in H as [H1 H2].
    destruct (Hx H1) as (v & E & Ev). unfold kept_members in *.
    cbn [flat_map fst snd]. rewrite E. cbn [app map fst snd].
    now rewrite Ev, (IHo Ho H2).
Qed.

Lemma removeUndefined_serialized (obj : jsvalue) (v : value) :
  wf_jsvalue obj = true -> serialized obj = Some v ->
  removeUndefined obj = inject v.
Proof.
  intros Hwf E. unfold removeUndefined. rewrite E.
  now rewrite JSON_parse_stringify by apply (serialized_wf obj Hwf v E).
Qed.

Lemma removeUndefined_inject (v : value) :
  wf_value v = true -> removeUndefined (inject v) = inject v.
Proof.
  intros H. apply removeUndefined_serialized;
    [now apply wf_jsvalue_inject|apply serialized_inject].
Qed.

(** X19.  [removeUndefined] on a value with [undefined] in it: the result
    holds no [undefined], unless the value is [undefined] itself, which comes
    back as it is (the [catch] branch); a value without [undefined] comes
    back unchanged; the method is idempotent. *)
Theorem removeUndefined_leaves_no_undefined (obj : jsvalue)
    (Hwf : wf_jsvalue obj = true) :
  (obj = JUndefined -> removeUndefined obj = JUndefined)
  /\ (obj <> JUndefined -> holds_undefined (removeUndefined obj) = false)
  /\ (holds_undefined obj = false -> removeUndefined obj = obj)
  /\ removeUndefined (removeUndefined obj) = removeUndefined obj.
Proof.
  destruct (serialized obj) as [v|] eqn:E.
  - pose proof (removeUndefined_serialized obj v Hwf E) as R.
    pose proof (serialized_wf obj Hwf v E) as Hv.
    rewrite R. split; [|split; [|split]].
    + intros ->. discriminate.
    + intros _. apply holds_undefined_inject.
    + intros H. destruct (no_undefined_serialized obj H) as (v' & E' & <-).
      congruence.
    + now apply removeUndefined_inject.
  - apply serialized_none in E. subst obj.
    split; [intros _; reflexivity|].
    split; [congruence|]. split; [discriminate|reflexivity].
Qed.

Lemma removeUndefined_leaves_no_undefined_witness :
  holds_undefined
    (removeUndefined (JObj [("a", JUndefined);
                            ("b", JArr [JNum 1; JUndefined])]))
  = false.
Proof.
  refine (proj1 (proj2 (removeUndefined_leaves_no_undefined
                          (JObj [("a", JUndefined);
                                 ("b", JArr [JNum 1; JUndefined])])
                          eq_refl)) _).
  discriminate.
Defined.

(** X20.  Where the [undefined] goes: an [undefined] element of an array
    becomes [null], so the array keeps its length; a member of an object
    whose value is [undefined] is dropped; every other element and member is
    cleaned in turn. *)
Theorem removeUndefined_nulls_elements_drops_members
    (l : list jsvalue) (o : list (string * jsvalue))
    (Hl : wf_jsvalue (JArr l) = true) (Ho : wf_jsvalue (JObj o) = true) :
  removeUndefined (JArr l)
  = JArr (map (fun x => if is_undefined x then JNull else removeUndefined x) l)
  /\ removeUndefined (JObj o)
     = JObj (map (fun kv => (fst kv, removeUndefined (snd kv)))
               (filter (fun kv => negb (is_undefined (snd kv))) o)).
Proof.
  split.
  - rewrite (removeUndefined_serialized (JArr l)
               (VArr (map (fun x => match serialized x with
                                    | Some y => y
                                    | None => VNull
                                    end) l)) Hl eq_refl).
    cbn [inject]. f_equal. rewrite map_map. apply map_ext_in. intros x Hx.
    cbn [wf_jsvalue] in Hl. rewrite forallb_forall in Hl. cbv beta.
    destruct (serialized x) as [y|] eqn:E.
    + rewrite (removeUndefined_serialized x y (Hl x Hx) E).
      destruct x; try reflexivity. discriminate E.
    + apply serialized_none in E. now subst x.
  - rewrite (removeUndefined_serialized (JObj o) _ Ho (serialized_object o)).
    cbn [inject]. f_equal. cbn [wf_jsvalue] in Ho. apply andb_prop in Ho as [_ Ho].
    induction o as [|[k x] o IH]; [reflexivity|].
    cbn [forallb snd] in Ho. apply andb_prop in Ho as [Hx Ho].
    unfold kept_members in *. cbn [flat_map filter fst snd].
    destruct (serialized x) as [y|] eqn:E.
    + assert (U : is_undefined x = false) by (destruct x; try reflexivity; discriminate E).
      rewrite U. cbn [negb app map fst snd].
      now rewrite (removeUndefined_serialized x y Hx E), (IH Ho).
    + apply serialized_none in E. subst x. cbn [is_undefined negb app].
      now apply IH.
Qed.

Lemma removeUndefined_nulls_elements_drops_members_witness :
  removeUndefined (JArr [JUndefined; JStr "s"; JObj [("k", JUndefined)]])
  = JArr (map (fun x => if is_undefined x then JNull else removeUndefined x)
            [JUndefined; JStr "s"; JObj [("k", JUndefined)]]).
Proof.
  exact (proj1 (removeUndefined_nulls_elements_drops_members
                  [JUndefined; JStr "s"; JObj [("k", JUndefined)]]
                  [("x", JUndefined)] eq_refl eq_refl)).
Defined.

(** ** [mergeUniqueByKey] and [uniqueValuesByKey] *)

Module UniqueFacts.
Import Refs Unique.

Lemma first_occurrences_fresh (h : store) (key : string) (run : list rvalue) :
  forall earlier item e,
    In item (first_occurrences h key earlier run) ->
    In e earlier -> eligible h key e = true ->
    get_prop h e key <> get_prop h item key.
Proof.
  induction run as [|x run IH]; intros earlier item e Hin He Hel;
    [contradiction|].
  cbn [first_occurrences] in Hin. apply in_app_or in Hin as [Hin|Hin].
  - destruct (eligible h key x); cbn [andb] in Hin; [|contradiction].
    destruct (existsb _ earlier) eqn:Ex; cbn [negb] in Hin; [contradiction|].
    destruct Hin as [<-|[]]. intros Heq.
    assert (Ht : existsb
                   (fun y => eligible h key y
                             && same_read (get_prop h y key) (get_prop h x key))
                   earlier = true).
    { apply existsb_exists. exists e. split; [assumption|].
      rewrite Hel. now apply RefsFacts.same_read_eq. }
    congruence.
  - apply (IH (earlier ++ [x])); [assumption| |assumption].
    apply in_or_app. now left.
Qed.

Lemma first_occurrences_distinct (h : store) (key : string)
    (run : list rvalue) :
  forall earlier,
    NoDup (map (fun item => get_prop h item key)
             (first_occurrences h key earlier run)).
Proof.
  induction run as [|x run IH]; intros earlier; [constructor|].
  cbn [first_occurrences].
  destruct (eligible h key x
            && negb (existsb
                       (fun y => eligible h key y
                                 && same_read (get_prop h y key)
                                      (get_prop h x key)) earlier)) eqn:E;
    cbn [app map]; [|apply IH].
  constructor; [|apply IH].
  intros Hin. apply in_map_iff in Hin as [item [Heq Hin]].
  apply andb_prop in E as [Hel _].
  apply (first_occurrences_fresh h key run (earlier ++ [x]) item x);
    [assumption| |assumption|now symmetry].
  apply in_or_app. right. now left.
Qed.

Lemma mergeUniqueByKey_thrown (h : store) (arrays : rvalue) (key : string) :
  mergeUniqueByKey h arrays key = Thrown
  <-> exists x, In x (input_elements h arrays) /\ shadows_method h x = true.
Proof.
  rewrite RefsFacts.mergeUniqueByKey_outcome, <- existsb_exists.
  destruct (existsb (shadows_method h) (input_elements h arrays));
    split; congruence.
Qed.

Lemma mergeUniqueByKey_returned (h : store) (arrays : rvalue) (key : string)
    (items : list rvalue) :
  mergeUniqueByKey h arrays key = Returned items ->
  items = first_occurrences h key [] (input_elements h arrays)
  /\ forall x, In x (input_elements h arrays) -> shadows_method h x = false.
Proof.
  rewrite RefsFacts.mergeUniqueByKey_outcome.
  destruct (existsb (shadows_method h) (input_elements h arrays)) eqn:Ex;
    [discriminate|].
  intros [= <-]. split; [reflexivity|]. intros x Hin.
  destruct (shadows_method h x) eqn:Es; [|reflexivity].
  assert (existsb (shadows_method h) (input_elements h arrays) = true);
    [|congruence].
  apply existsb_exists. now exists x.
Qed.

(** X21.  [mergeUniqueByKey] raises exactly when an element of the
    flattened input is an object with an own member named [hasOwnProperty].
    When it returns, the values at [key] of the retained elements are
    pairwise distinct under [===]; every retained element is a truthy
    element of the flattened input on which [hasOwnProperty(key)] returns
    true; and every such element of the input has its value at [key] carried
    by a retained element. *)
Theorem mergeUniqueByKey_one_per_key_value (h : store) (arrays : rvalue)
    (key : string) :
  (mergeUniqueByKey h arrays key = Thrown
   <-> exists x, In x (input_elements h arrays) /\ shadows_method h x = true)
  /\ forall items, mergeUniqueByKey h arrays key = Returned items ->
       NoDup (map (fun item => get_prop h item key) items)
       /\ (forall item, In item items ->
             In item (input_elements h arrays)
             /\ truthy item = true
             /\ hasOwnProperty h item key = Returned true)
       /\ (forall y, In y (input_elements h arrays) ->
             truthy y = true -> hasOwnProperty h y key = Returned true ->
             exists item, In item items
                          /\ get_prop h item key = get_prop h y key).
Proof.
  split; [apply mergeUniqueByKey_thrown|].
  intros items H. apply mergeUniqueByKey_returned in H as [-> Hplain].
  split; [|split].
  - apply first_occurrences_distinct.
  - intros item Hin.
    apply RefsFacts.first_occurrences_eligible in Hin as [Hin Hel].
    apply andb_prop in Hel as [Ht Hp]. unfold hasOwnProperty.
    rewrite (Hplain item Hin), Hp. auto.
  - intros y Hin Ht Hp. unfold hasOwnProperty in Hp.
    rewrite (Hplain y Hin) in Hp. injection Hp as Hp.
    destruct (RefsFacts.first_occurrences_represent h key
                (input_elements h arrays) [] y Hin) as [(e & [] & _)|H];
      [|exact H].
    unfold eligible. now rewrite Ht, Hp.
Qed.

(** An own member named [hasOwnProperty] makes the call raise. *)
Example mergeUniqueByKey_shadowed_method :
  mergeUniqueByKey
    (fun l =>
       match l with
       | 0 => Some (CArr [RRef 1])
       | 1 => Some (CObj [("hasOwnProperty", RNum 1); ("id", RNum 1)])
       | _ => None
       end) (RRef 0) "id"
  = Thrown.
Proof. reflexivity. Qed.

(** *** [arr.map] with a callback that may raise, and [new Set] *)

Lemma map_raising_returned {A B : Type} (f : A -> outcome B) (xs : list A) :
  forall ys, map_raising f xs = Returned ys ->
             forall y, In y ys <-> exists x, In x xs /\ f x = Returned y.
Proof.
  induction xs as [|x xs IH]; intros ys; cbn [map_raising].
  - intros [= <-] y. split; [contradiction|]. now intros (x & [] & _).
  - destruct (f x) as [y0|] eqn:E; [|discriminate].
    destruct (map_raising f xs) as [ys0|]; [|discriminate].
    intros [= <-] y. cbn [In]. rewrite (IH ys0 eq_refl y). split.
    + intros [<-|(x' & Hin & Hx')]; [exists x|exists x']; auto.
    + intros (x' & [<-|Hin] & Hx'); [left; congruence|right; eauto].
Qed.

Lemma map_raising_thrown {A B : Type} (f : A -> outcome B) (xs : list A) :
  map_raising f xs = Thrown <-> exists x, In x xs /\ f x = Thrown.
Proof.
  induction xs as [|x xs IH]; cbn [map_raising].
  - split; [discriminate|]. now intros (x & [] & _).
  - destruct (f x) as [y0|] eqn:E.
    + destruct (map_raising f xs) as [ys0|].
      * split; [discriminate|]. intros (x' & [<-|Hin] & Hx'); [congruence|].
        assert (H : @Returned (list B) ys0 = Thrown) by (apply IH; eauto).
        discriminate H.
      * split; [|intros _; reflexivity]. intros _.
        destruct (proj1 IH eq_refl) as (x' & Hin & Hx'). exists x'.
        split; [now right|assumption].
    + split; [|intros _; reflexivity]. intros _. exists x.
      split; [now left|assumption].
Qed.

Lemma set_add_spec (seen : list (option rvalue)) (x v : option rvalue) :
  NoDup seen ->
  NoDup (set_add seen x) /\ (In v (set_add seen x) <-> In v seen \/ v = x).
Proof.
  intros Hnd. unfold set_add. destruct (existsb (same_read x) seen) eqn:E.
  - split; [assumption|]. split; [auto|]. intros [H| ->]; [assumption|].
    apply existsb_exists in E as (y & Hin & Hy).
    apply RefsFacts.same_read_eq in Hy. now subst y.
  - split.
    + apply NoDup_app; [assumption|repeat constructor; intros []|].
      intros y Hin [<-|[]].
      assert (existsb (same_read x) seen = true); [|congruence].
      apply existsb_exists. exists x. split; [assumption|].
      now apply RefsFacts.same_read_eq.
    + rewrite in_app_iff. cbn [In]. intuition congruence.
Qed.

Lemma set_of_spec (values : list (option rvalue)) :
  forall seen, NoDup seen ->
    NoDup (fold_left set_add values seen)
    /\ forall v, In v (fold_left set_add values seen)
                 <-> In v seen \/ In v values.
Proof.
  induction values as [|x values IH]; intros seen Hnd; cbn [fold_left].
  - split; [assumption|]. intros v. cbn [In]. tauto.
  - destruct (IH (set_add seen x) (proj1 (set_add_spec seen x x Hnd)))
      as [H1 H2].
    split; [assumption|]. intros v. rewrite H2.
    rewrite (proj2 (set_add_spec seen x v Hnd)). cbn [In].
    intuition congruence.
Qed.

Lemma read_key_thrown (E : prototypes) (h : store) (key : string)
    (item : rvalue) :
  read_key E h key item = Thrown <-> raises item = true.
Proof.
  unfold read_key, raises.
  destruct item as [|b|n|s|l]; cbn [truthy andb]; try (split; congruence).
  - destruct b; cbn [andb]; split; congruence.
  - destruct (negb (n =? 0)%Z); cbn [andb]; split; congruence.
  - destruct (negb (s =? "")); cbn [andb]; split; congruence.
  - destruct (get_prop h (RRef l) key); [split; congruence|].
    destruct (inherited_by E h (RRef l) key); split; congruence.
Qed.

Lemma read_key_beyond (E : prototypes) (h : store) (key : string)
    (item : rvalue) :
  read_key E h key item = Returned Beyond
  <-> get_prop h item key = None /\ inherited_by E h item key = true.
Proof.
  unfold read_key.
  destruct item as [|b|n|s|l]; cbn [truthy inherited_by];
    try (split; [discriminate|intros [_ H]; discriminate H]).
  - destruct b; split; try discriminate; intros [_ H]; discriminate H.
  - destruct (negb (n =? 0)%Z); split; try discriminate;
      intros [_ H]; discriminate H.
  - destruct (negb (s =? "")); split; try discriminate;
      intros [_ H]; discriminate H.
  - destruct (get_prop h (RRef l) key) as [x|].
    + split; [discriminate|]. intros [H _]. discriminate H.
    + fold (inherited_by E h (RRef l) key).
      destruct (inherited_by E h (RRef l) key); split; try discriminate; auto.
      intros [_ H]. discriminate H.
Qed.

Lemma all_within_beyond {A : Type} (reads : list (modelled A)) :
  all_within reads = Beyond <-> In Beyond reads.
Proof.
  induction reads as [|[x|] reads IH]; cbn [all_within In].
  - split; [discriminate|contradiction].
  - destruct (all_within reads) as [xs|].
    + split; [discriminate|]. intros [H|H]; [discriminate H|].
      now apply IH in H.
    + split; [|reflexivity]. intros _. right. now apply IH.
  - split; [now left|reflexivity].
Qed.

Lemma all_within_values {A : Type} (reads : list (modelled A)) :
  forall xs, all_within reads = Within xs ->
             forall x, In x xs <-> In (Within x) reads.
Proof.
  induction reads as [|[y|] reads IH]; intros xs; cbn [all_within].
  - intros [= <-] x. reflexivity.
  - destruct (all_within reads) as [ys|]; [|discriminate].
    intros [= <-] x. cbn [In]. rewrite (IH ys eq_refl x).
    split; intros [H|H]; auto; left; congruence.
  - discriminate.
Qed.

Lemma uniqueValuesByKey_unfold (E : prototypes) (h : store) (arr : rvalue)
    (key : string) :
  uniqueValuesByKey E h arr key
  = match map_raising (read_key E h key) (array_items h arr) with
    | Returned reads =>
        match all_within reads with
        | Within values => Returned (Within (set_of values))
        | Beyond => Returned Beyond
        end
    | Thrown => Thrown
    end.
Proof.
  unfold uniqueValuesByKey, array_items.
  destruct arr as [| | | |l]; try reflexivity.
  destruct (h l) as [[xs|ms]|]; reflexivity.
Qed.

Lemma uniqueValuesByKey_unfold_thrown (E : prototypes) (h : store)
    (arr : rvalue) (key : string) :
  uniqueValuesByKey E h arr key = Thrown
  <-> exists item, In item (array_items h arr) /\ raises item = true.
Proof.
  rewrite uniqueValuesByKey_unfold.
  destruct (map_raising (read_key E h key) (array_items h arr)) as [reads|]
    eqn:Em.
  - split.
    + destruct (all_within reads); discriminate.
    + intros (item & Hin & Hr).
      assert (map_raising (read_key E h key) (array_items h arr) = Thrown);
        [|congruence].
      apply map_raising_thrown. exists item. split; [assumption|].
      now apply read_key_thrown.
  - split; [|intros _; reflexivity]. intros _.
    apply map_raising_thrown in Em as (item & Hin & Hr). exists item.
    split; [assumption|]. now apply read_key_thrown in Hr.
Qed.

Lemma uniqueValuesByKey_unfold_beyond (E : prototypes) (h : store)
    (arr : rvalue) (key : string) :
  uniqueValuesByKey E h arr key = Returned Beyond
  <-> (forall item, In item (array_items h arr) -> raises item = false)
      /\ exists item, In item (array_items h arr)
                      /\ get_prop h item key = None
                      /\ inherited_by E h item key = true.
Proof.
  rewrite uniqueValuesByKey_unfold.
  destruct (map_raising (read_key E h key) (array_items h arr)) as [reads|]
    eqn:Em.
  - assert (Hnone : forall item, In item (array_items h arr) ->
                                 raises item = false).
    { intros item Hin. destruct (raises item) eqn:Er; [|reflexivity].
      assert (map_raising (read_key E h key) (array_items h arr) = Thrown);
        [|congruence].
      apply map_raising_thrown. exists item. split; [assumption|].
      now apply read_key_thrown. }
    destruct (all_within reads) as [values|] eqn:Ea.
    + split; [discriminate|]. intros [_ (item & Hin & Hg & Hi)].
      assert (all_within reads = Beyond); [|congruence].
      apply all_within_beyond.
      apply (map_raising_returned _ _ reads Em). exists item.
      split; [assumption|]. now apply read_key_beyond.
    + split; [|reflexivity]. intros _. split; [exact Hnone|].
      apply all_within_beyond in Ea.
      apply (map_raising_returned _ _ reads Em) in Ea as (item & Hin & Hr).
      exists item. split; [assumption|]. now apply read_key_beyond.
  - split; [discriminate|]. intros [Hnone _].
    apply map_raising_thrown in Em as (item & Hin & Hr).
    apply read_key_thrown in Hr. rewrite (Hnone item Hin) in Hr.
    discriminate Hr.
Qed.

Lemma uniqueValuesByKey_within (E : prototypes) (h : store) (arr : rvalue)
    (key : string) (vs : list (option rvalue)) :
  uniqueValuesByKey E h arr key = Returned (Within vs) ->
  NoDup vs
  /\ forall v, In v vs <->
               exists item, In item (array_items h arr)
                            /\ read_key E h key item = Returned (Within v).
Proof.
  rewrite uniqueValuesByKey_unfold.
  destruct (map_raising (read_key E h key) (array_items h arr)) as [reads|]
    eqn:Em; [|discriminate].
  destruct (all_within reads) as [values|] eqn:Ea; [|discriminate].
  intros [= <-]. destruct (set_of_spec values [] (NoDup_nil _)) as [H1 H2].
  split; [exact H1|]. intros v. unfold set_of. rewrite H2.
  rewrite (all_within_values reads values Ea v).
  rewrite <- (map_raising_returned _ _ reads Em (Within v)). cbn [In]. tauto.
Qed.

(** X22.  [uniqueValuesByKey] raises exactly when some element of the array
    is a truthy primitive (a non-zero number, a non-empty string, [true]),
    whatever the key: [key in item] raises there and nothing catches it.
    Otherwise its result holds a member of a built-in prototype exactly
    when some element inherits [key] without having it as own property.
    Otherwise the values returned are pairwise distinct and are exactly the
    values read from the elements, [undefined] among them when an element is
    falsy or lacks the key.  Anything that is not an array gives the empty
    list. *)
Theorem uniqueValuesByKey_distinct_reads_or_raises (E : prototypes)
    (h : store) (arr : rvalue) (key : string) :
  (uniqueValuesByKey E h arr key = Thrown
   <-> exists item, In item (array_items h arr) /\ raises item = true)
  /\ (uniqueValuesByKey E h arr key = Returned Beyond
      <-> (forall item, In item (array_items h arr) -> raises item = false)
          /\ exists item, In item (array_items h arr)
                          /\ get_prop h item key = None
                          /\ inherited_by E h item key = true)
  /\ (forall vs, uniqueValuesByKey E h arr key = Returned (Within vs) ->
        NoDup vs
        /\ forall v, In v vs <->
                     exists item,
                       In item (array_items h arr)
                       /\ read_key E h key item = Returned (Within v))
  /\ (array_items h arr = [] ->
      uniqueValuesByKey E h arr key = Returned (Within [])).
Proof.
  split; [apply uniqueValuesByKey_unfold_thrown|].
  split; [apply uniqueValuesByKey_unfold_beyond|].
  split; [apply uniqueValuesByKey_within|].
  rewrite uniqueValuesByKey_unfold. now intros ->.
Qed.

(** A key that the elements only inherit. *)
Example uniqueValuesByKey_inherited_key :
  uniqueValuesByKey sample_prototypes records_store (RRef 1) "toString"
  = Returned Beyond
  /\ uniqueValuesByKey sample_prototypes records_store (RRef 1) "id"
     = Returned (Within [Some (RNum 1); Some (RNum 2)]).
Proof. split; reflexivity. Qed.

Lemma flat_records (h : store) (xs : list rvalue) :
  forallb (record_or_falsy h) xs = true -> flat h xs = xs.
Proof.
  induction xs as [|x xs IH]; [reflexivity|]. cbn [forallb]. intros H.
  apply andb_prop in H as [Hx Hxs]. unfold flat in *. cbn [flat_map].
  rewrite (IH Hxs). destruct x as [| | | |l]; try reflexivity.
  unfold record_or_falsy in Hx. now destruct (h l) as [[ys|ms]|].
Qed.

Lemma input_elements_records (h : store) (arr : rvalue) :
  forallb (record_or_falsy h) (array_items h arr) = true ->
  input_elements h arr = array_items h arr.
Proof.
  unfold input_elements, array_items. destruct arr as [| | | |l]; try reflexivity.
  destruct (h l) as [[xs|ms]|]; try reflexivity. apply flat_records.
Qed.

Lemma record_never_raises (h : store) (item : rvalue) :
  record_or_falsy h item = true -> raises item = false.
Proof.
  unfold record_or_falsy, raises.
  destruct item as [|b|n|s|l]; cbn [truthy andb]; try reflexivity.
  - now destruct b.
  - now destruct (negb (n =? 0)%Z).
  - now destruct (negb (s =? "")).
Qed.

(** X23.  The two methods on an array whose elements are objects or falsy
    values.  [uniqueValuesByKey] does not raise there.  When its result is
    within the values of the store and [mergeUniqueByKey] returns, a value
    other than [undefined] is among the values of the first exactly when it
    is the value at [key] of an element that the second retains. *)
Theorem uniqueValuesByKey_matches_mergeUniqueByKey (E : prototypes)
    (h : store) (arr : rvalue) (key : string)
    (Hrec : forallb (record_or_falsy h) (array_items h arr) = true) :
  uniqueValuesByKey E h arr key <> Thrown
  /\ forall vs items,
       uniqueValuesByKey E h arr key = Returned (Within vs) ->
       mergeUniqueByKey h arr key = Returned items ->
       forall v, In (Some v) vs <->
                 exists item, In item items
                              /\ get_prop h item key = Some v.
Proof.
  rewrite forallb_forall in Hrec. split.
  - intros H. apply uniqueValuesByKey_unfold_thrown in H as (item & Hin & Hr).
    rewrite (record_never_raises h item (Hrec item Hin)) in Hr.
    discriminate Hr.
  - intros vs items Hu Hm v.
    apply uniqueValuesByKey_within in Hu as [_ Hu]. rewrite Hu.
    apply mergeUniqueByKey_returned in Hm as [-> _].
    rewrite input_elements_records by now apply forallb_forall.
    split.
    + intros (x & Hin & Hx). unfold read_key in Hx.
      destruct (truthy x) eqn:Ht; [|discriminate].
      destruct x as [| | | |l]; try discriminate.
      destruct (get_prop h (RRef l) key) as [y|] eqn:Eg.
      2:{ destruct (inherited_by E h (RRef l) key); discriminate. }
      injection Hx as ->.
      destruct (RefsFacts.first_occurrences_represent h key
                  (array_items h arr) [] (RRef l) Hin)
        as [(e & [] & _)|(item & Hi & Hg)].
      * unfold eligible, has_own. now rewrite Eg.
      * exists item. split; [assumption|congruence].
    + intros (item & Hin & Hg).
      apply RefsFacts.first_occurrences_eligible in Hin as [Hin Hel].
      apply andb_prop in Hel as [Ht _]. exists item. split; [assumption|].
      pose proof (record_never_raises h item (Hrec item Hin)) as Hr.
      unfold read_key, raises in *. rewrite Ht in *. cbn [andb] in Hr.
      destruct item as [| | | |l]; try discriminate. now rewrite Hg.
Qed.

Lemma uniqueValuesByKey_matches_mergeUniqueByKey_witness :
  In (Some (RNum 2)) [Some (RNum 1); Some (RNum 2)]
  <-> exists item, In item [RRef 10; RRef 11]
                   /\ get_prop records_store item "id" = Some (RNum 2).
Proof.
  exact (proj2 (uniqueValuesByKey_matches_mergeUniqueByKey sample_prototypes
                  records_store (RRef 1) "id" eq_refl)
           [Some (RNum 1); Some (RNum 2)] [RRef 10; RRef 11]
           eq_refl eq_refl (RNum 2)).
Defined.

End UniqueFacts.

(** ** Applying a method to its own result *)

Lemma flatten_members_ordered (E : prototypes) (prefix : string)
    (ms : list (string * value)) :
  forall acc,
    keys_ordered (map fst acc) = true ->
    keys_ordered (map fst (flatten_members E prefix ms acc)) = true.
Proof.
  induction ms as [|[key x] ms IH]; intros acc H; [assumption|].
  cbn [flatten_members]. apply IH. destruct (is_object x).
  - now apply assign_members_ordered.
  - now apply set_member_ordered.
Qed.

Lemma flatten_members_scalars (E : prototypes) (prefix : string)
    (ms : list (string * value)) :
  Forall (fun x => forall prefix,
            Forall (fun kv => is_object (snd kv) = false)
                   (entries_of (flattenObject E x prefix))) (map snd ms) ->
  forall acc,
    Forall (fun kv => is_object (snd kv) = false) acc ->
    Forall (fun kv => is_object (snd kv) = false)
           (flatten_members E prefix ms acc).
Proof.
  induction ms as [|[key x] ms IH]; intros HQ acc H; [assumption|].
  inversion HQ as [|? ? Hx Hrest]; subst. cbn [flatten_members].
  apply (IH Hrest). destruct (is_object x) eqn:Ex.
  - apply (assign_members_values E (fun v => is_object v = false));
      [assumption|]. apply Hx.
  - now apply (set_member_values E (fun v => is_object v = false)).
Qed.

Lemma flattenObject_scalars (E : prototypes) (obj : value) :
  forall prefix,
    Forall (fun kv => is_object (snd kv) = false)
           (entries_of (flattenObject E obj prefix)).
Proof.
  induction obj as [| | | |l IH|o IH] using value_ind; intros prefix;
    try constructor.
  - rewrite flattenObject_unfold by reflexivity. cbn [entries_of].
    apply flatten_members_scalars; [|constructor].
    unfold index_entries. now rewrite map_snd_index_entries_from.
  - rewrite flattenObject_unfold by reflexivity. cbn [entries_of].
    apply flatten_members_scalars; [|constructor]. now apply Forall_map.
Qed.

Lemma flatten_members_flat (E : prototypes) (ms : list (string * value)) :
  Forall (fun kv => is_object (snd kv) = false) ms ->
  forall acc, flatten_members E "" ms acc = assign_members E acc ms.
Proof.
  unfold assign_members.
  induction ms as [|[key x] ms IH]; intros H acc; [reflexivity|].
  inversion H as [|? ? Hx Hrest]; subst. cbn [snd] in Hx.
  cbn [flatten_members fold_left fst snd]. rewrite Hx. now apply IH.
Qed.

(** X24.  [flattenObject] is idempotent: its result is a single-level
    mapping of values that are neither objects nor arrays, and flattening that
    again gives it back. *)
Theorem flattenObject_idempotent (E : prototypes) (obj : value) :
  flattenObject E (flattenObject E obj "") "" = flattenObject E obj ""
  /\ (forall k v, In (k, v) (entries_of (flattenObject E obj "")) ->
                  is_object v = false).
Proof.
  split.
  - destruct (is_object obj) eqn:Eo.
    + pose proof (flattenObject_scalars E obj "") as Hs.
      assert (Hkept : forall k, dropped E k = true ->
                get_prop (flattenObject E obj "") k = None).
      { intros k Dk. now rewrite flattenObject_lookup, Dk. }
      rewrite (flattenObject_unfold E obj) in * by assumption.
      rewrite flattenObject_unfold by reflexivity.
      cbn [entries_of get_prop] in *.
      f_equal. rewrite flatten_members_flat by assumption.
      rewrite assign_members_filter by reflexivity.
      rewrite filter_kept by assumption.
      now apply from_entries_ordered, flatten_members_ordered.
    + destruct obj; try discriminate; reflexivity.
  - intros k v Hin. pose proof (flattenObject_scalars E obj "") as Hs.
    rewrite Forall_forall in Hs. exact (Hs (k, v) Hin).
Qed.

Lemma replace_member_same {A : Type} (k : string) (v : A)
    (o : list (string * A)) :
  lookup k o = Some v -> replace_member k v o = o.
Proof.
  induction o as [|[k' v'] o IH]; [reflexivity|].
  cbn [lookup replace_member]. destruct (k' =? k).
  - now intros [= ->].
  - intros H. now rewrite IH.
Qed.

Lemma obj_set_same {A : Type} (k : string) (v : A) (o : list (string * A)) :
  lookup k o = Some v -> obj_set k v o = o.
Proof.
  intros H. unfold obj_set, has_key. rewrite H. now apply replace_member_same.
Qed.

Lemma assign_same {A : Type} (o es : list (string * A)) :
  (forall k v, In (k, v) es -> lookup k o = Some v) -> assign o es = o.
Proof.
  unfold assign. induction es as [|[k v] es IH]; intros H; [reflexivity|].
  cbn [fold_left fst snd]. rewrite obj_set_same by (apply H; now left).
  apply IH. intros k' v' Hin. apply H. now right.
Qed.

Lemma assign_wf (ot os : list (string * value)) :
  wf_value (VObj ot) = true -> wf_value (VObj os) = true ->
  wf_value (VObj (assign ot os)) = true.
Proof.
  cbn [wf_value]. intros Ht Hs.
  apply andb_prop in Ht as [Ht1 Ht2]. apply andb_prop in Hs as [Hs1 Hs2].
  apply andb_true_iff. split; [now apply assign_keeps_order|].
  rewrite forallb_forall in *.
  pose proof (assign_values (fun v => wf_value v = true) os ot) as H.
  rewrite !Forall_forall in H. auto.
Qed.

Lemma lookup_assign_source (ot os : list (string * value)) (k : string)
    (v : value) :
  NoDup (map fst os) -> In (k, v) os -> lookup k (assign ot os) = Some v.
Proof.
  intros Hnd Hin. rewrite lookup_assign, lookup_rev_nodup by assumption.
  now rewrite (in_lookup_nodup k v os).
Qed.

(** X25.  Merging the same source a second time changes nothing, and a
    mapping merged with itself is itself:
    [deepMerge(deepMerge(t, s), s) = deepMerge(t, s)] and
    [deepMerge(t, t) = t]. *)
Theorem deepMerge_idempotent (ot os : list (string * value))
    (Ht : wf_value (VObj ot) = true) (Hs : wf_value (VObj os) = true) :
  deepMerge (deepMerge (VObj ot) (VObj os)) (VObj os)
  = deepMerge (VObj ot) (VObj os)
  /\ deepMerge (VObj ot) (VObj ot) = VObj ot.
Proof.
  pose proof (wf_object_keys ot Ht) as Hot.
  split.
  - rewrite (deepMerge_on_mappings ot os) by assumption.
    destruct ot as [|mt ot]; [apply deepMerge_empty_target|].
    destruct os as [|ms os]; [now apply deepMerge_on_mappings|].
    rewrite from_entries_app by assumption.
    set (R := assign (mt :: ot) (ms :: os)).
    assert (HR : wf_value (VObj R) = true) by now apply assign_wf.
    assert (Hsame : assign R (ms :: os) = R).
    { apply assign_same. intros k v Hin. apply lookup_assign_source;
        [|assumption]. apply (wf_entries_nodup (VObj (ms :: os)) Hs). }
    rewrite deepMerge_on_mappings by assumption.
    destruct R as [|mr R'] eqn:ER.
    + destruct ms as [k v].
      assert (H : lookup k R = Some v).
      { apply lookup_assign_source; [|now left].
        apply (wf_entries_nodup (VObj ((k, v) :: os)) Hs). }
      rewrite ER in H. discriminate H.
    + rewrite from_entries_app by now apply wf_object_keys. now rewrite Hsame.
  - rewrite deepMerge_on_mappings by assumption.
    destruct ot as [|mt ot]; [reflexivity|].
    rewrite from_entries_app by assumption. f_equal.
    apply assign_same. intros k v Hin. apply in_lookup_nodup; [|assumption].
    apply (wf_entries_nodup (VObj (mt :: ot)) Ht).
Qed.

Lemma deepMerge_idempotent_witness :
  deepMerge (deepMerge (VObj [("a", VNum 1); ("b", VObj [("x", VNull)])])
                       (VObj [("b", VArr []); ("c", VStr "s")]))
            (VObj [("b", VArr []); ("c", VStr "s")])
  = deepMerge (VObj [("a", VNum 1); ("b", VObj [("x", VNull)])])
              (VObj [("b", VArr []); ("c", VStr "s")]).
Proof.
  exact (proj1 (deepMerge_idempotent
                  [("a", VNum 1); ("b", VObj [("x", VNull)])]
                  [("b", VArr []); ("c", VStr "s")] eq_refl eq_refl)).
Defined.
